(** * Inviwo core: processor network utilities, property owners, module reload

    A shallow embedding of
      - src/core/network/networkutils.cpp   (namespace [util]),
      - src/core/properties/propertyowner.cpp,
      - src/core/common/modulemanager.cpp   ([ModuleManager::reloadModules]),
    and the properties of these functions that the design document states.

    Pointers ([Processor*], [Property*], [Inport*], ...) are addresses;
    [std::unordered_set<Processor*>] is a [gset]; the objects that C++ code
    mutates through pointers live in explicit stores. *)

From stdpp Require Import gmap strings list relations pretty sorting.
From Stdlib Require Import ZArith Lia.

#[local] Set Warnings "-clear-no-such-hyp".

(** ** Ports, connections and the processor network *)

(** [Processor*]: the address of a processor object. *)
Definition ProcessorPtr := nat.

(** [Property*] and [PropertyOwner*]: addresses of objects in the property
    store.  A composite property is both a property and an owner; its two
    parts live at the same address, and the owner part of a processor lives
    at the processor's address. *)
Definition Addr := nat.

(** [Inport*] / [Outport*]: a port is owned by exactly one processor and is
    identified by that processor and its slot in the processor's port list;
    [getProcessor()] is the first projection. *)
Record Inport := mkInport { inportProcessor : ProcessorPtr; inportSlot : nat }.
Record Outport := mkOutport { outportProcessor : ProcessorPtr; outportSlot : nat }.

#[global] Instance Inport_eq_dec : EqDecision Inport.
Proof. solve_decision. Defined.
#[global] Instance Outport_eq_dec : EqDecision Outport.
Proof. solve_decision. Defined.

(** [PortConnection]: the ordered pair of an outport and an inport
    pointer, equal when both ends are. *)
Record PortConnection := mkConnection { getOutport : Outport; getInport : Inport }.

#[global] Instance PortConnection_eq_dec : EqDecision PortConnection.
Proof. solve_decision. Defined.

(** The virtual interface of the processor objects that the network
    utilities call.  None of these members is changed by the functions of
    networkutils.cpp, so they are read through the pointer. *)
Record ProcessorClass := mkProcessorClass {
  getInports : ProcessorPtr -> list Inport;
  getOutports : ProcessorPtr -> list Outport;
  isSink : ProcessorPtr -> bool;
  isConnectionActive : ProcessorPtr -> Inport -> Outport -> bool;
  canConnectTo : Inport -> Outport -> bool;
  isSelected : ProcessorPtr -> bool;
}.

(** [PropertyLink]: the ordered pair of a source and a destination
    property. *)
Record PropertyLink := mkLink { getSource : Addr; getDestination : Addr }.

#[global] Instance PropertyLink_eq_dec : EqDecision PropertyLink.
Proof. solve_decision. Defined.

(** What the utilities read of a [ProcessorNetwork]: [getProcessors()] in
    container order, [getConnections()], [getLinks()] and [getVersion()]. *)
Record ProcessorNetwork := mkNetwork {
  getProcessors : list ProcessorPtr;
  getConnections : list PortConnection;
  getLinks : list PropertyLink;
  getVersion : nat;
}.

(** What the utilities ask of a property about its place in the network:
    [getOwner()->getProcessor()] ([None] for [nullptr]) and [getPath()], the
    dot-separated identifiers from the processor down to the property. *)
Record PropertyClass := mkPropertyClass {
  getOwnerProcessor : Addr -> option ProcessorPtr;
  getPath : Addr -> string;
}.

(** Modelled from the spec: [Inport::getConnectedOutports()] (the port
    classes are not part of the sources) gives the outports that the
    connections of the network (section 3: ordered pairs of an outport and an
    inport) join to the inport. *)
Definition getConnectedOutports (net : ProcessorNetwork) (port : Inport) : list Outport :=
  getOutport <$> filter (λ c, getInport c = port) (getConnections net).

(** Modelled from the spec: [Outport::getConnectedInports()], likewise. *)
Definition getConnectedInports (net : ProcessorNetwork) (port : Outport) : list Inport :=
  getInport <$> filter (λ c, getOutport c = port) (getConnections net).

Inductive TraversalDirection := Up | Down.
Inductive VisitPattern := Pre | Post.

Section NetworkUtils.

(** Iteration order of a [std::unordered_set<Processor*>]: unspecified, so
    any enumeration of the set. *)
Variable iterate : gset ProcessorPtr -> list ProcessorPtr.
Variable cls : ProcessorClass.

(** [util::getDirectPredecessors(processor)], networkutils.cpp:56. *)
Definition getDirectPredecessors (net : ProcessorNetwork) (processor : ProcessorPtr)
    : gset ProcessorPtr :=
  foldl (λ predecessors port,
           foldl (λ predecessors connectedPort,
                    {[outportProcessor connectedPort]} ∪ predecessors)
                 predecessors (getConnectedOutports net port))
        ∅ (getInports cls processor).

(** [util::getDirectSuccessors(processor)], networkutils.cpp:66. *)
Definition getDirectSuccessors (net : ProcessorNetwork) (processor : ProcessorPtr)
    : gset ProcessorPtr :=
  foldl (λ successors port,
           foldl (λ successors connectedPort,
                    {[inportProcessor connectedPort]} ∪ successors)
                 successors (getConnectedInports net port))
        ∅ (getOutports cls processor).

(** Modelled from the spec: the overloads of [getDirectPredecessors] and
    [getDirectSuccessors] with a connection filter, which [traverseNetwork]
    calls, are declared in networkutils.h, not part of the sources.  Section
    4.2: the traversal operates on the connections that a predicate accepts;
    the predicate is called as in networkutils.cpp:122,
    [filter(processor, inport, connected outport)]. *)
Definition getDirectPredecessorsFiltered
    (filter : ProcessorPtr -> Inport -> Outport -> bool)
    (net : ProcessorNetwork) (processor : ProcessorPtr) : gset ProcessorPtr :=
  foldl (λ predecessors port,
           foldl (λ predecessors connectedPort,
                    if filter processor port connectedPort
                    then {[outportProcessor connectedPort]} ∪ predecessors
                    else predecessors)
                 predecessors (getConnectedOutports net port))
        ∅ (getInports cls processor).

Definition getDirectSuccessorsFiltered
    (filter : ProcessorPtr -> Inport -> Outport -> bool)
    (net : ProcessorNetwork) (processor : ProcessorPtr) : gset ProcessorPtr :=
  foldl (λ successors port,
           foldl (λ successors connectedPort,
                    if filter (inportProcessor connectedPort) connectedPort port
                    then {[inportProcessor connectedPort]} ∪ successors
                    else successors)
                 successors (getConnectedInports net port))
        ∅ (getOutports cls processor).

(** Modelled from the spec: the filter of a traversal that is given none
    (networkutils.h) accepts every connection. *)
Definition DefaultTraversalFilter : ProcessorPtr -> Inport -> Outport -> bool :=
  λ _ _ _, true.

(** A loop [for (auto p : ps) visit(state, p)] that threads the visited set
    and the output. *)
Fixpoint traverseEach {A : Type}
    (visit : gset ProcessorPtr -> A -> ProcessorPtr -> option (gset ProcessorPtr * A))
    (ps : list ProcessorPtr) (state : gset ProcessorPtr) (acc : A)
    : option (gset ProcessorPtr * A) :=
  match ps with
  | [] => Some (state, acc)
  | p :: ps' =>
      match visit state acc p with
      | Some (state', acc') => traverseEach visit ps' state' acc'
      | None => None
      end
  end.

(** Modelled from the spec: [util::traverseNetwork<D, V>(state, processor,
    f, connectionFilter)] is declared in networkutils.h, which is not part
    of the sources.  Section 4.2: a depth-first traversal that visits each
    processor once ([state] is the visited set), follows
    inports -> connected outports -> their processor (direction [Up]) over
    the connections the filter accepts, and calls [f] before ([Pre]) or
    after ([Post]) the neighbours.  [None] only when [fuel] runs out. *)
Fixpoint traverseNetwork {A : Type} (D : TraversalDirection) (V : VisitPattern)
    (filter : ProcessorPtr -> Inport -> Outport -> bool)
    (f : A -> ProcessorPtr -> A) (net : ProcessorNetwork)
    (fuel : nat) (state : gset ProcessorPtr) (acc : A) (processor : ProcessorPtr)
    : option (gset ProcessorPtr * A) :=
  if decide (processor ∈ state) then Some (state, acc)
  else
    match fuel with
    | 0 => None
    | S fuel' =>
        let state1 := {[processor]} ∪ state in
        let acc1 := match V with Pre => f acc processor | Post => acc end in
        let neighbours :=
          match D with
          | Up => getDirectPredecessorsFiltered filter net processor
          | Down => getDirectSuccessorsFiltered filter net processor
          end in
        match traverseEach (traverseNetwork D V filter f net fuel')
                           (iterate neighbours) state1 acc1 with
        | Some (state2, acc2) =>
            Some (state2, match V with Pre => acc2 | Post => f acc2 processor end)
        | None => None
        end
    end.

(** The callback [[&sorted](Processor* p) { sorted.push_back(p); }]. *)
Definition push_back (sorted : list ProcessorPtr) (p : ProcessorPtr) : list ProcessorPtr :=
  sorted ++ [p].

(** [util::topologicalSort(network)], networkutils.cpp:94. *)
Definition topologicalSort (fuel : nat) (net : ProcessorNetwork)
    : option (list ProcessorPtr) :=
  let sinkProcessors := List.filter (isSink cls) (getProcessors net) in
  snd <$> traverseEach
            (traverseNetwork Up Post DefaultTraversalFilter push_back net fuel)
            sinkProcessors ∅ [].

(** [util::topologicalSortFiltered(network)], networkutils.cpp:110. *)
Definition topologicalSortFiltered (fuel : nat) (net : ProcessorNetwork)
    : option (list ProcessorPtr) :=
  let sinkProcessors := List.filter (isSink cls) (getProcessors net) in
  snd <$> traverseEach
            (traverseNetwork Up Post (isConnectionActive cls) push_back net fuel)
            sinkProcessors ∅ [].

(** [util::getPredecessors(processor)], networkutils.cpp:76, and
    [util::getSuccessors(processor)], networkutils.cpp:85. *)
Definition getPredecessors (fuel : nat) (net : ProcessorNetwork) (processor : ProcessorPtr)
    : option (gset ProcessorPtr) :=
  snd <$> traverseNetwork Up Post DefaultTraversalFilter
            (λ predecessors p, {[p]} ∪ predecessors) net fuel ∅ ∅ processor.

Definition getSuccessors (fuel : nat) (net : ProcessorNetwork) (processor : ProcessorPtr)
    : option (gset ProcessorPtr) :=
  snd <$> traverseNetwork Down Post DefaultTraversalFilter
            (λ successors p, {[p]} ∪ successors) net fuel ∅ ∅ processor.

End NetworkUtils.

(** ** Positions of processors (networkutils.cpp) *)

(** [ivec2]: two [int]s. *)
Definition ivec2 : Type := Z * Z.

(** [std::numeric_limits<int>::max()] and [lowest()]. *)
Definition INT_MAX : Z := 2147483647.
Definition INT_LOWEST : Z := -2147483648.

Definition isInt (z : Z) : Prop := (INT_LOWEST ≤ z ≤ INT_MAX)%Z.

(** [glm::min] and [glm::max] on [ivec2], by component. *)
Definition glm_min (a b : ivec2) : ivec2 := (Z.min a.1 b.1, Z.min a.2 b.2).
Definition glm_max (a b : ivec2) : ivec2 := (Z.max a.1 b.1, Z.max a.2 b.2).

(** [int] addition; signed overflow is undefined, hence no result. *)
Definition addInt (a b : Z) : option Z :=
  if decide (INT_LOWEST ≤ a + b ≤ INT_MAX)%Z then Some (a + b)%Z else None.

(** [operator+=] on [ivec2]. *)
Definition addVec (a b : ivec2) : option ivec2 :=
  x ← addInt a.1 b.1; y ← addInt a.2 b.2; Some (x, y).

(** [ivec2 / int]: the division of [int], which truncates; the divisor is
    not zero where the source divides. *)
Definition divVec (a : ivec2) (n : Z) : ivec2 := (Z.quot a.1 n, Z.quot a.2 n).

(** [static_cast<int>] of a [size_t]: modulo 2^32, into the range of
    [int]. *)
Definition static_cast_int (n : nat) : Z :=
  ((Z.of_nat n + 2147483648) mod 4294967296 - 2147483648)%Z.

Section Positions.

(** [util::getPosition(processor)] (processorutils.h) is not part of the
    sources: any function from processors to [ivec2]. *)
Variable getPosition : ProcessorPtr -> ivec2.

(** [util::getPositions(processors)], networkutils.cpp:129. *)
Definition getPositions (processors : list ProcessorPtr) : list ivec2 :=
  getPosition <$> processors.

(** [util::getCenterPosition(processors)], networkutils.cpp:139; [None]
    when a sum overflows. *)
Definition getCenterPosition (processors : list ProcessorPtr) : option ivec2 :=
  match processors with
  | [] => Some (0, 0)%Z
  | _ :: _ =>
      center ← foldl (λ center p, center ← center; addVec center (getPosition p))
                     (Some (0, 0)%Z) processors;
      Some (divVec center (static_cast_int (length processors)))
  end.

(** [util::getBoundingBox(processors)], networkutils.cpp:163. *)
Definition getBoundingBox (processors : list ProcessorPtr) : ivec2 * ivec2 :=
  match processors with
  | [] => ((0, 0)%Z, (0, 0)%Z)
  | _ :: _ =>
      foldl (λ '(minPos, maxPos) p,
               let pos := getPosition p in
               (glm_min minPos pos, glm_max maxPos pos))
            ((INT_MAX, INT_MAX), (INT_LOWEST, INT_LOWEST)) processors
  end.

(** [util::getCenterPosition(network)], networkutils.cpp:149, and
    [util::getBoundingBox(network)], networkutils.cpp:176.
    [forEachProcessor] calls the function on every processor of the network:
    here in the order of [getProcessors()]. *)
Definition getCenterPositionOfNetwork (network : ProcessorNetwork) : option ivec2 :=
  '(center, count) ←
    foldl (λ state p,
             '(center, count) ← state;
             center ← addVec center (getPosition p);
             count ← addInt count 1;
             Some (center, count))
          (Some ((0, 0)%Z, 0%Z)) (getProcessors network);
  if decide (count = 0%Z) then Some center else Some (divVec center count).

Definition getBoundingBoxOfNetwork (network : ProcessorNetwork) : ivec2 * ivec2 :=
  let '(minPos, maxPos, empty) :=
    foldl (λ '(minPos, maxPos, empty) p,
             let pos := getPosition p in
             (glm_min minPos pos, glm_max maxPos pos, false))
          ((INT_MAX, INT_MAX), (INT_LOWEST, INT_LOWEST), true) (getProcessors network) in
  if empty then ((0, 0)%Z, (0, 0)%Z) else (minPos, maxPos).

End Positions.

(** ** Properties and property owners (propertyowner.cpp) *)

(** The dynamic type that [dynamic_cast<EventProperty*>] and
    [dynamic_cast<CompositeProperty*>] test. *)
Inductive PropertyKind := PlainProperty | EventProperty | CompositeProperty.

Inductive PropertySerializationMode := SerializeDefault | SerializeAll.

(** [InvalidationLevel], in the order of its enumerators. *)
Inductive InvalidationLevel := Valid | InvalidOutput | InvalidResources.

#[global] Instance PropertyKind_eq_dec : EqDecision PropertyKind.
Proof. solve_decision. Defined.
#[global] Instance PropertySerializationMode_eq_dec : EqDecision PropertySerializationMode.
Proof. solve_decision. Defined.
#[global] Instance InvalidationLevel_eq_dec : EqDecision InvalidationLevel.
Proof. solve_decision. Defined.

Definition levelRank (l : InvalidationLevel) : nat :=
  match l with Valid => 0 | InvalidOutput => 1 | InvalidResources => 2 end.

(** [std::max] on the enumeration. *)
Definition levelMax (a b : InvalidationLevel) : InvalidationLevel :=
  if decide (levelRank a < levelRank b) then b else a.

(** The members of a [Property] object that propertyowner.cpp and
    networkutils.cpp read or write. *)
Record Property := mkProperty {
  identifier_ : string;
  classIdentifier_ : string;
  value_ : Z;
  dynamicType : PropertyKind;
  serializationMode_ : PropertySerializationMode;
  owner_ : option Addr;
  propertyModified_ : bool;
}.

(** The members of a [PropertyOwner]; [observers_] is the observer list of
    its [PropertyOwnerObservable] base. *)
Record PropertyOwner := mkPropertyOwner {
  properties_ : list Addr;
  eventProperties_ : list Addr;
  compositeProperties_ : list Addr;
  ownedProperties_ : list Addr;
  invalidationLevel_ : InvalidationLevel;
  observers_ : list nat;
}.

(** The calls made on the observers of an owner. *)
Inductive PropertyOwnerEvent :=
| WillAddProperty (owner property : Addr) (index : nat)
| DidAddProperty (property : Addr) (index : nat)
| WillRemoveProperty (property : Addr) (index : nat)
| DidRemoveProperty (owner property : Addr) (index : nat).

(** The store: the property objects, the owner objects and the sequence of
    observer notifications sent so far, each with the owner sending it. *)
Record Heap := mkHeap {
  properties : gmap Addr Property;
  owners : gmap Addr PropertyOwner;
  notifications : list (Addr * PropertyOwnerEvent);
}.

(** The exceptions thrown or caught in the modelled code, by class:
    [Exception] with the arguments of its format string (and the address of
    the owner for its virtual [getIdentifier()]), [SerializationException],
    [ModuleInitException] with the modules to deregister, and any other
    [std::exception]. *)
Inductive Exception :=
| IdentifierAlreadyUsed (id classId : string) (owner : Addr)
                        (existingId existingClassId : string)
| AddToItself (id classId : string)
| OtherException (message : string)
| SerializationException (message : string)
| ModuleInitException (message : string) (modulesToDeregister : list string)
| StdException (what : string).

(** A call on a state of type [S] returns, throws (the state is the one at
    the [throw]), follows a pointer to no object, or exhausts the recursion
    bound. *)
Inductive Outcome (S A : Type) :=
| Return (a : A) (s : S)
| Throw (e : Exception) (s : S)
| Fault
| OutOfFuel.
Arguments Return {S A} a s.
Arguments Throw {S A} e s.
Arguments Fault {S A}.
Arguments OutOfFuel {S A}.

Definition St (S A : Type) : Type := S -> Outcome S A.

#[global] Instance M_ret {S : Type} : MRet (St S) := λ A a s, Return a s.
#[global] Instance M_bind {S : Type} : MBind (St S) := λ A B f m s,
  match m s with
  | Return a s' => f a s'
  | Throw e s' => Throw e s'
  | Fault => Fault
  | OutOfFuel => OutOfFuel
  end.

Definition throw {S A : Type} (e : Exception) : St S A := λ s, Throw e s.
Definition outOfFuel {S A : Type} : St S A := λ _, OutOfFuel.
Definition fault {S A : Type} : St S A := λ _, Fault.

Fixpoint forEach {S A : Type} (l : list A) (body : A -> St S unit) : St S unit :=
  match l with
  | [] => mret tt
  | x :: l' => body x;; forEach l' body
  end.

(** Calls on the property store. *)
Abbreviation M := (St Heap).

Definition getProperty (p : Addr) : M Property :=
  λ h, match properties h !! p with Some pr => Return pr h | None => Fault end.

Definition getPropertyOwner (this : Addr) : M PropertyOwner :=
  λ h, match owners h !! this with Some o => Return o h | None => Fault end.

Definition putProperty (p : Addr) (pr : Property) : M unit :=
  λ h, Return tt (mkHeap (<[p:=pr]> (properties h)) (owners h) (notifications h)).

Definition putPropertyOwner (this : Addr) (o : PropertyOwner) : M unit :=
  λ h, Return tt (mkHeap (properties h) (<[this:=o]> (owners h)) (notifications h)).

Definition modifyProperty (p : Addr) (f : Property -> Property) : M unit :=
  pr ← getProperty p; putProperty p (f pr).

Definition modifyPropertyOwner (this : Addr) (f : PropertyOwner -> PropertyOwner) : M unit :=
  o ← getPropertyOwner this; putPropertyOwner this (f o).

(** [dynamic_cast<Property*>(this)]: the property part of the object at
    [this], if it has one. *)
Definition asProperty (this : Addr) : M (option Property) :=
  λ h, Return (properties h !! this) h.

(** [new]: an address that holds no object yet. *)
Definition allocate : M Addr :=
  λ h, Return (fresh (dom (properties h) ∪ dom (owners h))) h.

Definition notifyObservers (this : Addr) (e : PropertyOwnerEvent) : M unit :=
  λ h, Return tt (mkHeap (properties h) (owners h) (notifications h ++ [(this, e)])).

(** Modelled from the spec: [Property::setOwner] and
    [Property::setSerializationMode] (property.cpp is not part of the
    sources) store their argument in the property (section 3: a property has
    a back-reference to its owner and a serialization mode). *)
Definition setOwner (property : Addr) (o : option Addr) : M unit :=
  modifyProperty property (λ pr,
    mkProperty (identifier_ pr) (classIdentifier_ pr) (value_ pr) (dynamicType pr)
               (serializationMode_ pr) o (propertyModified_ pr)).

Definition setSerializationMode (property : Addr) (mode : PropertySerializationMode) : M unit :=
  modifyProperty property (λ pr,
    mkProperty (identifier_ pr) (classIdentifier_ pr) (value_ pr) (dynamicType pr)
               mode (owner_ pr) (propertyModified_ pr)).

(** [PropertyOwner::PropertyOwner()], propertyowner.cpp:46, constructing the
    object at [this]. *)
Definition PropertyOwner_new (this : Addr) : M unit :=
  putPropertyOwner this (mkPropertyOwner [] [] [] [] Valid []).

(** The first loop of [getPropertyByIdentifier]: the first property of the
    list whose identifier is [id]. *)
Fixpoint findByIdentifier (ps : list Addr) (id : string) : M (option Addr) :=
  match ps with
  | [] => mret None
  | property :: ps' =>
      pr ← getProperty property;
      if decide (identifier_ pr = id) then mret (Some property)
      else findByIdentifier ps' id
  end.

(** [PropertyOwner::getPropertyByIdentifier(identifier, recursiveSearch)],
    propertyowner.cpp:264. *)
Fixpoint getPropertyByIdentifier (fuel : nat) (this : Addr) (id : string)
    (recursiveSearch : bool) : M (option Addr) :=
  o ← getPropertyOwner this;
  found ← findByIdentifier (properties_ o) id;
  match found with
  | Some property => mret (Some property)
  | None =>
      if recursiveSearch then
        match fuel with
        | 0 => outOfFuel
        | S fuel' =>
            (fix search (cs : list Addr) : M (option Addr) :=
               match cs with
               | [] => mret None
               | compositeProperty :: cs' =>
                   p ← getPropertyByIdentifier fuel' compositeProperty id true;
                   match p with
                   | Some property => mret (Some property)
                   | None => search cs'
                   end
               end) (compositeProperties_ o)
        end
      else mret None
  end.

(** [PropertyOwner::getPropertiesRecursive(destination)],
    propertyowner.cpp:247. *)
Fixpoint getPropertiesRecursiveInto (fuel : nat) (this : Addr) (destination : list Addr)
    : M (list Addr) :=
  o ← getPropertyOwner this;
  let destination := destination ++ properties_ o in
  match fuel with
  | 0 => outOfFuel
  | S fuel' =>
      (fix each (cs : list Addr) (destination : list Addr) : M (list Addr) :=
         match cs with
         | [] => mret destination
         | comp :: cs' =>
             destination ← getPropertiesRecursiveInto fuel' comp destination;
             each cs' destination
         end) (compositeProperties_ o) destination
  end.

(** [PropertyOwner::getPropertiesRecursive()], propertyowner.cpp:258. *)
Definition getPropertiesRecursive (fuel : nat) (this : Addr) : M (list Addr) :=
  getPropertiesRecursiveInto fuel this [].

(** [std::vector::insert(begin() + index, x)]. *)
Definition vectorInsert {A : Type} (index : nat) (x : A) (v : list A) : list A :=
  take index v ++ x :: drop index v.

(** [PropertyOwner::insertPropertyImpl(it, property, owner)],
    propertyowner.cpp:156; the iterator is [begin() + index]. *)
Definition insertPropertyImpl (this : Addr) (index : nat) (property : Addr) (owner : bool)
    : M unit :=
  modifyPropertyOwner this (λ o,
    mkPropertyOwner (vectorInsert index property (properties_ o)) (eventProperties_ o)
                    (compositeProperties_ o) (ownedProperties_ o)
                    (invalidationLevel_ o) (observers_ o));;
  setOwner property (Some this);;
  pr ← getProperty property;
  (if decide (dynamicType pr = EventProperty) then
     modifyPropertyOwner this (λ o,
       mkPropertyOwner (properties_ o) (eventProperties_ o ++ [property])
                       (compositeProperties_ o) (ownedProperties_ o)
                       (invalidationLevel_ o) (observers_ o))
   else mret tt);;
  (if decide (dynamicType pr = CompositeProperty) then
     modifyPropertyOwner this (λ o,
       mkPropertyOwner (properties_ o) (eventProperties_ o)
                       (compositeProperties_ o ++ [property]) (ownedProperties_ o)
                       (invalidationLevel_ o) (observers_ o))
   else mret tt);;
  if owner then
    modifyPropertyOwner this (λ o,
      mkPropertyOwner (properties_ o) (eventProperties_ o)
                      (compositeProperties_ o) (ownedProperties_ o ++ [property])
                      (invalidationLevel_ o) (observers_ o));;
    setSerializationMode property SerializeAll
  else mret tt.

(** [PropertyOwner::insertProperty(index, property, owner)],
    propertyowner.cpp:131. *)
Definition insertProperty (this : Addr) (index : nat) (property : Addr) (owner : bool)
    : M unit :=
  o ← getPropertyOwner this;
  let index := if decide (length (properties_ o) < index)
               then length (properties_ o) else index in
  pr ← getProperty property;
  existing ← getPropertyByIdentifier 0 this (identifier_ pr) false;
  match existing with
  | Some existing =>
      ex ← getProperty existing;
      throw (IdentifierAlreadyUsed (identifier_ pr) (classIdentifier_ pr) this
                                   (identifier_ ex) (classIdentifier_ ex))
  | None =>
      parent ← asProperty this;
      (match parent return M unit with
       | Some _ =>
           if decide (this = property)
           then throw (AddToItself (identifier_ pr) (classIdentifier_ pr))
           else mret tt
       | None => mret tt
       end);;
      notifyObservers this (WillAddProperty this property index);;
      insertPropertyImpl this index property owner;;
      notifyObservers this (DidAddProperty property index)
  end.

(** [PropertyOwner::addProperty(Property* property, bool owner)],
    propertyowner.cpp:106. *)
Definition addProperty (this : Addr) (property : Addr) (owner : bool) : M unit :=
  o ← getPropertyOwner this;
  insertProperty this (length (properties_ o)) property owner.

(** [PropertyOwner::addProperty(Property& property)], propertyowner.cpp:110,
    and [insertProperty(index, Property& property)], propertyowner.cpp:118. *)
Definition addPropertyRef (this : Addr) (property : Addr) : M unit :=
  o ← getPropertyOwner this;
  insertProperty this (length (properties_ o)) property false.

Definition insertPropertyRef (this : Addr) (index : nat) (property : Addr) : M unit :=
  insertProperty this index property false.

(** [std::erase(v, x)]: the vector without the elements equal to [x]. *)
Definition erase (x : Addr) (v : list Addr) : list Addr :=
  filter (λ y, y ≠ x) v.

(** [delete]: the address holds no object any more. *)
Definition deallocate (p : Addr) : M unit :=
  λ h, Return tt (mkHeap (delete p (properties h)) (delete p (owners h)) (notifications h)).

(** Modelled from the spec: the destructors of the property classes are not
    part of the sources.  Section 4.1: an owner that takes ownership stores
    the property in an owning container, so the property is destroyed when it
    leaves the container.  A composite property is an owner as well, and
    [PropertyOwner::~PropertyOwner()], propertyowner.cpp:104, runs [clear()]
    ([ownerClear]) on it. *)
Definition Property_delete (ownerClear : Addr -> M unit) (property : Addr) : M unit :=
  pr ← getProperty property;
  (if decide (dynamicType pr = CompositeProperty) then ownerClear property else mret tt);;
  deallocate property.

(** [PropertyOwner::removePropertyImpl(it)], propertyowner.cpp:197; the
    iterator is [begin() + it], and [end()] when [it] is the size.  The
    result is [None] for [nullptr]. *)
Definition removePropertyImplWith (ownerClear : Addr -> M unit) (this : Addr) (it : nat)
    : M (option Addr) :=
  o ← getPropertyOwner this;
  match properties_ o !! it with
  | None => mret None
  | Some prop =>
      notifyObservers this (WillRemoveProperty prop it);;
      modifyPropertyOwner this (λ o,
        mkPropertyOwner (properties_ o) (erase prop (eventProperties_ o))
                        (compositeProperties_ o) (ownedProperties_ o)
                        (invalidationLevel_ o) (observers_ o));;
      modifyPropertyOwner this (λ o,
        mkPropertyOwner (properties_ o) (eventProperties_ o)
                        (erase prop (compositeProperties_ o)) (ownedProperties_ o)
                        (invalidationLevel_ o) (observers_ o));;
      setOwner prop None;;
      modifyPropertyOwner this (λ o,
        mkPropertyOwner (delete it (properties_ o)) (eventProperties_ o)
                        (compositeProperties_ o) (ownedProperties_ o)
                        (invalidationLevel_ o) (observers_ o));;
      notifyObservers this (DidRemoveProperty this prop it);;
      o ← getPropertyOwner this;
      if decide (prop ∈ ownedProperties_ o) then
        modifyPropertyOwner this (λ o,
          mkPropertyOwner (properties_ o) (eventProperties_ o)
                          (compositeProperties_ o) (erase prop (ownedProperties_ o))
                          (invalidationLevel_ o) (observers_ o));;
        Property_delete ownerClear prop;;
        mret None
      else mret (Some prop)
  end.

(** [PropertyOwner::clear()], propertyowner.cpp:224: the loop
    [while (!properties_.empty()) removePropertyImpl(--properties_.end())]. *)
Fixpoint clear (fuel : nat) (this : Addr) : M unit :=
  match fuel with
  | 0 => outOfFuel
  | S fuel' =>
      o ← getPropertyOwner this;
      match properties_ o with
      | [] => mret tt
      | _ :: _ =>
          removePropertyImplWith (clear fuel') this (length (properties_ o) - 1);;
          clear fuel' this
      end
  end.

Definition removePropertyImpl (fuel : nat) (this : Addr) (it : nat) : M (option Addr) :=
  removePropertyImplWith (clear fuel) this it.

(** [std::find_if(properties_.begin(), properties_.end(), ...)] on the
    identifier: the position of the first property with the identifier, the
    size when there is none. *)
Fixpoint findIndexByIdentifier (ps : list Addr) (id : string) : M nat :=
  match ps with
  | [] => mret 0
  | property :: ps' =>
      pr ← getProperty property;
      if decide (identifier_ pr = id) then mret 0
      else i ← findIndexByIdentifier ps' id; mret (S i)
  end.

(** [std::find(properties_.begin(), properties_.end(), property)], likewise. *)
Definition findIndex (ps : list Addr) (property : Addr) : nat :=
  match list_find (λ p, p = property) ps with
  | Some (index, _) => index
  | None => length ps
  end.

(** [PropertyOwner::removeProperty(std::string_view identifier)],
    propertyowner.cpp:174. *)
Definition removePropertyByIdentifier (fuel : nat) (this : Addr) (id : string)
    : M (option Addr) :=
  o ← getPropertyOwner this;
  it ← findIndexByIdentifier (properties_ o) id;
  removePropertyImpl fuel this it.

(** [PropertyOwner::removeProperty(Property* property)], propertyowner.cpp:180,
    which [removeProperty(Property& property)] calls. *)
Definition removeProperty (fuel : nat) (this : Addr) (property : Addr) : M (option Addr) :=
  o ← getPropertyOwner this;
  removePropertyImpl fuel this (findIndex (properties_ o) property).

(** The [RangeException] (an [Exception]) of [removeProperty(size_t)], with
    its message. *)
Definition RangeException (index size : nat) : Exception :=
  OtherException ("Index '" +:+ pretty index +:+
                  "' out of range while removing property, (" +:+ pretty size +:+
                  " elements)").

(** [PropertyOwner::removeProperty(size_t index)], propertyowner.cpp:186. *)
Definition removePropertyAt (fuel : nat) (this : Addr) (index : nat) : M (option Addr) :=
  o ← getPropertyOwner this;
  if decide (length (properties_ o) ≤ index)
  then throw (RangeException index (length (properties_ o)))
  else removePropertyImpl fuel this index.

(** A [std::unique_ptr<Property>] parameter goes out of scope: when the body
    throws, the property is destroyed while the stack unwinds. *)
Definition withUniquePtr {A : Type} (fuel : nat) (property : Addr) (body : M A) : M A :=
  λ h, match body h with
       | Throw e h' =>
           match Property_delete (clear fuel) property h' with
           | Return _ h'' => Throw e h''
           | Throw e' h'' => Throw e' h''
           | Fault => Fault
           | OutOfFuel => OutOfFuel
           end
       | outcome => outcome
       end.

(** [PropertyOwner::insertProperty(size_t index, std::unique_ptr<Property>
    property)], propertyowner.cpp:122; the result is
    [ownedProperties_.back().get()]. *)
Definition insertPropertyOwned (fuel : nat) (this : Addr) (index : nat) (property : Addr)
    : M Addr :=
  withUniquePtr fuel property
    (insertProperty this index property false;;
     setSerializationMode property SerializeAll;;
     modifyPropertyOwner this (λ o,
       mkPropertyOwner (properties_ o) (eventProperties_ o)
                       (compositeProperties_ o) (ownedProperties_ o ++ [property])
                       (invalidationLevel_ o) (observers_ o));;
     mret property).

(** [PropertyOwner::addProperty(std::unique_ptr<Property> property)],
    propertyowner.cpp:114. *)
Definition addPropertyOwned (fuel : nat) (this : Addr) (property : Addr) : M Addr :=
  o ← getPropertyOwner this;
  insertPropertyOwned fuel this (length (properties_ o)) property.

(** [PropertyOwner::move(property, newIndex)], propertyowner.cpp:306;
    inserting past the end of the vector is undefined. *)
Definition move (this : Addr) (property : Addr) (newIndex : nat) : M bool :=
  o ← getPropertyOwner this;
  match list_find (λ p, p = property) (properties_ o) with
  | Some (index, _) =>
      notifyObservers this (WillRemoveProperty property index);;
      modifyPropertyOwner this (λ o,
        mkPropertyOwner (delete index (properties_ o)) (eventProperties_ o)
                        (compositeProperties_ o) (ownedProperties_ o)
                        (invalidationLevel_ o) (observers_ o));;
      notifyObservers this (DidRemoveProperty this property index);;
      notifyObservers this (WillAddProperty this property newIndex);;
      o' ← getPropertyOwner this;
      (if decide (newIndex ≤ length (properties_ o')) then mret tt else fault);;
      modifyPropertyOwner this (λ o,
        mkPropertyOwner (vectorInsert newIndex property (properties_ o))
                        (eventProperties_ o) (compositeProperties_ o)
                        (ownedProperties_ o) (invalidationLevel_ o) (observers_ o));;
      notifyObservers this (DidAddProperty property newIndex);;
      mret true
  | None => mret false
  end.

(** [PropertyOwner::isValid()] and [getInvalidationLevel()]. *)
Definition getInvalidationLevel (this : Addr) : M InvalidationLevel :=
  o ← getPropertyOwner this; mret (invalidationLevel_ o).

Definition isValid (this : Addr) : M bool :=
  o ← getPropertyOwner this; mret (bool_decide (invalidationLevel_ o = Valid)).

(** [PropertyOwner::invalidate(invalidationLevel, modifiedProperty)],
    propertyowner.cpp:343. *)
Definition invalidate (this : Addr) (invalidationLevel : InvalidationLevel) : M unit :=
  modifyPropertyOwner this (λ o,
    mkPropertyOwner (properties_ o) (eventProperties_ o) (compositeProperties_ o)
                    (ownedProperties_ o)
                    (levelMax (invalidationLevel_ o) invalidationLevel) (observers_ o)).

(** Modelled from the spec: the virtual [Property::setValid()] is defined in
    property.cpp and compositeproperty.cpp, which are not part of the
    sources.  It clears the property's modified mark; a composite property is
    an owner as well and runs the owner's [setValid] ([ownerSetValid]) on
    itself (section 4.1: [setValid] clears all children, then self). *)
Definition Property_setValid (ownerSetValid : Addr -> M unit) (property : Addr) : M unit :=
  pr ← getProperty property;
  (if decide (dynamicType pr = CompositeProperty) then ownerSetValid property else mret tt);;
  modifyProperty property (λ pr,
    mkProperty (identifier_ pr) (classIdentifier_ pr) (value_ pr) (dynamicType pr)
               (serializationMode_ pr) (owner_ pr) false).

(** [PropertyOwner::setValid()], propertyowner.cpp:336. *)
Fixpoint setValid (fuel : nat) (this : Addr) : M unit :=
  match fuel with
  | 0 => outOfFuel
  | S fuel' =>
      o ← getPropertyOwner this;
      forEach (properties_ o) (Property_setValid (setValid fuel'));;
      modifyPropertyOwner this (λ o,
        mkPropertyOwner (properties_ o) (eventProperties_ o) (compositeProperties_ o)
                        (ownedProperties_ o) Valid (observers_ o))
  end.

(** Modelled from the spec: the virtual [Property::clone()] of the property
    classes is not part of the sources.  It returns a new object that is a
    copy of the property without an owner; for a composite property the
    copy's owner part is copy-constructed ([ownerCopy this rhs]) from the
    original's (section 4.1: deep clone via virtual clone). *)
Definition Property_clone (ownerCopy : Addr -> Addr -> M unit) (property : Addr) : M Addr :=
  pr ← getProperty property;
  c ← allocate;
  putProperty c (mkProperty (identifier_ pr) (classIdentifier_ pr) (value_ pr)
                            (dynamicType pr) (serializationMode_ pr) None
                            (propertyModified_ pr));;
  (if decide (dynamicType pr = CompositeProperty) then ownerCopy c property else mret tt);;
  mret c.

(** [PropertyOwner::PropertyOwner(const PropertyOwner& rhs)],
    propertyowner.cpp:54, constructing the object at [this].
    Modelled from the spec: the copy constructor of the
    [PropertyOwnerObservable] base (observer.h, not part of the sources)
    leaves the new object without observers (section 4.1: it does not copy
    observers).  [addProperty(p->clone())] takes the default [owner = true]. *)
Fixpoint PropertyOwner_copy (fuel : nat) (this rhs : Addr) : M unit :=
  match fuel with
  | 0 => outOfFuel
  | S fuel' =>
      r ← getPropertyOwner rhs;
      putPropertyOwner this (mkPropertyOwner [] [] [] [] (invalidationLevel_ r) []);;
      forEach (ownedProperties_ r) (λ p,
        c ← Property_clone (PropertyOwner_copy fuel') p;
        addProperty this c true)
  end.

(** [util::splitByFirst(path, delimiter)] (stringconversion.h): the text
    before the first delimiter and the text after it; the whole text and the
    empty text when there is no delimiter. *)
Fixpoint splitByFirst (path : string) (delimiter : Ascii.ascii) : string * string :=
  match path with
  | EmptyString => (EmptyString, EmptyString)
  | String c path' =>
      if decide (c = delimiter) then (EmptyString, path')
      else let (first, rest) := splitByFirst path' delimiter in (String c first, rest)
  end.

(** The character ['.']. *)
Definition dot : Ascii.ascii := Ascii.ascii_of_nat 46.

(** [PropertyOwner::getPropertyByPath(path)], propertyowner.cpp:277. *)
Fixpoint getPropertyByPath (fuel : nat) (this : Addr) (path : string) : M (option Addr) :=
  if decide (path = EmptyString) then mret None
  else
    let (first, rest) := splitByFirst path dot in
    if decide (rest = EmptyString) then getPropertyByIdentifier 0 this first false
    else
      match fuel with
      | 0 => outOfFuel
      | S fuel' =>
          o ← getPropertyOwner this;
          it ← findByIdentifier (compositeProperties_ o) first;
          match it with
          | Some comp => getPropertyByPath fuel' comp rest
          | None => mret None
          end
      end.

(** Modelled from the spec: the virtual [Property::set(const Property* src)] is
    not part of the sources.  It gives the property the value of the source
    property (section 4.2: property values are copied). *)
Definition Property_set (this : Addr) (src : Addr) : M unit :=
  s ← getProperty src;
  modifyProperty this (λ pr,
    mkProperty (identifier_ pr) (classIdentifier_ pr) (value_ s) (dynamicType pr)
               (serializationMode_ pr) (owner_ pr) (propertyModified_ pr)).

(** ** Partial networks and network edits (networkutils.cpp) *)

(** [NetworkEdge]: the serialized form of a connection or of a link. *)
Inductive NetworkEdge :=
| ConnectionEdge (connection : PortConnection)
| LinkEdge (link : PropertyLink).

(** What [PartialProcessorNetwork::serialize] hands to the serializer, by
    key. *)
Record SerializedPartialNetwork := mkSerializedPartialNetwork {
  ProcessorNetworkVersion : nat;
  Processors : list ProcessorPtr;
  InternalConnections : list NetworkEdge;
  ExternalConnections : list NetworkEdge;
  InternalPropertyLinks : list NetworkEdge;
  OutPropertyLinks : list NetworkEdge;
  InPropertyLinks : list NetworkEdge;
}.

(** [util::contains(selected, p)] for a pointer that may be [nullptr]. *)
Definition containsProcessor (selected : list ProcessorPtr) (p : option ProcessorPtr) : bool :=
  match p with
  | Some q => bool_decide (q ∈ selected)
  | None => false
  end.

(** The body of the loop over [network_->getConnections()],
    networkutils.cpp:286. *)
Definition classifyConnection (selected : list ProcessorPtr)
    (lists : list NetworkEdge * list NetworkEdge) (connection : PortConnection)
    : list NetworkEdge * list NetworkEdge :=
  let '(internalConnections, externalConnections) := lists in
  let in_ := inportProcessor (getInport connection) in
  let out := outportProcessor (getOutport connection) in
  if containsProcessor selected (Some in_) then
    if containsProcessor selected (Some out) then
      (internalConnections ++ [ConnectionEdge connection], externalConnections)
    else
      (internalConnections, externalConnections ++ [ConnectionEdge connection])
  else (internalConnections, externalConnections).

(** The body of the loop over [network_->getLinks()], networkutils.cpp:301. *)
Definition classifyLink (pcls : PropertyClass) (selected : list ProcessorPtr)
    (lists : list NetworkEdge * list NetworkEdge * list NetworkEdge) (link : PropertyLink)
    : list NetworkEdge * list NetworkEdge * list NetworkEdge :=
  let '(internalLinks, outLinks, inLinks) := lists in
  let srcInt := containsProcessor selected (getOwnerProcessor pcls (getSource link)) in
  let dstInt := containsProcessor selected (getOwnerProcessor pcls (getDestination link)) in
  if srcInt && dstInt then (internalLinks ++ [LinkEdge link], outLinks, inLinks)
  else if srcInt then (internalLinks, outLinks ++ [LinkEdge link], inLinks)
  else if dstInt then (internalLinks, outLinks, inLinks ++ [LinkEdge link])
  else (internalLinks, outLinks, inLinks).

(** [detail::PartialProcessorNetwork::serialize], networkutils.cpp:277. *)
Definition PartialProcessorNetwork_serialize (cls : ProcessorClass) (pcls : PropertyClass)
    (network_ : ProcessorNetwork) : SerializedPartialNetwork :=
  let selected := List.filter (isSelected cls) (getProcessors network_) in
  let '(internalConnections, externalConnections) :=
    foldl (classifyConnection selected) ([], []) (getConnections network_) in
  let '(internalLinks, outLinks, inLinks) :=
    foldl (classifyLink pcls selected) ([], [], []) (getLinks network_) in
  mkSerializedPartialNetwork (getVersion network_) selected
    internalConnections externalConnections internalLinks outLinks inLinks.

(** The processor is one of the network's and is flagged selected. *)
Definition isSelectedIn (cls : ProcessorClass) (net : ProcessorNetwork) (p : ProcessorPtr)
    : Prop :=
  p ∈ getProcessors net ∧ isSelected cls p = true.

(** Precisely one of the two ends of the connection is selected. *)
Definition exactlyOneEndSelected (cls : ProcessorClass) (net : ProcessorNetwork)
    (c : PortConnection) : Prop :=
  (isSelectedIn cls net (inportProcessor (getInport c)) ∧
   ¬ isSelectedIn cls net (outportProcessor (getOutport c))) ∨
  (¬ isSelectedIn cls net (inportProcessor (getInport c)) ∧
   isSelectedIn cls net (outportProcessor (getOutport c))).

(** Modelled from the spec: the members of [ProcessorNetwork]
    (processornetwork.cpp) are not part of the sources.  Section 3: the
    network holds the processors, the connection set and the link set;
    [removeProcessor] first detaches all connections and links that touch the
    processor.  Adding an element that is there already changes nothing. *)
Definition addConnection (outport : Outport) (inport : Inport) : St ProcessorNetwork unit :=
  λ net, Return tt
    (if decide (mkConnection outport inport ∈ getConnections net) then net
     else mkNetwork (getProcessors net)
                    (getConnections net ++ [mkConnection outport inport])
                    (getLinks net) (getVersion net)).

Definition removeConnection (connection : PortConnection) : St ProcessorNetwork unit :=
  λ net, Return tt
    (mkNetwork (getProcessors net)
               (filter (λ c, c ≠ connection) (getConnections net))
               (getLinks net) (getVersion net)).

Definition addLink (src dst : Addr) : St ProcessorNetwork unit :=
  λ net, Return tt
    (if decide (mkLink src dst ∈ getLinks net) then net
     else mkNetwork (getProcessors net) (getConnections net)
                    (getLinks net ++ [mkLink src dst]) (getVersion net)).

Definition addProcessor (processor : ProcessorPtr) : St ProcessorNetwork unit :=
  λ net, Return tt
    (if decide (processor ∈ getProcessors net) then net
     else mkNetwork (getProcessors net ++ [processor]) (getConnections net)
                    (getLinks net) (getVersion net)).

(** Modelled from the spec: [PropertyLink::involves(processor)]
    (propertylink.cpp is not part of the sources); section 3: it holds if
    either endpoint's owning processor matches. *)
Definition involves (pcls : PropertyClass) (link : PropertyLink) (processor : ProcessorPtr)
    : bool :=
  bool_decide (getOwnerProcessor pcls (getSource link) = Some processor) ||
  bool_decide (getOwnerProcessor pcls (getDestination link) = Some processor).

(** Modelled from the spec: [ProcessorNetwork::removeProcessor], likewise
    (section 3: it first detaches all connections and links that touch the
    processor).  It returns the processor, or [None] ([nullptr]) when the
    processor is not in the network. *)
Definition removeProcessor (pcls : PropertyClass) (processor : ProcessorPtr)
    : St ProcessorNetwork (option ProcessorPtr) :=
  λ net,
    if decide (processor ∈ getProcessors net) then
      Return (Some processor)
        (mkNetwork (filter (λ p, p ≠ processor) (getProcessors net))
                   (filter (λ c, inportProcessor (getInport c) ≠ processor ∧
                                 outportProcessor (getOutport c) ≠ processor)
                           (getConnections net))
                   (filter (λ l, involves pcls l processor = false) (getLinks net))
                   (getVersion net))
    else Return None net.

(** [util::find_if_or_null(container, pred)] (stdextensions.h): the first
    element that satisfies the predicate, or [nullptr]. *)
Definition find_if_or_null {A : Type} (l : list A) (pred : A -> bool) : option A :=
  List.find pred l.

(** [util::addProcessorOnConnection(ProcessorNetwork&, Processor&,
    PortConnection)], networkutils.cpp:417. *)
Definition addProcessorOnConnection (cls : ProcessorClass) (processor : ProcessorPtr)
    (connection : PortConnection) : St ProcessorNetwork bool :=
  let connectionInport := getInport connection in
  let connectionOutport := getOutport connection in
  let inport := find_if_or_null (getInports cls processor)
                  (λ port, canConnectTo cls port connectionOutport) in
  let outport := find_if_or_null (getOutports cls processor)
                   (λ port, canConnectTo cls connectionInport port) in
  match inport, outport with
  | Some inport, Some outport =>
      removeConnection connection;;
      addConnection connectionOutport inport;;
      addConnection outport connectionInport;;
      mret true
  | _, _ => mret false
  end.




(** ** Replacing a processor (networkutils.cpp) *)

(** The state that [replaceProcessor] works on: the property store, the
    network, and the identifier and position of each processor. *)
Record World := mkWorld {
  heap : Heap;
  network : ProcessorNetwork;
  processorIdentifier : gmap ProcessorPtr string;
  processorPosition : gmap ProcessorPtr (Z * Z);
}.

Definition liftHeap {A : Type} (m : St Heap A) : St World A :=
  λ w, match m (heap w) with
       | Return a h =>
           Return a (mkWorld h (network w) (processorIdentifier w) (processorPosition w))
       | Throw e h =>
           Throw e (mkWorld h (network w) (processorIdentifier w) (processorPosition w))
       | Fault => Fault
       | OutOfFuel => OutOfFuel
       end.

Definition liftNetwork {A : Type} (m : St ProcessorNetwork A) : St World A :=
  λ w, match m (network w) with
       | Return a net =>
           Return a (mkWorld (heap w) net (processorIdentifier w) (processorPosition w))
       | Throw e net =>
           Throw e (mkWorld (heap w) net (processorIdentifier w) (processorPosition w))
       | Fault => Fault
       | OutOfFuel => OutOfFuel
       end.

Definition getNetwork : St World ProcessorNetwork := λ w, Return (network w) w.

(** [Processor::getIdentifier()], a getter. *)
Definition Processor_getIdentifier (processor : ProcessorPtr) : St World string :=
  λ w, match processorIdentifier w !! processor with
       | Some id => Return id w
       | None => Fault
       end.

(** Modelled from the spec: [Processor::setIdentifier] (processor.cpp) is
    not part of the sources; section 4.2: the new processor assumes the
    identifier. *)
Definition Processor_setIdentifier (processor : ProcessorPtr) (id : string) : St World unit :=
  λ w, Return tt (mkWorld (heap w) (network w) (<[processor := id]> (processorIdentifier w))
                          (processorPosition w)).

(** Modelled from the spec: [util::getPosition(processor)] and
    [util::setPosition(processor, pos)] are not part of the sources; they
    read and write the position of the processor (section 4.2 speaks of the
    positions of the processors of a network). *)
Definition getPosition (processor : ProcessorPtr) : St World (Z * Z) :=
  λ w, match processorPosition w !! processor with
       | Some pos => Return pos w
       | None => Fault
       end.

Definition setPosition (processor : ProcessorPtr) (pos : Z * Z) : St World unit :=
  λ w, Return tt (mkWorld (heap w) (network w) (processorIdentifier w)
                          (<[processor := pos]> (processorPosition w))).

(** The loop over the inports of the new processor, networkutils.cpp:488:
    each new inport takes over the connections of the first remaining old
    inport all of whose connected outports it can connect to. *)
Definition matchInports (cls : ProcessorClass) (net : ProcessorNetwork)
    (newInports oldInports : list Inport) : list PortConnection :=
  snd (foldl (λ '(oldInports, newConnections) newInport,
                match list_find
                        (λ oldInport,
                           Forall (λ outport, canConnectTo cls newInport outport = true)
                                  (getConnectedOutports net oldInport))
                        oldInports with
                | Some (it, oldInport) =>
                    (delete it oldInports,
                     newConnections ++
                       ((λ outport, mkConnection outport newInport) <$>
                          getConnectedOutports net oldInport))
                | None => (oldInports, newConnections)
                end)
             (oldInports, []) newInports).

(** The loop over the outports of the new processor, networkutils.cpp:507. *)
Definition matchOutports (cls : ProcessorClass) (net : ProcessorNetwork)
    (newOutports oldOutports : list Outport) : list PortConnection :=
  snd (foldl (λ '(oldOutports, newConnections) newOutport,
                match list_find
                        (λ oldOutport,
                           Forall (λ inport, canConnectTo cls inport newOutport = true)
                                  (getConnectedInports net oldOutport))
                        oldOutports with
                | Some (it, oldOutport) =>
                    (delete it oldOutports,
                     newConnections ++
                       ((λ inport, mkConnection newOutport inport) <$>
                          getConnectedInports net oldOutport))
                | None => (oldOutports, newConnections)
                end)
             (oldOutports, []) newOutports).

(** The loop that copies the property values, networkutils.cpp:527. *)
Definition copyPropertyValues (newProcessor oldProcessor : ProcessorPtr) : M unit :=
  oldOwner ← getPropertyOwner oldProcessor;
  forEach (properties_ oldOwner) (λ oldProp,
    op ← getProperty oldProp;
    found ← getPropertyByIdentifier 0 newProcessor (identifier_ op) false;
    match found with
    | Some newProp =>
        np ← getProperty newProp;
        if decide (classIdentifier_ np = classIdentifier_ op)
        then Property_set newProp oldProp
        else mret tt
    | None => mret tt
    end).

(** The loop that moves the property links, networkutils.cpp:536. *)
Definition moveLinks (pcls : PropertyClass) (fuel : nat)
    (newProcessor oldProcessor : ProcessorPtr) : St World unit :=
  net ← getNetwork;
  let links := List.filter (λ link, involves pcls link oldProcessor) (getLinks net) in
  forEach links (λ link,
    if decide (getOwnerProcessor pcls (getDestination link) = Some oldProcessor) then
      let '(first, rest) := splitByFirst (getPath pcls (getDestination link)) dot in
      found ← liftHeap (getPropertyByPath fuel newProcessor rest);
      match found with
      | Some newDst => liftNetwork (addLink (getSource link) newDst)
      | None => mret tt
      end
    else if decide (getOwnerProcessor pcls (getSource link) = Some oldProcessor) then
      let '(first, rest) := splitByFirst (getPath pcls (getSource link)) dot in
      found ← liftHeap (getPropertyByPath fuel newProcessor rest);
      match found with
      | Some newSrc => liftNetwork (addLink newSrc (getDestination link))
      | None => mret tt
      end
    else mret tt).

(** [util::replaceProcessor(ProcessorNetwork*, Processor& newProcessor,
    Processor* oldProcessor)], networkutils.cpp:482. *)
Definition replaceProcessor (cls : ProcessorClass) (pcls : PropertyClass) (fuel : nat)
    (newProcessor oldProcessor : ProcessorPtr) : St World ProcessorPtr :=
  net ← getNetwork;
  let newConnections :=
    matchInports cls net (getInports cls newProcessor) (getInports cls oldProcessor) ++
    matchOutports cls net (getOutports cls newProcessor) (getOutports cls oldProcessor) in
  liftHeap (copyPropertyValues newProcessor oldProcessor);;
  moveLinks pcls fuel newProcessor oldProcessor;;
  old ← liftNetwork (removeProcessor pcls oldProcessor);
  forEach newConnections (λ con, liftNetwork (addConnection (getOutport con) (getInport con)));;
  match old with
  | Some old =>
      id ← Processor_getIdentifier old;
      Processor_setIdentifier newProcessor id;;
      mret old
  | None => fault
  end.

(** [util::replaceProcessor(ProcessorNetwork*, std::shared_ptr<Processor>
    newProcessor, Processor* oldProcessor)], networkutils.cpp:472. *)
Definition replaceProcessorShared (cls : ProcessorClass) (pcls : PropertyClass) (fuel : nat)
    (newProcessor oldProcessor : ProcessorPtr) : St World ProcessorPtr :=
  pos ← getPosition oldProcessor;
  setPosition newProcessor pos;;
  liftNetwork (addProcessor newProcessor);;
  replaceProcessor cls pcls fuel newProcessor oldProcessor.

(** ** Reloading the modules (modulemanager.cpp) *)

(** [try { body } catch (...) { handler }]: [handler e] is [None] when no
    catch clause matches the exception, which then propagates. *)
Definition tryCatch {S A : Type} (body : St S A) (handler : Exception -> option (St S A))
    : St S A :=
  λ s, match body s with
       | Throw e s' =>
           match handler e with
           | Some recover => recover s'
           | None => Throw e s'
           end
       | outcome => outcome
       end.

(** What the module manager reads and changes of a [ModuleContainer]:
    [getModule()] is [None] after [resetModule()], [isLoaded] tells whether
    the library is loaded. *)
Record ModuleContainer := mkModuleContainer {
  identifier : string;
  name : string;
  dependencies : list string;
  isProtectedModule : bool;
  isProtectedLibrary : bool;
  getModule : option nat;
  isLoaded : bool;
}.

Inductive LogMessage :=
| LogInfo (message : string)
| LogException (e : Exception) (message : string)
| LogError (message : string)
| LogCapabilities (moduleIdentifier : string).

Inductive ModuleCallback := ModulesWillUnregister | ModulesDidRegister.

(** The application as the module manager sees it: its modules, the
    processor network, the system setting, the log and the callbacks invoked
    so far. *)
Record Application := mkApplication {
  inviwoModules_ : list ModuleContainer;
  getProcessorNetwork : ProcessorNetwork;
  runtimeModuleReloading_ : bool;
  logged : list LogMessage;
  invoked : list ModuleCallback;
}.

Definition getModules : St Application (list ModuleContainer) :=
  λ app, Return (inviwoModules_ app) app.

Definition setModules (f : list ModuleContainer -> list ModuleContainer) : St Application unit :=
  λ app, Return tt (mkApplication (f (inviwoModules_ app)) (getProcessorNetwork app)
                                  (runtimeModuleReloading_ app) (logged app) (invoked app)).

Definition log (m : LogMessage) : St Application unit :=
  λ app, Return tt (mkApplication (inviwoModules_ app) (getProcessorNetwork app)
                                  (runtimeModuleReloading_ app) (logged app ++ [m])
                                  (invoked app)).

Definition invoke (c : ModuleCallback) : St Application unit :=
  λ app, Return tt (mkApplication (inviwoModules_ app) (getProcessorNetwork app)
                                  (runtimeModuleReloading_ app) (logged app)
                                  (invoked app ++ [c])).

(** Modelled from the spec: [ProcessorNetwork::clear()]
    (processornetwork.cpp is not part of the sources) removes every
    processor, connection and link (section 3: these are what a network
    holds). *)
Definition ProcessorNetwork_clear : St Application unit :=
  λ app, Return tt (mkApplication (inviwoModules_ app)
                                  (mkNetwork [] [] [] (getVersion (getProcessorNetwork app)))
                                  (runtimeModuleReloading_ app) (logged app) (invoked app)).

(** [ModuleManager::isRuntimeModuleReloadingEnabled()], modulemanager.cpp:103. *)
Definition isRuntimeModuleReloadingEnabled : St Application bool :=
  λ app, Return (runtimeModuleReloading_ app) app.

(** Modelled from the spec: the members of [ModuleContainer]
    (modulecontainer.cpp is not part of the sources), by their effect on the
    container (section 5: a reload tears down and reloads the libraries;
    the steps are those of the comment at modulemanager.cpp:191). *)
Definition resetModule (cont : ModuleContainer) : ModuleContainer :=
  mkModuleContainer (identifier cont) (name cont) (dependencies cont)
                    (isProtectedModule cont) (isProtectedLibrary cont) None (isLoaded cont).

Definition unload (cont : ModuleContainer) : ModuleContainer :=
  mkModuleContainer (identifier cont) (name cont) (dependencies cont)
                    (isProtectedModule cont) (isProtectedLibrary cont) (getModule cont) false.

Definition load (cont : ModuleContainer) : ModuleContainer :=
  mkModuleContainer (identifier cont) (name cont) (dependencies cont)
                    (isProtectedModule cont) (isProtectedLibrary cont) (getModule cont) true.

Definition setModule (m : nat) (cont : ModuleContainer) : ModuleContainer :=
  mkModuleContainer (identifier cont) (name cont) (dependencies cont)
                    (isProtectedModule cont) (isProtectedLibrary cont) (Some m) (isLoaded cont).

Definition dependsOn (cont : ModuleContainer) (moduleId : string) : bool :=
  bool_decide (moduleId ∈ dependencies cont).

(** [util::push_back_unique] applied to each element in turn: the list
    without repetitions, in the order of first occurrence. *)
Definition unique (l : list string) : list string :=
  foldl (λ acc item, if decide (item ∈ acc) then acc else acc ++ [item]) [] l.

(** [std::ranges::find(v, x)] as a position: the index of the first
    element equal to [x], the size when there is none. *)
Definition indexOf (v : list string) (x : string) : nat :=
  match list_find (λ y, y = x) v with
  | Some (index, _) => index
  | None => length v
  end.

(** What the local [topologicalSort] of modulemanager.cpp threads through
    its helper: the sets [visited] and [tmpVisited] and the vector [sorted]. *)
Record SortState := mkSortState {
  sortVisited : gset string;
  sortTmpVisited : gset string;
  sortSorted : list string;
}.

(** The two exceptions of the helper, with their messages. *)
Definition MissingModuleDependency (lname : string) : Exception :=
  OtherException ("Missing module dependency " +:+ lname).

Definition NotADag : Exception :=
  OtherException "Module Dependency graph is not a DAG".

Definition getSortState : St SortState SortState := λ s, Return s s.

(** [tmpVisited.insert(lname)]. *)
Definition markTemporary (lname : string) : St SortState unit :=
  λ s, Return tt (mkSortState (sortVisited s) ({[lname]} ∪ sortTmpVisited s) (sortSorted s)).

(** [visited.insert(lname); sorted.push_back(lname)]. *)
Definition markVisited (lname : string) : St SortState unit :=
  λ s, Return tt (mkSortState ({[lname]} ∪ sortVisited s) (sortTmpVisited s)
                              (sortSorted s ++ [lname])).

(** The recursive lambda [helper] of [topologicalSort],
    modulemanager.cpp:56. *)
Fixpoint sortHelper (fuel : nat) (containers : list ModuleContainer) (lname : string)
    : St SortState unit :=
  match List.find (λ cont, bool_decide (identifier cont = lname)) containers with
  | None => throw (MissingModuleDependency lname)
  | Some it =>
      s ← getSortState;
      if decide (lname ∈ sortVisited s) then mret tt
      else if decide (lname ∈ sortTmpVisited s) then throw NotADag
      else
        match fuel with
        | 0 => outOfFuel
        | S fuel' =>
            markTemporary lname;;
            forEach (dependencies it) (sortHelper fuel' containers);;
            markVisited lname
        end
  end.

Section TopologicalSortModules.

(** [std::sort(first, last, comp)]: the order of equivalent elements is
    unspecified, so any sorting function. *)
Variable sort : (ModuleContainer -> ModuleContainer -> bool) ->
                list ModuleContainer -> list ModuleContainer.

(** [topologicalSort(containers)] of the unnamed namespace,
    modulemanager.cpp:54, on the vector [containers]: it is sorted in place,
    and left alone when the helper throws. *)
Definition topologicalSortModules (fuel : nat) : St (list ModuleContainer) unit :=
  λ containers,
    match forEach containers (λ item, sortHelper fuel containers (identifier item))
                  (mkSortState ∅ ∅ []) with
    | Return _ s =>
        Return tt (sort (λ a b, indexOf (sortSorted s) (identifier a) <?
                                indexOf (sortSorted s) (identifier b))
                        containers)
    | Throw e _ => Throw e containers
    | Fault => Fault
    | OutOfFuel => OutOfFuel
    end.

End TopologicalSortModules.

(** [ModuleManager::findDependentModules(moduleId)], modulemanager.cpp:433;
    [None] when the recursion bound is exhausted. *)
Fixpoint findDependentModules (fuel : nat) (modules : list ModuleContainer) (moduleId : string)
    : option (list string) :=
  match fuel with
  | 0 => None
  | S fuel' =>
      unique <$>
        foldl (λ acc item,
                 dependencies ← acc;
                 if dependsOn item moduleId then
                   deps ← findDependentModules fuel' modules (identifier item);
                   Some (dependencies ++ deps ++ [identifier item])
                 else Some dependencies)
              (Some []) modules
  end.

(** [ModuleManager::deregisterDependentModules(toDeregister)],
    modulemanager.cpp:449. *)
Definition deregisterDependentModules (fuel : nat) (toDeregister : list string)
    : St Application (list string) :=
  λ app,
    match foldl (λ acc m,
                   deregister ← acc;
                   dependents ← findDependentModules fuel (inviwoModules_ app) m;
                   Some (deregister ++ [m] ++ dependents))
                (Some []) toDeregister with
    | None => OutOfFuel
    | Some deregister =>
        let deregistered :=
          identifier <$> filter (λ cont, identifier cont ∈ deregister)
                                (reverse (inviwoModules_ app)) in
        Return deregistered
          (mkApplication
             ((λ cont, if decide (identifier cont ∈ deregister) then resetModule cont else cont)
                <$> inviwoModules_ app)
             (getProcessorNetwork app) (runtimeModuleReloading_ app) (logged app) (invoked app))
    end.

Section ReloadModules.

(** [WorkspaceManager::save(stream, path)] and [load(stream, path)], and
    [ModuleContainer::createModule(app)], are not part of the sources: any
    behaviour.  [save] yields the contents of the stream; [createModule]
    yields the module or the exception it throws. *)
Variable save : St Application string.
Variable loadWorkspace : string -> St Application unit.
Variable createModule : ModuleContainer -> Exception + nat.
Variable updateGraph : list ModuleContainer -> list ModuleContainer.
Variable fuel : nat.

(** The body of [for (auto& cont : inviwoModules_) if
    (!cont.isProtectedModule()) try { cont.createModule(app_); } catch ...],
    modulemanager.cpp:232, for the container at position [i]. *)
Definition createModuleAt (i : nat) : St Application unit :=
  λ app,
    match inviwoModules_ app !! i with
    | None => Fault
    | Some cont =>
        if isProtectedModule cont then Return tt app
        else
          match createModule cont with
          | inr m => setModules (λ modules, <[i := setModule m cont]> modules) app
          | inl (ModuleInitException message modulesToDeregister) =>
              (dereg ← deregisterDependentModules fuel modulesToDeregister;
               log (LogException (ModuleInitException message modulesToDeregister)
                                 "Failed to register module")) app
          | inl (StdException what) => log (LogError "Failed to register module") app
          | inl e => log (LogException e "Failed to register module") app
          end
    end.

(** [ModuleManager::reloadModules()], modulemanager.cpp:188.  The loops that
    reset and unload run over the containers in reverse; an iteration
    changes its own container only. *)
Definition reloadModules : St Application unit :=
  enabled ← isRuntimeModuleReloadingEnabled;
  if negb enabled then mret tt
  else
    log (LogInfo "Reloading modules");;
    stream ← tryCatch (stream ← save; mret (Some stream))
               (λ e, match e with
                     | SerializationException message =>
                         Some (log (LogException e "Unable to save network");; mret None)
                     | _ => None
                     end);
    match stream with
    | None => mret tt
    | Some stream =>
        ProcessorNetwork_clear;;
        invoke ModulesWillUnregister;;
        setModules (fmap (λ cont, if isProtectedModule cont then cont else resetModule cont));;
        setModules (fmap (λ cont, if isProtectedLibrary cont then cont else unload cont));;
        setModules (fmap (λ cont, if isProtectedLibrary cont then cont else load cont));;
        modules ← getModules;
        forEach (seq 0 (length modules)) createModuleAt;;
        setModules updateGraph;;
        modules ← getModules;
        forEach modules (λ cont,
          if isProtectedModule cont then mret tt
          else match getModule cont with
               | Some _ => log (LogCapabilities (identifier cont))
               | None => mret tt
               end);;
        invoke ModulesDidRegister;;
        tryCatch (loadWorkspace stream)
          (λ e, match e with
                | SerializationException message =>
                    Some (log (LogException e "Unable to load network"))
                | _ => None
                end)
    end.

End ReloadModules.

(** * Specification vocabulary *)

(** The property tree below the owner at [this] has no dangling pointer and
    fewer than [fuel] levels of owners: the recursion of [setValid] through
    composite properties ends within [fuel]. *)
Fixpoint boundedDepth (fuel : nat) (h : Heap) (this : Addr) : bool :=
  match fuel with
  | 0 => false
  | S fuel' =>
      match owners h !! this with
      | None => false
      | Some o =>
          forallb (λ p,
                     match properties h !! p with
                     | None => false
                     | Some pr =>
                         if decide (dynamicType pr = CompositeProperty)
                         then boundedDepth fuel' h p else true
                     end) (properties_ o)
      end
  end.

(** A sequence of [invalidate] calls on one owner. *)
Definition invalidateAll (this : Addr) (levels : list InvalidationLevel) : M unit :=
  forEach levels (invalidate this).

(** The calls on an owner that change it, [setValid] apart. *)
Inductive OwnerCall :=
| CallInvalidate (level : InvalidationLevel)
| CallInsertProperty (index : nat) (property : Addr) (owner : bool)
| CallAddProperty (property : Addr) (owner : bool)
| CallMove (property : Addr) (newIndex : nat).

Definition call (this : Addr) (c : OwnerCall) : M unit :=
  match c with
  | CallInvalidate level => invalidate this level
  | CallInsertProperty index property owner => insertProperty this index property owner
  | CallAddProperty property owner => addProperty this property owner
  | CallMove property newIndex => move this property newIndex;; mret tt
  end.



(** [precedes l r q]: an occurrence of [r] lies before an occurrence of [q]. *)
Definition precedes (l : list ProcessorPtr) (r q : ProcessorPtr) : Prop :=
  ∃ l1 l2 l3, l = l1 ++ r :: l2 ++ q :: l3.

(** [r] feeds [q]: a connection that the filter accepts leads from an
    outport of [r] to one of the inports of [q]. *)
Definition feeds (cls : ProcessorClass)
    (filter : ProcessorPtr -> Inport -> Outport -> bool)
    (net : ProcessorNetwork) (r q : ProcessorPtr) : Prop :=
  ∃ c, c ∈ getConnections net ∧ getInport c ∈ getInports cls q ∧
       filter q (getInport c) (getOutport c) = true ∧
       outportProcessor (getOutport c) = r.

(** No processor depends on itself through a chain of such connections. *)
Definition Acyclic (dep : relation ProcessorPtr) : Prop := ∀ p, ¬ tc dep p p.

(** Every processor of [sorted] comes after each of its transitive
    dependencies that is in [sorted] too. *)
Definition respectsDependencies (dep : relation ProcessorPtr)
    (sorted : list ProcessorPtr) : Prop :=
  ∀ q r, q ∈ sorted → r ∈ sorted → tc dep r q → precedes sorted r q.

(** What a traversal of [targets], started with visited set [S] and output
    [acc], has done when it returns [S'] and [acc']: it appended the new
    processors [L], each once; the targets are visited; every new processor
    reaches a target; and every processor feeding a new one is visited, and is
    either visited before the traversal, or placed before it, or the new one
    lies on a cycle. *)
Definition Traversed (cls : ProcessorClass)
    (filter : ProcessorPtr -> Inport -> Outport -> bool) (net : ProcessorNetwork)
    (targets : list ProcessorPtr)
    (S : gset ProcessorPtr) (acc : list ProcessorPtr)
    (S' : gset ProcessorPtr) (acc' : list ProcessorPtr) : Prop :=
  ∃ L, acc' = acc ++ L ∧ S' = S ∪ list_to_set L ∧ NoDup L ∧
       (∀ q, q ∈ L → q ∉ S) ∧
       (∀ c, c ∈ targets → c ∈ S') ∧
       (∀ q, q ∈ L → ∃ c, c ∈ targets ∧ rtc (feeds cls filter net) q c) ∧
       (∀ q r, q ∈ L → feeds cls filter net r q →
               r ∈ S' ∧ (r ∈ S ∨ precedes L r q ∨ tc (feeds cls filter net) q q)).

(** All pointers of the list lead to property objects. *)
Definition allLive (h : Heap) (ps : list Addr) : Prop :=
  ∀ p, p ∈ ps → is_Some (properties h !! p).

(** The store after a successful [insertProperty]. *)
Definition inserted (h : Heap) (this : Addr) (index : nat) (property : Addr) (owner : bool)
    (o : PropertyOwner) (pr : Property) : Heap :=
  mkHeap
    (<[property := mkProperty (identifier_ pr) (classIdentifier_ pr) (value_ pr)
                              (dynamicType pr)
                              (if owner then SerializeAll else serializationMode_ pr)
                              (Some this) (propertyModified_ pr)]> (properties h))
    (<[this := mkPropertyOwner
                 (vectorInsert index property (properties_ o))
                 (eventProperties_ o ++
                    if decide (dynamicType pr = EventProperty) then [property] else [])
                 (compositeProperties_ o ++
                    if decide (dynamicType pr = CompositeProperty) then [property] else [])
                 (ownedProperties_ o ++ if owner then [property] else [])
                 (invalidationLevel_ o) (observers_ o)]> (owners h))
    (notifications h ++ [(this, WillAddProperty this property index);
                         (this, DidAddProperty property index)]).

Definition clearModified (pr : Property) : Property :=
  mkProperty (identifier_ pr) (classIdentifier_ pr) (value_ pr) (dynamicType pr)
             (serializationMode_ pr) (owner_ pr) false.

Definition withLevel (l : InvalidationLevel) (o : PropertyOwner) : PropertyOwner :=
  mkPropertyOwner (properties_ o) (eventProperties_ o) (compositeProperties_ o)
                  (ownedProperties_ o) l (observers_ o).

(** [h'] is [h] with some modified marks cleared and some levels reset. *)
Definition validated (h h' : Heap) : Prop :=
  notifications h' = notifications h ∧
  (∀ a, option_Forall2 (λ pr pr', pr' = pr ∨ pr' = clearModified pr)
                       (properties h !! a) (properties h' !! a)) ∧
  (∀ a, option_Forall2 (λ o o', o' = o ∨ o' = withLevel Valid o)
                       (owners h !! a) (owners h' !! a)).

(** The child at [p] is valid: its modified mark is clear and, when it is a
    composite property, the level of its owner part is [Valid]. *)
Definition childValid (h : Heap) (p : Addr) : Prop :=
  ∃ pr, properties h !! p = Some pr ∧ propertyModified_ pr = false ∧
        (dynamicType pr = CompositeProperty →
         ∃ c, owners h !! p = Some c ∧ invalidationLevel_ c = Valid).

Definition childBounded (fuel : nat) (h : Heap) (p : Addr) : Prop :=
  ∃ pr, properties h !! p = Some pr ∧
        (dynamicType pr = CompositeProperty → boundedDepth fuel h p = true).

(** What [setValid] on the owner at [this] achieves. *)
Definition setValidPost (h : Heap) (this : Addr) (h' : Heap) : Prop :=
  validated h h' ∧
  ∃ o, owners h !! this = Some o ∧
       owners h' !! this = Some (withLevel Valid o) ∧
       ∀ p, p ∈ properties_ o → childValid h' p.

Definition levelOf (h : Heap) (this : Addr) : option InvalidationLevel :=
  invalidationLevel_ <$> owners h !! this.

(** A call that, returning or throwing, leaves the level of the owner at
    [this] as it was. *)
Definition keepsLevel {A : Type} (this : Addr) (m : M A) : Prop :=
  ∀ h, match m h with
       | Return _ h' | Throw _ h' => levelOf h' this = levelOf h this
       | _ => True
       end.

(** A call that, returning or throwing, leaves the owner at [this] with a
    level that is at least the one before. *)
Definition neverLowers {A : Type} (this : Addr) (m : M A) : Prop :=
  ∀ h o, owners h !! this = Some o →
         match m h with
         | Return _ h' | Throw _ h' =>
             ∃ o', owners h' !! this = Some o' ∧
                   levelRank (invalidationLevel_ o) ≤ levelRank (invalidationLevel_ o')
         | _ => True
         end.




(** Identifiers are unique among the properties of the list. *)
Definition uniqueIdentifiers (h : Heap) (ps : list Addr) : Prop :=
  ∀ p q pr qr, p ∈ ps → q ∈ ps →
               properties h !! p = Some pr → properties h !! q = Some qr →
               identifier_ pr = identifier_ qr → p = q.

Definition withValue (v : Z) (pr : Property) : Property :=
  mkProperty (identifier_ pr) (classIdentifier_ pr) v (dynamicType pr)
             (serializationMode_ pr) (owner_ pr) (propertyModified_ pr).

(** The store [hk] after [copyPropertyValues] has handled the old
    properties [done], for the store [h] of the call and the owner part [no] of
    the new processor: only values of the new processor's properties differ,
    and such a value is the value of the handled old property with the same
    identifier and class identifier, or the original one when no handled old
    property with its identifier has its class identifier. *)
Definition Copied (h : Heap) (no : PropertyOwner) (done : list Addr) (hk : Heap) : Prop :=
  owners hk = owners h ∧ notifications hk = notifications h ∧
  (∀ a, a ∉ properties_ no → properties hk !! a = properties h !! a) ∧
  (∀ np npr, np ∈ properties_ no → properties h !! np = Some npr →
     ∃ v, properties hk !! np = Some (withValue v npr) ∧
          (∀ op opr, op ∈ done → properties h !! op = Some opr →
                     identifier_ opr = identifier_ npr →
                     classIdentifier_ opr = classIdentifier_ npr → v = value_ opr) ∧
          ((∀ op opr, op ∈ done → properties h !! op = Some opr →
                      identifier_ opr = identifier_ npr →
                      classIdentifier_ opr ≠ classIdentifier_ npr) → v = value_ npr)).

(** Every owner of the store lists live properties, and its composite
    properties are owners of the store. *)
Definition heapClosed (h : Heap) : Prop :=
  ∀ a o, owners h !! a = Some o →
         allLive h (properties_ o) ∧ allLive h (compositeProperties_ o) ∧
         ∀ c, c ∈ compositeProperties_ o → is_Some (owners h !! c).

(** The property store and the processor identifiers are the same. *)
Definition keepsStore (w w' : World) : Prop :=
  heap w' = heap w ∧ processorIdentifier w' = processorIdentifier w.

(** The first property of the list that has the identifier: what the loop
    of [getPropertyByIdentifier] finds. *)
Fixpoint firstWithIdentifier (h : Heap) (ps : list Addr) (id : string) : option Addr :=
  match ps with
  | [] => None
  | p :: ps' =>
      match properties h !! p with
      | Some pr =>
          if decide (identifier_ pr = id) then Some p else firstWithIdentifier h ps' id
      | None => None
      end
  end.


Definition withOwner (a : option Addr) (pr : Property) : Property :=
  mkProperty (identifier_ pr) (classIdentifier_ pr) (value_ pr) (dynamicType pr)
             (serializationMode_ pr) a (propertyModified_ pr).

(** The owner without the property at position [it], which is [prop]. *)
Definition withoutProperty (it : nat) (prop : Addr) (o : PropertyOwner) : PropertyOwner :=
  mkPropertyOwner (delete it (properties_ o)) (erase prop (eventProperties_ o))
                  (erase prop (compositeProperties_ o)) (erase prop (ownedProperties_ o))
                  (invalidationLevel_ o) (observers_ o).

(** The store after [removePropertyImpl] has taken the property [prop] at
    position [it] from the owner: a property that the owner does not own
    stays, without owner; one that it owns is destroyed. *)
Definition removed (h : Heap) (this : Addr) (it : nat) (prop : Addr)
    (o : PropertyOwner) (pr : Property) : Heap :=
  mkHeap
    (if decide (prop ∈ ownedProperties_ o) then delete prop (properties h)
     else <[prop := withOwner None pr]> (properties h))
    (if decide (prop ∈ ownedProperties_ o)
     then delete prop (<[this := withoutProperty it prop o]> (owners h))
     else <[this := withoutProperty it prop o]> (owners h))
    (notifications h ++ [(this, WillRemoveProperty prop it);
                         (this, DidRemoveProperty this prop it)]).


(** The notifications that [clear] sends for the properties [ps] of the
    owner: from the last property to the first, each with its position. *)
Definition clearNotifications (this : Addr) (ps : list Addr)
    : list (Addr * PropertyOwnerEvent) :=
  concat (reverse (imap (λ i p, [(this, WillRemoveProperty p i);
                                 (this, DidRemoveProperty this p i)]) ps)).


(** The owner that [clear] leaves: no property, and of the event, composite
    and owned properties those that were not among its properties. *)
Definition cleared (o : PropertyOwner) : PropertyOwner :=
  mkPropertyOwner [] (filter (λ y, y ∉ properties_ o) (eventProperties_ o))
                  (filter (λ y, y ∉ properties_ o) (compositeProperties_ o))
                  (filter (λ y, y ∉ properties_ o) (ownedProperties_ o))
                  (invalidationLevel_ o) (observers_ o).


(** The owner at [this] and the composite properties below it, through
    fewer than [fuel] levels, are owners of the store that list live
    properties: the recursive searches end within [fuel]. *)
Fixpoint boundedComposites (fuel : nat) (h : Heap) (this : Addr) : bool :=
  match fuel with
  | 0 => false
  | S fuel' =>
      match owners h !! this with
      | None => false
      | Some o =>
          forallb (λ p, bool_decide (is_Some (properties h !! p))) (properties_ o) &&
          forallb (boundedComposites fuel' h) (compositeProperties_ o)
      end
  end.


(** The text has no ['.']. *)
Fixpoint dotFree (s : string) : bool :=
  match s with
  | EmptyString => true
  | String c s' => if decide (c = dot) then false else dotFree s'
  end.

(** The segments of a path, joined by ['.']. *)
Fixpoint joinPath (segments : list string) : string :=
  match segments with
  | [] => EmptyString
  | [id] => id
  | c :: rest => c +:+ String dot (joinPath rest)
  end.

(** The property that a path names, segment by segment: every segment but
    the last is the identifier of a composite property of the owner reached
    so far (the first with that identifier), the last one the identifier of
    one of its properties. *)
Fixpoint resolvePath (h : Heap) (this : Addr) (segments : list string) : option Addr :=
  match segments with
  | [] => None
  | c :: rest =>
      match owners h !! this with
      | None => None
      | Some o =>
          match rest with
          | [] => firstWithIdentifier h (properties_ o) c
          | _ :: _ =>
              match firstWithIdentifier h (compositeProperties_ o) c with
              | Some comp => resolvePath h comp rest
              | None => None
              end
          end
      end
  end.

(** The property at [a] belongs to a selected processor of the network. *)
Definition ownerSelected (cls : ProcessorClass) (pcls : PropertyClass)
    (net : ProcessorNetwork) (a : Addr) : Prop :=
  ∃ p, getOwnerProcessor pcls a = Some p ∧ isSelectedIn cls net p.

(** Every port of a connection is listed by its own processor and by no
    other. *)
Definition portsBelong (cls : ProcessorClass) (net : ProcessorNetwork) : Prop :=
  ∀ c, c ∈ getConnections net →
       (∀ p, getInport c ∈ getInports cls p ↔ inportProcessor (getInport c) = p) ∧
       (∀ p, getOutport c ∈ getOutports cls p ↔ outportProcessor (getOutport c) = p).



(** No connection of the network touches the processor. *)
Definition untouched (net : ProcessorNetwork) (p : ProcessorPtr) : Prop :=
  ∀ c, c ∈ getConnections net →
       inportProcessor (getInport c) ≠ p ∧ outportProcessor (getOutport c) ≠ p.

(** No link of the network has an end that belongs to the processor. *)
Definition unlinked (pcls : PropertyClass) (net : ProcessorNetwork) (p : ProcessorPtr)
    : Prop :=
  ∀ l, l ∈ getLinks net →
       getOwnerProcessor pcls (getSource l) ≠ Some p ∧
       getOwnerProcessor pcls (getDestination l) ≠ Some p.

(** Only the links of the network differ. *)
Definition keepsAllButLinks (w w' : World) : Prop :=
  heap w' = heap w ∧ processorIdentifier w' = processorIdentifier w ∧
  processorPosition w' = processorPosition w ∧
  getProcessors (network w') = getProcessors (network w) ∧
  getConnections (network w') = getConnections (network w).

(** The identifiers of the containers. *)
Definition moduleIdentifiers (containers : list ModuleContainer) : gset string :=
  list_to_set (identifier <$> containers).

(** The module [n] lists [d] among its dependencies. *)
Definition moduleDependsOn (containers : list ModuleContainer) (n d : string) : Prop :=
  ∃ cont, cont ∈ containers ∧ identifier cont = n ∧ d ∈ dependencies cont.

(** The same for the container that [std::ranges::find] yields for [n], the
    first with that identifier. *)
Definition firstDependsOn (containers : list ModuleContainer) (n d : string) : Prop :=
  ∃ it, List.find (λ cont, bool_decide (identifier cont = n)) containers = Some it ∧
        d ∈ dependencies it.

(** Every dependency of a container is the identifier of a container. *)
Definition dependenciesClosed (containers : list ModuleContainer) : Prop :=
  ∀ cont d, cont ∈ containers → d ∈ dependencies cont →
            d ∈ moduleIdentifiers containers.

(** No module depends on itself through a chain of dependencies. *)
Definition dependenciesAcyclic (containers : list ModuleContainer) : Prop :=
  ∀ n, ¬ tc (moduleDependsOn containers) n n.

(** What [std::sort] guarantees for a comparison of keys: a permutation in
    which no element comes before one with a smaller key. *)
Definition sortsByKey
    (sort : (ModuleContainer -> ModuleContainer -> bool) ->
            list ModuleContainer -> list ModuleContainer) : Prop :=
  ∀ (key : ModuleContainer -> nat) (l : list ModuleContainer),
    sort (λ a b, key a <? key b) l ≡ₚ l ∧
    ∀ i j a b, sort (λ a b, key a <? key b) l !! i = Some a →
               sort (λ a b, key a <? key b) l !! j = Some b →
               i < j → key a ≤ key b.

(** The invariant of the helper: visited names are marked, marked names are
    identifiers, [sorted] lists the visited names once each, and every
    dependency of a visited name is visited and comes before it. *)
Definition sortInv (containers : list ModuleContainer) (s : SortState) : Prop :=
  sortVisited s ⊆ sortTmpVisited s ∧
  sortTmpVisited s ⊆ moduleIdentifiers containers ∧
  (∀ x, x ∈ sortSorted s ↔ x ∈ sortVisited s) ∧
  NoDup (sortSorted s) ∧
  ∀ n d, n ∈ sortVisited s → firstDependsOn containers n d →
         d ∈ sortVisited s ∧ indexOf (sortSorted s) d < indexOf (sortSorted s) n.

(** A name that is marked and not visited: it is being handled. *)
Definition sortOpen (s : SortState) (g : string) : Prop :=
  g ∈ sortTmpVisited s ∧ g ∉ sortVisited s.

Definition sortGrows (s s' : SortState) : Prop :=
  sortVisited s ⊆ sortVisited s' ∧
  sortTmpVisited s ⊆ sortTmpVisited s' ∧
  (∀ g, sortOpen s' g ↔ sortOpen s g) ∧
  ∃ L, sortSorted s' = sortSorted s ++ L.

(** Why the helper, called for [lname] in state [s], throws [e]. *)
Definition sortThrows (containers : list ModuleContainer) (s : SortState)
    (lname : string) (e : Exception) : Prop :=
  (∃ d, e = MissingModuleDependency d ∧ (d ∉ moduleIdentifiers containers) ∧
        rtc (firstDependsOn containers) lname d) ∨
  (e = NotADag ∧
   ∃ g, rtc (firstDependsOn containers) lname g ∧
        (sortOpen s g ∨ tc (firstDependsOn containers) g g)).

(** What the helper, called for each of [names] in turn from state [s], ends
    with. *)
Definition sortOutcome (containers : list ModuleContainer) (s : SortState)
    (names : list string) (o : Outcome SortState unit) : Prop :=
  match o with
  | Return _ s' =>
      sortInv containers s' ∧ (∀ d, d ∈ names → d ∈ sortVisited s') ∧ sortGrows s s'
  | Throw e _ => ∃ d, d ∈ names ∧ sortThrows containers s d e
  | Fault | OutOfFuel => False
  end.

(** Every name of [l] comes after the modules that depend on it, directly or
    through a chain of dependencies; [seen] are the names before [l]. *)
Fixpoint dependentsFirst (modules : list ModuleContainer) (seen : gset string)
    (l : list string) : Prop :=
  match l with
  | [] => True
  | x :: l' => (∀ y, tc (moduleDependsOn modules) y x → y ∈ seen) ∧
               dependentsFirst modules (seen ∪ {[x]}) l'
  end.

(** The module [n] is one of [names] or depends on one of them, directly or
    through a chain of dependencies. *)
Definition namedOrDependent (modules : list ModuleContainer) (names : list string)
    (n : string) : Prop :=
  ∃ m, m ∈ names ∧ (n = m ∨ tc (moduleDependsOn modules) n m).

(** What [findDependentModules] is to return for [moduleId]: the modules
    that depend on it, each once, a module after the ones that depend on
    it. *)
Definition dependentsOf (modules : list ModuleContainer) (moduleId : string)
    (result : list string) : Prop :=
  (∀ n, n ∈ result ↔ tc (moduleDependsOn modules) n moduleId) ∧
  NoDup result ∧
  dependentsFirst modules ∅ result.

(** * Example networks, stores and applications *)

(** Three processors in a feedback loop: 0 and 1 feed each other, 1 feeds the
    sink 2, and processor 1 reports its inport connection from 0 inactive. *)
Definition feedbackClass : ProcessorClass :=
  {| getInports := λ p, [mkInport p 0];
     getOutports := λ p, [mkOutport p 0];
     isSink := λ p, bool_decide (p = 2);
     isConnectionActive := λ p _ from, negb (bool_decide (p = 1 ∧ outportProcessor from = 0));
     canConnectTo := λ _ _, true;
     isSelected := λ _, false |}.

Definition feedbackNetwork : ProcessorNetwork :=
  {| getProcessors := [0; 1; 2];
     getConnections := [ mkConnection (mkOutport 0 0) (mkInport 1 0);
                         mkConnection (mkOutport 1 0) (mkInport 0 0);
                         mkConnection (mkOutport 1 0) (mkInport 2 0) ];
     getLinks := []; getVersion := 20 |}.

(** A chain 0 -> 1 -> 2 with sink 2, and an unconnected processor 3 that is
    not a sink. *)
Definition chainNetwork : ProcessorNetwork :=
  {| getProcessors := [3; 2; 1; 0];
     getConnections := [ mkConnection (mkOutport 1 0) (mkInport 2 0);
                         mkConnection (mkOutport 0 0) (mkInport 1 0) ];
     getLinks := []; getVersion := 20 |}.

Definition exampleProperty (id : string) (kind : PropertyKind) (v : Z) : Property :=
  mkProperty id "org.inviwo.IntProperty" v kind SerializeDefault None true.

(** An owner at address 0 with the properties "a" (address 1) and "b"
    (address 2, owned); a further property "a" at address 3 and a property
    "c" at address 4 belong to no owner. *)
Definition exampleHeap : Heap :=
  mkHeap (<[1 := mkProperty "a" "org.inviwo.IntProperty" 10 PlainProperty
                            SerializeDefault (Some 0) true]>
          (<[2 := mkProperty "b" "org.inviwo.IntProperty" 20 EventProperty
                             SerializeAll (Some 0) false]>
          (<[3 := exampleProperty "a" PlainProperty 30]>
          (<[4 := exampleProperty "c" CompositeProperty 40]> ∅))))
         (<[0 := mkPropertyOwner [1; 2] [2] [] [2] InvalidOutput [7]]>
          (<[4 := mkPropertyOwner [] [] [] [] Valid []]> ∅))
         [].

(** An owner at 0 that owns the property "x" (address 1) and the composite
    property "group" (address 2), which owns "y" (address 3); observer 7
    watches the owner. *)
Definition copyHeap : Heap :=
  mkHeap (<[1 := mkProperty "x" "org.inviwo.IntProperty" 10 PlainProperty
                            SerializeAll (Some 0) true]>
          (<[2 := mkProperty "group" "org.inviwo.CompositeProperty" 0 CompositeProperty
                             SerializeAll (Some 0) false]>
          (<[3 := mkProperty "y" "org.inviwo.IntProperty" 30 PlainProperty
                             SerializeAll (Some 2) false]> ∅)))
         (<[0 := mkPropertyOwner [1; 2] [] [2] [1; 2] InvalidOutput [7]]>
          (<[2 := mkPropertyOwner [3] [] [] [3] Valid []]> ∅))
         [].

(** Processor 0 is selected and processor 1 is not; processor 0 sends its
    output to processor 1. *)
Definition selectionClass : ProcessorClass :=
  {| getInports := λ p, [mkInport p 0];
     getOutports := λ p, [mkOutport p 0];
     isSink := λ p, bool_decide (p = 1);
     isConnectionActive := λ _ _ _, true;
     canConnectTo := λ _ _, true;
     isSelected := λ p, bool_decide (p = 0) |}.

Definition noLinks : PropertyClass :=
  {| getOwnerProcessor := λ _, None; getPath := λ _, EmptyString |}.

Definition outgoingNetwork : ProcessorNetwork :=
  {| getProcessors := [0; 1];
     getConnections := [mkConnection (mkOutport 0 0) (mkInport 1 0)];
     getLinks := []; getVersion := 20 |}.

(** Sources 0 and 1 feed the two inports of processor 2 ("A"), which feeds
    the sink 3; processor 4 ("B") has one inport and one outport.  "A" has
    the properties "x" (address 10) and "y" (address 11), "B" has "x"
    (address 20, same class) and "y" (address 21, another class); the sink
    has the property "p" (address 30), to which "A.x" is linked. *)
Definition replaceClass : ProcessorClass :=
  {| getInports := λ p, if decide (p = 2) then [mkInport 2 0; mkInport 2 1]
                        else if decide (p = 3 ∨ p = 4) then [mkInport p 0] else [];
     getOutports := λ p, if decide (p = 3) then [] else [mkOutport p 0];
     isSink := λ p, bool_decide (p = 3);
     isConnectionActive := λ _ _ _, true;
     canConnectTo := λ _ _, true;
     isSelected := λ _, false |}.

Definition replaceProperties : PropertyClass :=
  {| getOwnerProcessor := λ a, if decide (a = 10 ∨ a = 11) then Some 2
                               else if decide (a = 20 ∨ a = 21) then Some 4
                               else if decide (a = 30) then Some 3 else None;
     getPath := λ a, if decide (a = 10) then "A.x" else if decide (a = 11) then "A.y"
                     else if decide (a = 20) then "B.x" else if decide (a = 21) then "B.y"
                     else "Sink.p" |}.

Definition replaceWorld : World :=
  mkWorld
    (mkHeap (<[10 := mkProperty "x" "org.inviwo.IntProperty" 42 PlainProperty
                                SerializeDefault (Some 2) true]>
             (<[11 := mkProperty "y" "org.inviwo.FloatProperty" 7 PlainProperty
                                 SerializeDefault (Some 2) false]>
             (<[20 := mkProperty "x" "org.inviwo.IntProperty" 0 PlainProperty
                                 SerializeDefault (Some 4) false]>
             (<[21 := mkProperty "y" "org.inviwo.IntProperty" 5 PlainProperty
                                 SerializeDefault (Some 4) false]>
             (<[30 := mkProperty "p" "org.inviwo.IntProperty" 1 PlainProperty
                                 SerializeDefault (Some 3) false]> ∅)))))
            (<[2 := mkPropertyOwner [10; 11] [] [] [] Valid []]>
             (<[4 := mkPropertyOwner [20; 21] [] [] [] Valid []]>
             (<[3 := mkPropertyOwner [30] [] [] [] Valid []]> ∅)))
            [])
    {| getProcessors := [0; 1; 2; 3; 4];
       getConnections := [mkConnection (mkOutport 0 0) (mkInport 2 0);
                          mkConnection (mkOutport 1 0) (mkInport 2 1);
                          mkConnection (mkOutport 2 0) (mkInport 3 0)];
       getLinks := [mkLink 10 30];
       getVersion := 20 |}
    (<[0 := "Source"]> (<[1 := "Source2"]> (<[2 := "A"]> (<[3 := "Sink"]> (<[4 := "B"]> ∅)))))
    ∅.

(** Two modules, the second depending on the first, and a network with
    one processor; saving the workspace fails. *)
Definition reloadApplication : Application :=
  mkApplication
    [ mkModuleContainer "base" "Base" [] false false (Some 1) true;
      mkModuleContainer "basegl" "BaseGL" ["base"] false false (Some 2) true ]
    (mkNetwork [0] [] [] 20) true [] [].

Definition failingSave : St Application string :=
  λ app, Throw (SerializationException "stream error") app.

Definition workingSave : St Application string :=
  λ app, Return "<ProcessorNetwork/>" app.

(** The world of [replaceWorld] before processor 4 ("B") is added to the
    network; processor 2 ("A") sits at position (100, 50). *)
Definition replaceWorldNew : World :=
  mkWorld (heap replaceWorld)
          (mkNetwork [0; 1; 2; 3] (getConnections (network replaceWorld))
                     (getLinks (network replaceWorld)) 20)
          (processorIdentifier replaceWorld)
          (<[2 := (100, 50)%Z]> ∅).

(** Processor [p] at position (100 p, 50 - 20 p). *)
Definition examplePosition (p : ProcessorPtr) : ivec2 :=
  (Z.of_nat p * 100, 50 - Z.of_nat p * 20)%Z.

(** Two modules that depend on each other, and the module one of them
    depends on. *)
Definition cyclicContainers : list ModuleContainer :=
  [ mkModuleContainer "base" "Base" [] false false None false;
    mkModuleContainer "plotting" "Plotting" ["base"; "plottinggl"] false false None false;
    mkModuleContainer "plottinggl" "PlottingGL" ["plotting"] false false None false ].

(** A sort for the examples: stdpp's merge sort, by the comparison given. *)
Definition mergeSort (less : ModuleContainer -> ModuleContainer -> bool)
    (l : list ModuleContainer) : list ModuleContainer :=
  @merge_sort _ (λ a b, less b a = false) (λ a b, decide (less b a = false)) l.

(** Three modules, each listed before the one it depends on. *)
Definition exampleContainers : list ModuleContainer :=
  [ mkModuleContainer "vectorfield" "VectorField" ["basegl"; "base"] false false None false;
    mkModuleContainer "basegl" "BaseGL" ["base"] false false None false;
    mkModuleContainer "base" "Base" [] false false None false ].

(** A module whose dependency is not there. *)
Definition incompleteContainers : list ModuleContainer :=
  [ mkModuleContainer "base" "Base" [] false false None false;
    mkModuleContainer "python3" "Python3" ["base"; "opengl"] false false None false ].

(** * Properties *)

(** ** Depth-first traversal and topological order *)

Ltac list_assoc := repeat (rewrite <- ?app_assoc; simpl); try done.

Lemma precedes_app_l l1 l2 r q : precedes l1 r q → precedes (l1 ++ l2) r q.
Proof.
  intros (a & b & c & ->). exists a, b, (c ++ l2). list_assoc.
Qed.

Lemma precedes_app_r l1 l2 r q : precedes l2 r q → precedes (l1 ++ l2) r q.
Proof.
  intros (a & b & c & ->). exists (l1 ++ a), b, c. list_assoc.
Qed.

Lemma precedes_app_lr l1 l2 r q : r ∈ l1 → q ∈ l2 → precedes (l1 ++ l2) r q.
Proof.
  intros (a & b & ->)%list_elem_of_split (c & d & ->)%list_elem_of_split.
  exists a, (b ++ c), d. list_assoc.
Qed.

Lemma precedes_elem_of l r q : precedes l r q → r ∈ l ∧ q ∈ l.
Proof. intros (a & b & c & ->). set_solver. Qed.

Lemma precedes_trans l a b c :
  NoDup l → precedes l a b → precedes l b c → precedes l a c.
Proof.
  intros Hnd (l1 & l2 & l3 & H1) (m1 & m2 & m3 & H2).
  assert (Heq : (l1 ++ a :: l2) ++ b :: l3 = m1 ++ b :: (m2 ++ c :: m3)).
  { rewrite <- H2, H1. list_assoc. }
  assert (Hnd' : NoDup ((l1 ++ a :: l2) ++ b :: l3)).
  { rewrite H1 in Hnd. revert Hnd. list_assoc. }
  apply not_elem_of_app_cons_inv_l in Heq as (<- & _ & _).
  - exists l1, (l2 ++ b :: m2), m3. rewrite H2. list_assoc.
  - rewrite Heq in Hnd'. apply NoDup_app in Hnd' as (_ & Hd & _).
    intros Hin. apply (Hd b Hin). apply list_elem_of_here.
  - apply NoDup_app in Hnd' as (_ & Hd & _).
    intros Hin. apply (Hd b Hin). apply list_elem_of_here.
Qed.

Lemma precedes_irrefl l a : NoDup l → ¬ precedes l a a.
Proof.
  intros Hnd (l1 & l2 & l3 & ->).
  apply NoDup_app in Hnd as (_ & _ & Hnd).
  apply NoDup_cons in Hnd as (Hn & _).
  apply Hn, elem_of_app. right. apply list_elem_of_here.
Qed.

Section TraversalFacts.

Variable iterate : gset ProcessorPtr -> list ProcessorPtr.
Hypothesis iterate_spec : ∀ s x, x ∈ iterate s ↔ x ∈ s.
Variable cls : ProcessorClass.
Variable filter : ProcessorPtr -> Inport -> Outport -> bool.
Variable net : ProcessorNetwork.

Local Abbreviation E := (feeds cls filter net).
Local Abbreviation visit := (traverseNetwork iterate cls Up Post filter push_back net).
Local Abbreviation traversed := (Traversed cls filter net).

Lemma elem_of_getDirectPredecessorsFiltered r q :
  r ∈ getDirectPredecessorsFiltered cls filter net q ↔ E r q.
Proof.
  unfold getDirectPredecessorsFiltered, feeds.
  assert (Hin : ∀ port outs (acc : gset ProcessorPtr),
    r ∈ foldl (λ predecessors connectedPort,
                 if filter q port connectedPort
                 then {[outportProcessor connectedPort]} ∪ predecessors
                 else predecessors) acc outs
    ↔ r ∈ acc ∨ ∃ o, o ∈ outs ∧ filter q port o = true ∧ outportProcessor o = r).
  { intros port outs. induction outs as [|o outs IH]; intros acc; simpl.
    - split; [by left | intros [?|(o & Ho & _)]; [done | by apply elem_of_nil in Ho]].
    - rewrite IH. split.
      + intros [Hacc | (o' & Ho' & Hf & Hr)].
        * destruct (filter q port o) eqn:Hf.
          -- apply elem_of_union in Hacc as [->%elem_of_singleton | Hacc]; [|by left].
             right. exists o. split; [apply list_elem_of_here | done].
          -- by left.
        * right. exists o'. split; [by apply list_elem_of_further | done].
      + intros [Hacc | (o' & Ho' & Hf & Hr)].
        * left. destruct (filter q port o); [apply elem_of_union; by right | done].
        * apply elem_of_cons in Ho' as [-> | Ho'].
          -- left. rewrite Hf. apply elem_of_union. left. by apply elem_of_singleton.
          -- right. by exists o'. }
  generalize (getInports cls q) as ports.
  assert (Hout : ∀ ports (acc : gset ProcessorPtr),
    r ∈ foldl (λ predecessors port,
                 foldl (λ predecessors connectedPort,
                          if filter q port connectedPort
                          then {[outportProcessor connectedPort]} ∪ predecessors
                          else predecessors)
                       predecessors (getConnectedOutports net port)) acc ports
    ↔ r ∈ acc ∨ ∃ c, c ∈ getConnections net ∧ getInport c ∈ ports ∧
                     filter q (getInport c) (getOutport c) = true ∧
                     outportProcessor (getOutport c) = r).
  { intros ports. induction ports as [|port ports IH]; intros acc; simpl.
    - split; [by left | intros [?|(c & _ & Hc & _)]; [done | by apply elem_of_nil in Hc]].
    - rewrite IH, Hin. unfold getConnectedOutports. split.
      + intros [[Hacc | (o & Ho & Hf & Hr)] | (c & Hc & Hp & Hf & Hr)].
        * by left.
        * apply list_elem_of_fmap in Ho as (c & -> & Hc).
          apply list_elem_of_filter in Hc as (Hp & Hc).
          right. exists c. rewrite Hp. split_and!; [done | apply list_elem_of_here | done..].
        * right. exists c. split_and!; [done | by apply list_elem_of_further | done..].
      + intros [Hacc | (c & Hc & Hp & Hf & Hr)]; [by left; left |].
        apply elem_of_cons in Hp as [Hp | Hp].
        * left; right. exists (getOutport c). rewrite <- Hp. split_and!; [|done..].
          apply list_elem_of_fmap. exists c. split; [done |].
          by apply list_elem_of_filter.
        * right. by exists c. }
  intros ports. rewrite Hout. split; [intros [H|H]; [by apply not_elem_of_empty in H | done] | by right].
Qed.

Lemma Traversed_nil S acc : traversed [] S acc S acc.
Proof.
  exists []. split_and!.
  - by rewrite app_nil_r.
  - set_solver.
  - constructor.
  - intros q Hq. by apply elem_of_nil in Hq.
  - intros q Hq. by apply elem_of_nil in Hq.
  - intros q Hq. by apply elem_of_nil in Hq.
  - intros q r Hq. by apply elem_of_nil in Hq.
Qed.

Lemma Traversed_visited p S acc : p ∈ S → traversed [p] S acc S acc.
Proof.
  intros Hp. exists []. split_and!.
  - by rewrite app_nil_r.
  - set_solver.
  - constructor.
  - intros q Hq. by apply elem_of_nil in Hq.
  - intros c ->%list_elem_of_singleton. done.
  - intros q Hq. by apply elem_of_nil in Hq.
  - intros q r Hq. by apply elem_of_nil in Hq.
Qed.

Lemma Traversed_cons p ps S acc S1 acc1 S2 acc2 :
  traversed [p] S acc S1 acc1 → traversed ps S1 acc1 S2 acc2 →
  traversed (p :: ps) S acc S2 acc2.
Proof.
  intros (L1 & -> & -> & Hnd1 & Hfr1 & Hin1 & Hre1 & Hor1)
         (L2 & -> & -> & Hnd2 & Hfr2 & Hin2 & Hre2 & Hor2).
  exists (L1 ++ L2). split_and!.
  - by rewrite app_assoc.
  - rewrite list_to_set_app_L. set_solver.
  - apply NoDup_app. split_and!; [done | | done].
    intros x Hx1 Hx2. apply (Hfr2 x Hx2). set_solver.
  - intros q [Hq|Hq]%elem_of_app; [by apply Hfr1 |].
    intros HS. apply (Hfr2 q Hq). set_solver.
  - intros c [->|Hc]%elem_of_cons; [| by apply Hin2].
    assert (p ∈ S ∪ list_to_set L1) by (apply Hin1, list_elem_of_here).
    set_solver.
  - intros q [Hq|Hq]%elem_of_app.
    + destruct (Hre1 q Hq) as (c & ->%list_elem_of_singleton & Hc).
      exists p. split; [apply list_elem_of_here | done].
    + destruct (Hre2 q Hq) as (c & Hc & Hr).
      exists c. split; [by apply list_elem_of_further | done].
  - intros q r [Hq|Hq]%elem_of_app Hrq.
    + destruct (Hor1 q r Hq Hrq) as (HrS & Hcase). split; [set_solver |].
      destruct Hcase as [? | [? | ?]]; [by left | | by right; right].
      right; left. by apply precedes_app_l.
    + destruct (Hor2 q r Hq Hrq) as (HrS & Hcase). split; [done |].
      destruct Hcase as [HrS1 | [? | ?]]; [ | | by right; right].
      * apply elem_of_union in HrS1 as [? | HrL1]; [by left |].
        right; left. apply precedes_app_lr; [|done].
        by apply elem_of_list_to_set in HrL1.
      * right; left. by apply precedes_app_r.
Qed.

Lemma Traversed_root p S acc S2 acc2 :
  p ∉ S →
  traversed (iterate (getDirectPredecessorsFiltered cls filter net p))
            ({[p]} ∪ S) acc S2 acc2 →
  traversed [p] S acc S2 (push_back acc2 p).
Proof.
  intros Hp (L & -> & -> & Hnd & Hfr & Hin & Hre & Hor).
  assert (HpL : p ∉ L) by (intros HpL; apply (Hfr p HpL); set_solver).
  assert (Hup : ∀ q, q ∈ L → tc E q p).
  { intros q Hq. destruct (Hre q Hq) as (c & Hc & Hr).
    apply iterate_spec, elem_of_getDirectPredecessorsFiltered in Hc.
    eapply tc_rtc_l; [exact Hr | by apply tc_once]. }
  exists (L ++ [p]). unfold push_back. split_and!.
  - by rewrite app_assoc.
  - rewrite list_to_set_app_L. set_solver.
  - apply NoDup_app. split_and!; [done | | apply NoDup_singleton].
    intros x Hx ->%list_elem_of_singleton. done.
  - intros q [Hq | ->%list_elem_of_singleton]%elem_of_app; [|done].
    intros HqS. apply (Hfr q Hq). set_solver.
  - intros c ->%list_elem_of_singleton. set_solver.
  - intros q Hq. exists p. split; [apply list_elem_of_here |].
    apply elem_of_app in Hq as [Hq | ->%list_elem_of_singleton]; [|done].
    by apply tc_rtc, Hup.
  - intros q r [Hq | ->%list_elem_of_singleton]%elem_of_app Hrq.
    + destruct (Hor q r Hq Hrq) as (HrS & Hcase). split; [done |].
      destruct Hcase as [HrS1 | [? | ?]]; [ | | by right; right].
      * apply elem_of_union in HrS1 as [->%elem_of_singleton | ?]; [|by left].
        right; right. eapply tc_r; [by apply Hup | exact Hrq].
      * right; left. by apply precedes_app_l.
    + assert (Hr : r ∈ {[p]} ∪ S ∪ list_to_set L).
      { apply Hin, iterate_spec. by apply elem_of_getDirectPredecessorsFiltered. }
      split; [done |].
      apply elem_of_union in Hr as [[->%elem_of_singleton | ?]%elem_of_union | HrL].
      * right; right. by apply tc_once.
      * by left.
      * right; left. apply precedes_app_lr; [|apply list_elem_of_here].
        by apply elem_of_list_to_set in HrL.
Qed.

Lemma traverseEach_sound
    (v : gset ProcessorPtr -> list ProcessorPtr -> ProcessorPtr ->
         option (gset ProcessorPtr * list ProcessorPtr)) :
  (∀ S acc p S' acc', v S acc p = Some (S', acc') → traversed [p] S acc S' acc') →
  ∀ ps S acc S' acc',
    traverseEach v ps S acc = Some (S', acc') → traversed ps S acc S' acc'.
Proof.
  intros Hv ps. induction ps as [|p ps IH]; intros S acc S' acc' Hrun; simpl in Hrun.
  - inversion Hrun; subst. apply Traversed_nil.
  - destruct (v S acc p) as [[S1 acc1]|] eqn:Hp; [|done].
    eapply Traversed_cons; [by apply Hv | by apply IH].
Qed.

Lemma traverseNetwork_sound fuel :
  ∀ S acc p S' acc',
    visit fuel S acc p = Some (S', acc') → traversed [p] S acc S' acc'.
Proof.
  induction fuel as [|fuel IH]; intros S acc p S' acc' Hrun; simpl in Hrun.
  - destruct (decide (p ∈ S)); [|done].
    inversion Hrun; subst. by apply Traversed_visited.
  - destruct (decide (p ∈ S)) as [Hp|Hp].
    { inversion Hrun; subst. by apply Traversed_visited. }
    destruct (traverseEach _ _ _ _) as [[S2 acc2]|] eqn:Heach; [|done].
    inversion Hrun; subst.
    apply Traversed_root; [done |].
    by apply (traverseEach_sound _ IH).
Qed.

Lemma Traversed_grows ps S acc S' acc' : traversed ps S acc S' acc' → S ⊆ S'.
Proof. intros (L & _ & -> & _). set_solver. Qed.

Section Totality.

(** A finite set of processors that contains every processor feeding one of
    its members bounds the recursion depth. *)
Variable U : gset ProcessorPtr.
Hypothesis U_closed : ∀ q r, q ∈ U → E r q → r ∈ U.

Lemma traverseEach_total
    (v : gset ProcessorPtr -> list ProcessorPtr -> ProcessorPtr ->
         option (gset ProcessorPtr * list ProcessorPtr)) (n : nat) :
  (∀ S acc p S' acc', v S acc p = Some (S', acc') → traversed [p] S acc S' acc') →
  (∀ S acc p, p ∈ U → size (U ∖ S) < n → is_Some (v S acc p)) →
  ∀ ps S acc, (∀ p, p ∈ ps → p ∈ U) → size (U ∖ S) < n →
              is_Some (traverseEach v ps S acc).
Proof.
  intros Hsound Htotal ps. induction ps as [|p ps IH]; intros S acc HU Hsize; simpl.
  - by eexists.
  - destruct (Htotal S acc p) as [[S1 acc1] Hp]; [apply HU, list_elem_of_here | done |].
    rewrite Hp. apply IH.
    + intros q Hq. by apply HU, list_elem_of_further.
    + apply Hsound, Traversed_grows in Hp.
      eapply Nat.le_lt_trans; [|exact Hsize].
      apply subseteq_size. set_solver.
Qed.

Lemma traverseNetwork_total fuel :
  ∀ S acc p, p ∈ U → size (U ∖ S) < fuel → is_Some (visit fuel S acc p).
Proof.
  induction fuel as [|fuel IH]; intros S acc p HpU Hsize; simpl.
  - lia.
  - destruct (decide (p ∈ S)) as [Hp|Hp]; [by eexists |].
    assert (Hlt : size (U ∖ ({[p]} ∪ S)) < size (U ∖ S)).
    { apply subset_size. set_solver. }
    destruct (traverseEach_total
                (visit fuel) fuel (traverseNetwork_sound fuel) IH
                (iterate (getDirectPredecessorsFiltered cls filter net p))
                ({[p]} ∪ S) acc) as [[S2 acc2] Heach].
    + intros q Hq. apply (U_closed p q HpU).
      by apply elem_of_getDirectPredecessorsFiltered, iterate_spec.
    + lia.
    + rewrite Heach. by eexists.
Qed.

End Totality.

Lemma size_list_to_set_le (l : list ProcessorPtr) :
  size (list_to_set l : gset ProcessorPtr) ≤ length l.
Proof.
  induction l as [|x l IH]; simpl.
  - change (size (∅ : gset ProcessorPtr) ≤ 0). by rewrite size_empty.
  - change (size ({[x]} ∪ list_to_set l : gset ProcessorPtr) ≤ S (length l)).
    rewrite size_union_alt, size_singleton.
    assert (size (list_to_set l ∖ {[x]} : gset ProcessorPtr) ≤ size (list_to_set l : gset ProcessorPtr))
      by (apply subseteq_size; set_solver).
    lia.
Qed.

(** The body shared by [topologicalSort] and [topologicalSortFiltered]. *)
Lemma sortFromSinks_spec fuel :
  length (getProcessors net) + length (getConnections net) < fuel →
  ∃ sorted,
    snd <$> traverseEach (visit fuel)
              (List.filter (isSink cls) (getProcessors net)) ∅ [] = Some sorted ∧
    NoDup sorted ∧
    (∀ p, p ∈ sorted ↔
          ∃ s, s ∈ getProcessors net ∧ isSink cls s = true ∧ rtc E p s) ∧
    (∀ q r, q ∈ sorted → E r q → r ∈ sorted ∧ (precedes sorted r q ∨ tc E q q)).
Proof.
  intros Hfuel.
  set (U := (list_to_set (getProcessors net) ∪
             list_to_set ((outportProcessor ∘ getOutport) <$> getConnections net))
            : gset ProcessorPtr).
  assert (HU : ∀ q r, q ∈ U → E r q → r ∈ U).
  { intros q r _ (c & Hc & _ & _ & <-). apply elem_of_union. right.
    apply elem_of_list_to_set, list_elem_of_fmap. by exists c. }
  assert (Hsize : size (U ∖ ∅) < fuel).
  { eapply Nat.le_lt_trans; [|exact Hfuel].
    etrans; [apply (subseteq_size _ U); set_solver |].
    unfold U. rewrite size_union_alt.
    etrans; [apply Nat.add_le_mono; [apply size_list_to_set_le |
                                      apply subseteq_size, subseteq_difference_l; reflexivity] |].
    etrans; [apply Nat.add_le_mono_l, size_list_to_set_le |].
    by rewrite length_fmap. }
  assert (Hsinks : ∀ s, s ∈ List.filter (isSink cls) (getProcessors net) ↔
                        s ∈ getProcessors net ∧ isSink cls s = true).
  { intros s. by rewrite !list_elem_of_In, filter_In. }
  destruct (traverseEach_total U HU (visit fuel) fuel
              (traverseNetwork_sound fuel) (traverseNetwork_total U HU fuel)
              (List.filter (isSink cls) (getProcessors net)) ∅ [])
    as [[S' sorted] Hrun].
  { intros s [Hs _]%Hsinks. apply elem_of_union. left. by apply elem_of_list_to_set. }
  { done. }
  exists sorted. rewrite Hrun. split; [done |].
  apply (traverseEach_sound _ (traverseNetwork_sound fuel)) in Hrun
    as (L & HL & -> & Hnd & _ & Hin & Hre & Hor).
  simpl in HL. subst L.
  assert (Hmem : ∀ x, x ∈ (∅ ∪ list_to_set sorted : gset ProcessorPtr) ↔ x ∈ sorted).
  { intros x. rewrite elem_of_union, elem_of_list_to_set. set_solver. }
  assert (Hclosed : ∀ q r, q ∈ sorted → E r q → r ∈ sorted).
  { intros q r Hq Hrq. by apply Hmem, (Hor q r Hq Hrq). }
  split_and!.
  - done.
  - intros p. split.
    + intros Hp. destruct (Hre p Hp) as (s & [Hs Hsink]%Hsinks & Hr). by exists s.
    + intros (s & Hs & Hsink & Hr).
      assert (Hs' : s ∈ sorted) by (apply Hmem, Hin, Hsinks; done).
      clear Hs Hsink. induction Hr as [|p m s Hpm _ IH]; [done |].
      eapply Hclosed; [by apply IH | done].
  - intros q r Hq Hrq. destruct (Hor q r Hq Hrq) as (Hr & Hcase).
    split; [by apply Hmem |].
    destruct Hcase as [Hempty | [? | ?]]; [by apply not_elem_of_empty in Hempty | by left | by right].
Qed.

(** Without a cycle the output is a topological order of the connections
    the traversal follows. *)
Lemma sortFromSinks_respects sorted :
  Acyclic E → NoDup sorted →
  (∀ q r, q ∈ sorted → E r q → r ∈ sorted ∧ (precedes sorted r q ∨ tc E q q)) →
  respectsDependencies E sorted.
Proof.
  intros Hacyclic Hnd Hor q r Hq _ Hrq. revert Hq.
  induction Hrq as [r q Hrq | r m q Hrm _ IH]; intros Hq.
  - destruct (Hor q r Hq Hrq) as (_ & [? | Hcyc]); [done | by apply Hacyclic in Hcyc].
  - specialize (IH Hq).
    destruct (precedes_elem_of _ _ _ IH) as [Hm _].
    destruct (Hor m r Hm Hrm) as (_ & [Hpre | Hcyc]); [| by apply Hacyclic in Hcyc].
    by eapply precedes_trans.
Qed.

End TraversalFacts.

(** The unfiltered predecessors are the filtered ones under the default
    filter. *)
Lemma getDirectPredecessors_default cls net processor :
  getDirectPredecessors cls net processor =
  getDirectPredecessorsFiltered cls DefaultTraversalFilter net processor.
Proof. reflexivity. Qed.

Lemma getDirectSuccessors_default cls net processor :
  getDirectSuccessors cls net processor =
  getDirectSuccessorsFiltered cls DefaultTraversalFilter net processor.
Proof. reflexivity. Qed.

Lemma Acyclic_rank (dep : relation ProcessorPtr) (rank : ProcessorPtr -> nat) :
  (∀ r q, dep r q → rank r < rank q) → Acyclic dep.
Proof.
  intros Hrank p Hp.
  assert (Hlt : ∀ r q, tc dep r q → rank r < rank q).
  { intros r q H. induction H as [r q H | r m q H _ IH].
    - by apply Hrank.
    - apply Hrank in H. lia. }
  apply Hlt in Hp. lia.
Qed.

Lemma feeds_default_of_active cls net r q :
  feeds cls (isConnectionActive cls) net r q → feeds cls DefaultTraversalFilter net r q.
Proof. intros (c & Hc & Hin & _ & Hr). by exists c. Qed.

Ltac feeds_cases H :=
  let c := fresh "c" in
  destruct H as (c & Hc & Hin & Hf & Hr); simpl in Hc;
  repeat (apply elem_of_cons in Hc as [-> | Hc]);
  [.. | by apply elem_of_nil in Hc];
  simpl in Hin, Hf, Hr; apply list_elem_of_singleton in Hin;
  inversion Hin; subst; try done.

Lemma feedbackNetwork_active_acyclic :
  Acyclic (feeds feedbackClass (isConnectionActive feedbackClass) feedbackNetwork).
Proof.
  apply (Acyclic_rank _ (λ p, if decide (p = 1) then 0 else 1)).
  intros r q H. feeds_cases H; simpl; lia.
Qed.

Lemma chainNetwork_acyclic filter :
  Acyclic (feeds feedbackClass filter chainNetwork).
Proof.
  apply (Acyclic_rank _ (λ p, p)).
  intros r q H. feeds_cases H; simpl; lia.
Qed.

(** C1, as stated, fails for the unfiltered sort: in [feedbackNetwork] the
    active connections are acyclic, yet [topologicalSort] places processor 0
    before processor 1, on which 0 depends through an active connection. *)
Lemma topologicalSort_active_order_counterexample :
  Acyclic (feeds feedbackClass (isConnectionActive feedbackClass) feedbackNetwork) ∧
  topologicalSort elements feedbackClass 4 feedbackNetwork = Some [0; 1; 2] ∧
  ¬ respectsDependencies
      (feeds feedbackClass (isConnectionActive feedbackClass) feedbackNetwork) [0; 1; 2].
Proof.
  split; [exact feedbackNetwork_active_acyclic |].
  split; [by vm_compute |].
  intros Hresp.
  assert (Hnd : NoDup [0; 1; 2]) by (by apply (bool_decide_unpack (NoDup [0; 1; 2]))).
  assert (H10 : precedes [0; 1; 2] 1 0).
  { apply Hresp; [set_solver | set_solver |].
    apply tc_once. exists (mkConnection (mkOutport 1 0) (mkInport 0 0)).
    split_and!; [set_solver | set_solver | done | done]. }
  assert (H01 : precedes [0; 1; 2] 0 1) by (by exists [], [], [2]).
  by apply (precedes_irrefl [0; 1; 2] 0 Hnd), (precedes_trans _ 0 1 0).
Qed.

(** C1 (amended): [topologicalSortFiltered] returns a list in which every
    processor comes after all of its transitive active-connection
    dependencies whenever the active connections are acyclic;
    [topologicalSort], which follows every connection, does so whenever the
    whole connection graph is acyclic, and then respects the
    active-connection dependencies as well. *)
Theorem topologicalSort_respects_dependencies
    (iterate : gset ProcessorPtr -> list ProcessorPtr)
    (cls : ProcessorClass) (net : ProcessorNetwork) (fuel : nat) :
  (∀ s x, x ∈ iterate s ↔ x ∈ s) →
  length (getProcessors net) + length (getConnections net) < fuel →
  (Acyclic (feeds cls (isConnectionActive cls) net) →
   ∃ sorted, topologicalSortFiltered iterate cls fuel net = Some sorted ∧
             NoDup sorted ∧
             respectsDependencies (feeds cls (isConnectionActive cls) net) sorted) ∧
  (Acyclic (feeds cls DefaultTraversalFilter net) →
   ∃ sorted, topologicalSort iterate cls fuel net = Some sorted ∧
             NoDup sorted ∧
             respectsDependencies (feeds cls DefaultTraversalFilter net) sorted ∧
             respectsDependencies (feeds cls (isConnectionActive cls) net) sorted).
Proof.
  intros Hiter Hfuel. split; intros Hacyclic.
  - destruct (sortFromSinks_spec iterate Hiter cls (isConnectionActive cls) net fuel Hfuel)
      as (sorted & Hrun & Hnd & _ & Hor).
    exists sorted. split_and!; [done | done |].
    by apply sortFromSinks_respects.
  - destruct (sortFromSinks_spec iterate Hiter cls DefaultTraversalFilter net fuel Hfuel)
      as (sorted & Hrun & Hnd & _ & Hor).
    exists sorted.
    assert (Hall : respectsDependencies (feeds cls DefaultTraversalFilter net) sorted)
      by (by apply sortFromSinks_respects).
    split_and!; [done | done | done |].
    intros q r Hq Hr Hdep. apply Hall; [done | done |].
    apply (tc_congruence (λ x, x) _ r q (feeds_default_of_active cls net) Hdep).
Qed.

Lemma topologicalSort_respects_dependencies_witness :
  (∃ sorted, topologicalSortFiltered elements feedbackClass 7 chainNetwork = Some sorted ∧
             NoDup sorted ∧
             respectsDependencies
               (feeds feedbackClass (isConnectionActive feedbackClass) chainNetwork) sorted) ∧
  (∃ sorted, topologicalSort elements feedbackClass 7 chainNetwork = Some sorted ∧
             NoDup sorted ∧
             respectsDependencies
               (feeds feedbackClass DefaultTraversalFilter chainNetwork) sorted ∧
             respectsDependencies
               (feeds feedbackClass (isConnectionActive feedbackClass) chainNetwork) sorted).
Proof.
  destruct (topologicalSort_respects_dependencies elements feedbackClass chainNetwork 7)
    as [Hfiltered Hall].
  - intros s x. apply elem_of_elements.
  - simpl. lia.
  - split; [apply Hfiltered | apply Hall]; apply chainNetwork_acyclic.
Defined.



Example topologicalSort_chain :
  topologicalSort elements feedbackClass 7 chainNetwork = Some [0; 1; 2].
Proof. by vm_compute. Qed.

Example topologicalSortFiltered_feedback :
  topologicalSortFiltered elements feedbackClass 4 feedbackNetwork = Some [1; 2].
Proof. by vm_compute. Qed.

(** ** Property owners *)

Lemma bind_Return {S A B : Type} (m : St S A) (f : A -> St S B) h a h' :
  m h = Return a h' → (m ≫= f) h = f a h'.
Proof. intros H. unfold mbind, M_bind. by rewrite H. Qed.

Lemma getPropertyOwner_Return h this o :
  owners h !! this = Some o → getPropertyOwner this h = Return o h.
Proof. intros H. unfold getPropertyOwner. by rewrite H. Qed.

Lemma getProperty_Return h p pr :
  properties h !! p = Some pr → getProperty p h = Return pr h.
Proof. intros H. unfold getProperty. by rewrite H. Qed.

Lemma findByIdentifier_spec h ps id :
  allLive h ps →
  ∃ r, findByIdentifier ps id h = Return r h ∧
       match r with
       | Some p => p ∈ ps ∧ ∃ pr, properties h !! p = Some pr ∧ identifier_ pr = id
       | None => ∀ p pr, p ∈ ps → properties h !! p = Some pr → identifier_ pr ≠ id
       end.
Proof.
  induction ps as [|p ps IH]; intros Hlive; simpl.
  - exists None. split; [done |]. intros p pr Hp. by apply elem_of_nil in Hp.
  - destruct (Hlive p) as [pr Hpr]; [apply list_elem_of_here |].
    rewrite (bind_Return _ _ _ _ _ (getProperty_Return _ _ _ Hpr)).
    destruct (decide (identifier_ pr = id)) as [Hid|Hid].
    + exists (Some p). split; [done |]. split; [apply list_elem_of_here | by exists pr].
    + destruct IH as (r & Hr & Hspec).
      { intros q Hq. by apply Hlive, list_elem_of_further. }
      exists r. split; [done |]. destruct r as [q|].
      * destruct Hspec as [Hq Hex]. split; [by apply list_elem_of_further | done].
      * intros q qr [->|Hq]%elem_of_cons Hqr; [congruence | by eapply Hspec].
Qed.

(** C2: when the owner already has a property with the identifier of
    [property], [insertProperty] and [addProperty] throw, and the store at
    the throw is the store of the call: the owner's property list, its
    event and composite indices and its owned properties are unchanged, and
    no notification has been sent. *)
Theorem insertProperty_duplicate_identifier
    (h : Heap) (this : Addr) (index : nat) (property : Addr) (owner : bool)
    (o : PropertyOwner) (pr : Property) (existing : Addr) (ex : Property) :
  owners h !! this = Some o →
  allLive h (properties_ o) →
  properties h !! property = Some pr →
  existing ∈ properties_ o →
  properties h !! existing = Some ex →
  identifier_ ex = identifier_ pr →
  (∃ e, insertProperty this index property owner h = Throw e h) ∧
  (∃ e, addProperty this property owner h = Throw e h).
Proof.
  intros Ho Hlive Hpr Hin Hex Hid.
  assert (Hthrow : ∀ i, ∃ e, insertProperty this i property owner h = Throw e h).
  { intros i. unfold insertProperty.
    rewrite (bind_Return _ _ _ _ _ (getPropertyOwner_Return _ _ _ Ho)).
    rewrite (bind_Return _ _ _ _ _ (getProperty_Return _ _ _ Hpr)).
    destruct (findByIdentifier_spec h (properties_ o) (identifier_ pr) Hlive)
      as ([q|] & Hfind & Hspec).
    - destruct Hspec as (Hq & qr & Hqr & _).
      assert (Hget : getPropertyByIdentifier 0 this (identifier_ pr) false h
                     = Return (Some q) h).
      { simpl. rewrite (bind_Return _ _ _ _ _ (getPropertyOwner_Return _ _ _ Ho)).
        by rewrite (bind_Return _ _ _ _ _ Hfind). }
      rewrite (bind_Return _ _ _ _ _ Hget).
      rewrite (bind_Return _ _ _ _ _ (getProperty_Return _ _ _ Hqr)).
      by eexists.
    - exfalso. by apply (Hspec existing ex). }
  split; [apply Hthrow |].
  unfold addProperty.
  rewrite (bind_Return _ _ _ _ _ (getPropertyOwner_Return _ _ _ Ho)).
  apply Hthrow.
Qed.

Lemma exampleHeap_allLive : allLive exampleHeap [1; 2].
Proof.
  intros p Hp.
  apply elem_of_cons in Hp as [-> | Hp]; [by eexists |].
  apply elem_of_cons in Hp as [-> | Hp]; [by eexists |].
  by apply elem_of_nil in Hp.
Qed.

Lemma insertProperty_duplicate_identifier_witness :
  (∃ e, insertProperty 0 0 3 true exampleHeap = Throw e exampleHeap) ∧
  (∃ e, addProperty 0 3 true exampleHeap = Throw e exampleHeap).
Proof.
  eapply (insertProperty_duplicate_identifier exampleHeap 0 0 3 true _ _ 1).
  - reflexivity.
  - exact exampleHeap_allLive.
  - reflexivity.
  - apply list_elem_of_here.
  - reflexivity.
  - reflexivity.
Defined.

Lemma insertProperty_success h this index property owner o pr :
  owners h !! this = Some o →
  allLive h (properties_ o) →
  properties h !! property = Some pr →
  (∀ q qr, q ∈ properties_ o → properties h !! q = Some qr →
           identifier_ qr ≠ identifier_ pr) →
  this ≠ property →
  insertProperty this index property owner h =
  Return tt (inserted h this (index `min` length (properties_ o)) property owner o pr).
Proof.
  intros Ho Hlive Hpr Hfresh Hne. unfold insertProperty.
  rewrite (bind_Return _ _ _ _ _ (getPropertyOwner_Return _ _ _ Ho)).
  rewrite (bind_Return _ _ _ _ _ (getProperty_Return _ _ _ Hpr)).
  destruct (findByIdentifier_spec h (properties_ o) (identifier_ pr) Hlive)
    as ([q|] & Hfind & Hspec).
  { destruct Hspec as (Hq & qr & Hqr & Hid). by destruct (Hfresh q qr). }
  assert (Hget : getPropertyByIdentifier 0 this (identifier_ pr) false h = Return None h).
  { simpl. rewrite (bind_Return _ _ _ _ _ (getPropertyOwner_Return _ _ _ Ho)).
    by rewrite (bind_Return _ _ _ _ _ Hfind). }
  rewrite (bind_Return _ _ _ _ _ Hget).
  assert (Hidx : (if decide (length (properties_ o) < index)
                  then length (properties_ o) else index)
                 = index `min` length (properties_ o)).
  { destruct (decide _); lia. }
  rewrite Hidx. generalize (index `min` length (properties_ o)) as i. intros i.
  unfold inserted, insertPropertyImpl, setOwner, setSerializationMode, modifyPropertyOwner,
    modifyProperty, notifyObservers, asProperty, getPropertyOwner, getProperty,
    putPropertyOwner, putProperty, throw, mbind, M_bind, mret, M_ret.
  simpl.
  destruct (properties h !! this) eqn:Hthis; simpl.
  - destruct (decide (this = property)); [done |]. simpl.
    rewrite Ho. simpl. rewrite Hpr. simpl. rewrite !lookup_insert_eq. simpl.
    destruct (decide (dynamicType pr = EventProperty)),
             (decide (dynamicType pr = CompositeProperty)), owner; simpl;
      repeat (rewrite lookup_insert_eq; simpl);
      rewrite ?insert_insert_eq, ?app_nil_r, <- ?app_assoc; done.
  - rewrite Ho. simpl. rewrite Hpr. simpl. rewrite !lookup_insert_eq. simpl.
    destruct (decide (dynamicType pr = EventProperty)),
             (decide (dynamicType pr = CompositeProperty)), owner; simpl;
      repeat (rewrite lookup_insert_eq; simpl);
      rewrite ?insert_insert_eq, ?app_nil_r, <- ?app_assoc; done.
Qed.




(** *** Invalidation *)

Lemma validated_refl h : validated h h.
Proof.
  split_and!; [done | |]; intros a.
  - destruct (properties h !! a); constructor. by left.
  - destruct (owners h !! a); constructor. by left.
Qed.

Lemma validated_trans h1 h2 h3 : validated h1 h2 → validated h2 h3 → validated h1 h3.
Proof.
  intros (Hn1 & Hp1 & Ho1) (Hn2 & Hp2 & Ho2). split_and!; [congruence | |]; intros a.
  - specialize (Hp1 a). specialize (Hp2 a).
    destruct Hp1 as [pr pr' H1|]; inversion Hp2 as [? pr'' H2|]; subst; constructor.
    destruct H1 as [->| ->], H2 as [->| ->]; auto.
  - specialize (Ho1 a). specialize (Ho2 a).
    destruct Ho1 as [o o' H1|]; inversion Ho2 as [? o'' H2|]; subst; constructor.
    destruct H1 as [->| ->], H2 as [->| ->]; auto.
Qed.

Lemma validated_property h h' a pr :
  validated h h' → properties h !! a = Some pr →
  ∃ pr', properties h' !! a = Some pr' ∧ (pr' = pr ∨ pr' = clearModified pr).
Proof.
  intros (_ & Hp & _) Ha. specialize (Hp a). rewrite Ha in Hp.
  inversion Hp as [? pr' H|]; subst. by exists pr'.
Qed.

Lemma validated_owner h h' a o :
  validated h h' → owners h !! a = Some o →
  ∃ o', owners h' !! a = Some o' ∧ (o' = o ∨ o' = withLevel Valid o).
Proof.
  intros (_ & _ & Ho) Ha. specialize (Ho a). rewrite Ha in Ho.
  inversion Ho as [? o' H|]; subst. by exists o'.
Qed.

Lemma validated_childValid h h' p : validated h h' → childValid h p → childValid h' p.
Proof.
  intros Hv (pr & Hpr & Hmod & Hcomp).
  destruct (validated_property h h' p pr Hv Hpr) as (pr' & Hpr' & Hcase).
  exists pr'. split; [done |]. split.
  - by destruct Hcase as [->| ->].
  - intros Hk. destruct Hcomp as (c & Hc & Hlevel).
    { by destruct Hcase as [->| ->]. }
    destruct (validated_owner h h' p c Hv Hc) as (c' & Hc' & Hcase').
    exists c'. split; [done |]. by destruct Hcase' as [->| ->].
Qed.

Lemma forallb_pointwise {A : Type} (f g : A -> bool) (l : list A) :
  (∀ x, f x = g x) → forallb f l = forallb g l.
Proof. intros H. induction l as [|x l IH]; simpl; [done |]. by rewrite H, IH. Qed.

Lemma validated_boundedDepth fuel h h' a :
  validated h h' → boundedDepth fuel h' a = boundedDepth fuel h a.
Proof.
  intros Hv. revert a. induction fuel as [|fuel IH]; intros a; simpl; [done |].
  destruct Hv as (_ & Hp & Ho). pose proof (Ho a) as Hoa.
  destruct Hoa as [o o' Hcase|]; [|done].
  assert (Hps : properties_ o' = properties_ o) by (by destruct Hcase as [->| ->]).
  rewrite Hps. apply forallb_pointwise. intros p.
  pose proof (Hp p) as Hpp. destruct Hpp as [pr pr' Hcase'|]; [|done].
  assert (Hk : dynamicType pr' = dynamicType pr) by (by destruct Hcase' as [->| ->]).
  rewrite Hk. destruct (decide _); [apply IH | done].
Qed.

Lemma boundedDepth_children fuel h this :
  boundedDepth (S fuel) h this = true →
  ∃ o, owners h !! this = Some o ∧ ∀ p, p ∈ properties_ o → childBounded fuel h p.
Proof.
  simpl. destruct (owners h !! this) as [o|]; [|done]. intros Hall.
  exists o. split; [done |]. intros p Hp.
  rewrite forallb_forall in Hall. specialize (Hall p).
  rewrite <- list_elem_of_In in Hall. specialize (Hall Hp).
  destruct (properties h !! p) as [pr|] eqn:Hpr; [|done].
  exists pr. split; [done |]. intros Hk. by destruct (decide _).
Qed.

Lemma validated_childBounded fuel h h' p :
  validated h h' → childBounded fuel h p → childBounded fuel h' p.
Proof.
  intros Hv (pr & Hpr & Hb).
  destruct (validated_property h h' p pr Hv Hpr) as (pr' & Hpr' & Hcase).
  exists pr'. split; [done |]. intros Hk.
  rewrite (validated_boundedDepth fuel h h' p Hv). apply Hb.
  by destruct Hcase as [->| ->].
Qed.

Lemma validated_setLevel h this o :
  owners h !! this = Some o →
  validated h (mkHeap (properties h) (<[this := withLevel Valid o]> (owners h))
                      (notifications h)).
Proof.
  intros Ho. split_and!; [done | |]; intros a; simpl.
  - destruct (properties h !! a); constructor. by left.
  - destruct (decide (a = this)) as [->|Hne].
    + rewrite lookup_insert_eq, Ho. constructor. by right.
    + rewrite lookup_insert_ne by done.
      destruct (owners h !! a); constructor. by left.
Qed.

Lemma validated_clearModified h p pr :
  properties h !! p = Some pr →
  validated h (mkHeap (<[p := clearModified pr]> (properties h)) (owners h)
                      (notifications h)).
Proof.
  intros Hp. split_and!; [done | |]; intros a; simpl.
  - destruct (decide (a = p)) as [->|Hne].
    + rewrite lookup_insert_eq, Hp. constructor. by right.
    + rewrite lookup_insert_ne by done.
      destruct (properties h !! a); constructor. by left.
  - destruct (owners h !! a); constructor. by left.
Qed.

Lemma Property_setValid_spec (ownerSetValid : Addr -> M unit) fuel h p :
  (∀ a h0, boundedDepth fuel h0 a = true →
           ∃ h1, ownerSetValid a h0 = Return tt h1 ∧ setValidPost h0 a h1) →
  childBounded fuel h p →
  ∃ h', Property_setValid ownerSetValid p h = Return tt h' ∧
        validated h h' ∧ childValid h' p.
Proof.
  intros Hrec (pr & Hpr & Hb). unfold Property_setValid.
  rewrite (bind_Return _ _ _ _ _ (getProperty_Return _ _ _ Hpr)).
  destruct (decide (dynamicType pr = CompositeProperty)) as [Hk|Hk].
  - destruct (Hrec p h (Hb Hk)) as (h1 & Hrun & Hv & o & Ho & Ho1 & _).
    rewrite (bind_Return _ _ _ _ _ Hrun).
    destruct (validated_property h h1 p pr Hv Hpr) as (pr1 & Hpr1 & Hcase).
    unfold modifyProperty.
    rewrite (bind_Return _ _ _ _ _ (getProperty_Return _ _ _ Hpr1)).
    eexists. split; [reflexivity |]. split.
    + eapply validated_trans; [exact Hv |]. by apply validated_clearModified.
    + exists (clearModified pr1). simpl. rewrite lookup_insert_eq.
      split_and!; [done | done |]. intros _.
      exists (withLevel Valid o). by split.
  - unfold mbind at 1, M_bind at 1, mret, M_ret. unfold modifyProperty.
    rewrite (bind_Return _ _ _ _ _ (getProperty_Return _ _ _ Hpr)).
    eexists. split; [reflexivity |]. split.
    + by apply validated_clearModified.
    + exists (clearModified pr). simpl. rewrite lookup_insert_eq.
      split_and!; [done | done |]. intros Hk'. by destruct Hk.
Qed.

Lemma forEach_setValid_spec (ownerSetValid : Addr -> M unit) fuel ps :
  (∀ a h0, boundedDepth fuel h0 a = true →
           ∃ h1, ownerSetValid a h0 = Return tt h1 ∧ setValidPost h0 a h1) →
  ∀ h, (∀ p, p ∈ ps → childBounded fuel h p) →
       ∃ h', forEach ps (Property_setValid ownerSetValid) h = Return tt h' ∧
             validated h h' ∧ ∀ p, p ∈ ps → childValid h' p.
Proof.
  intros Hrec. induction ps as [|p ps IH]; intros h Hb; simpl.
  - exists h. split; [done |]. split; [apply validated_refl |].
    intros p Hp. by apply elem_of_nil in Hp.
  - destruct (Property_setValid_spec ownerSetValid fuel h p Hrec)
      as (h1 & Hrun1 & Hv1 & Hvalid1); [apply Hb, list_elem_of_here |].
    rewrite (bind_Return _ _ _ _ _ Hrun1).
    destruct (IH h1) as (h' & Hrun & Hv & Hvalid).
    { intros q Hq. eapply validated_childBounded; [exact Hv1 |].
      by apply Hb, list_elem_of_further. }
    exists h'. split; [done |]. split; [by eapply validated_trans |].
    intros q [->|Hq]%elem_of_cons; [|by apply Hvalid].
    by eapply validated_childValid.
Qed.

Lemma setValid_spec fuel :
  ∀ this h, boundedDepth fuel h this = true →
            ∃ h', setValid fuel this h = Return tt h' ∧ setValidPost h this h'.
Proof.
  induction fuel as [|fuel IH]; intros this h Hb; [done |].
  destruct (boundedDepth_children fuel h this Hb) as (o & Ho & Hchildren).
  simpl. rewrite (bind_Return _ _ _ _ _ (getPropertyOwner_Return _ _ _ Ho)).
  destruct (forEach_setValid_spec (setValid fuel) fuel (properties_ o) IH h Hchildren)
    as (h1 & Hrun & Hv & Hvalid).
  rewrite (bind_Return _ _ _ _ _ Hrun).
  destruct (validated_owner h h1 this o Hv Ho) as (o1 & Ho1 & Hcase).
  unfold modifyPropertyOwner.
  rewrite (bind_Return _ _ _ _ _ (getPropertyOwner_Return _ _ _ Ho1)).
  eexists. split; [reflexivity |].
  assert (Hlevel : mkPropertyOwner (properties_ o1) (eventProperties_ o1)
                     (compositeProperties_ o1) (ownedProperties_ o1) Valid (observers_ o1)
                   = withLevel Valid o) by (by destruct Hcase as [->| ->]).
  rewrite Hlevel.
  assert (Hlevel1 : withLevel Valid o1 = withLevel Valid o) by (by destruct Hcase as [->| ->]).
  pose proof (validated_setLevel h1 this o1 Ho1) as Hv2. rewrite Hlevel1 in Hv2.
  split; [by eapply validated_trans |].
  exists o. split; [done |]. split; [simpl; by rewrite lookup_insert_eq |].
  intros p Hp. eapply validated_childValid; [exact Hv2 | by apply Hvalid].
Qed.

Lemma keepsLevel_bind {A B : Type} this (m : M A) (f : A -> M B) :
  keepsLevel this m → (∀ a, keepsLevel this (f a)) → keepsLevel this (m ≫= f).
Proof.
  intros Hm Hf h. unfold mbind, M_bind. specialize (Hm h).
  destruct (m h) as [a h1|e h1| |]; [|done..].
  specialize (Hf a h1). destruct (f a h1); congruence.
Qed.

Lemma keepsLevel_ret {A : Type} this (a : A) : keepsLevel this (mret a).
Proof. by intros h. Qed.

Lemma keepsLevel_throw {A : Type} this e : keepsLevel this (throw (A:=A) e).
Proof. by intros h. Qed.

Lemma keepsLevel_getProperty this p : keepsLevel this (getProperty p).
Proof. intros h. unfold getProperty. by destruct (properties h !! p). Qed.

Lemma keepsLevel_getPropertyOwner this a : keepsLevel this (getPropertyOwner a).
Proof. intros h. unfold getPropertyOwner. by destruct (owners h !! a). Qed.

Lemma keepsLevel_asProperty this a : keepsLevel this (asProperty a).
Proof. by intros h. Qed.

Lemma keepsLevel_notifyObservers this a e : keepsLevel this (notifyObservers a e).
Proof. by intros h. Qed.

Lemma keepsLevel_putProperty this p pr : keepsLevel this (putProperty p pr).
Proof. by intros h. Qed.

Lemma keepsLevel_modifyProperty this p f : keepsLevel this (modifyProperty p f).
Proof.
  apply keepsLevel_bind; [apply keepsLevel_getProperty |].
  intros pr. apply keepsLevel_putProperty.
Qed.

Lemma keepsLevel_modifyPropertyOwner this a f :
  (∀ o, invalidationLevel_ (f o) = invalidationLevel_ o) →
  keepsLevel this (modifyPropertyOwner a f).
Proof.
  intros Hf h. unfold modifyPropertyOwner, getPropertyOwner, putPropertyOwner,
    mbind, M_bind, levelOf.
  destruct (owners h !! a) as [o|] eqn:Ho; [|done]. simpl.
  destruct (decide (this = a)) as [->|Hne].
  - rewrite lookup_insert_eq, Ho. simpl. by rewrite Hf.
  - by rewrite lookup_insert_ne.
Qed.

Lemma keepsLevel_findByIdentifier this ps id : keepsLevel this (findByIdentifier ps id).
Proof.
  induction ps as [|p ps IH]; simpl; [apply keepsLevel_ret |].
  apply keepsLevel_bind; [apply keepsLevel_getProperty |].
  intros pr. destruct (decide _); [apply keepsLevel_ret | done].
Qed.

Ltac keepsLevel_step :=
  first
    [ apply keepsLevel_ret | apply keepsLevel_throw | apply keepsLevel_getProperty
    | apply keepsLevel_getPropertyOwner | apply keepsLevel_asProperty
    | apply keepsLevel_notifyObservers | apply keepsLevel_putProperty
    | apply keepsLevel_modifyProperty | apply keepsLevel_findByIdentifier
    | apply keepsLevel_modifyPropertyOwner; by intros ?
    | apply keepsLevel_bind; [|intros ?] ].

Lemma keepsLevel_insertPropertyImpl this a index property owner :
  keepsLevel this (insertPropertyImpl a index property owner).
Proof.
  unfold insertPropertyImpl, setOwner, setSerializationMode.
  repeat keepsLevel_step; repeat (destruct (decide _)); try destruct owner;
    repeat keepsLevel_step.
Qed.

Lemma keepsLevel_insertProperty this a index property owner :
  keepsLevel this (insertProperty a index property owner).
Proof.
  unfold insertProperty.
  apply keepsLevel_bind; [keepsLevel_step | intros o].
  apply keepsLevel_bind; [keepsLevel_step | intros pr].
  apply keepsLevel_bind.
  { simpl. apply keepsLevel_bind; [keepsLevel_step | intros o'].
    apply keepsLevel_bind; [keepsLevel_step | intros [q|]]; keepsLevel_step. }
  intros [existing|].
  - repeat keepsLevel_step.
  - apply keepsLevel_bind; [keepsLevel_step | intros parent].
    apply keepsLevel_bind.
    { destruct parent as [parent|]; [destruct (decide _)|]; keepsLevel_step. }
    intros _. apply keepsLevel_bind; [keepsLevel_step | intros _].
    apply keepsLevel_bind; [apply keepsLevel_insertPropertyImpl | intros _].
    keepsLevel_step.
Qed.

Lemma keepsLevel_addProperty this a property owner :
  keepsLevel this (addProperty a property owner).
Proof.
  unfold addProperty. keepsLevel_step; [keepsLevel_step |].
  apply keepsLevel_insertProperty.
Qed.

Lemma keepsLevel_move this a property newIndex :
  keepsLevel this (move a property newIndex).
Proof.
  unfold move. keepsLevel_step; [keepsLevel_step |].
  destruct (list_find _ _) as [[index q]|]; repeat keepsLevel_step.
  destruct (decide _); [keepsLevel_step | by intros h].
Qed.

Lemma levelRank_levelMax a b : levelRank (levelMax a b) = levelRank a `max` levelRank b.
Proof. unfold levelMax. destruct (decide _); lia. Qed.

Lemma invalidate_Return h this level o :
  owners h !! this = Some o →
  invalidate this level h =
  Return tt (mkHeap (properties h)
                    (<[this := withLevel (levelMax (invalidationLevel_ o) level) o]> (owners h))
                    (notifications h)).
Proof.
  intros Ho. unfold invalidate, modifyPropertyOwner.
  by rewrite (bind_Return _ _ _ _ _ (getPropertyOwner_Return _ _ _ Ho)).
Qed.

Lemma keepsLevel_neverLowers {A : Type} this (m : M A) :
  keepsLevel this m → neverLowers this m.
Proof.
  intros Hk h o Ho. specialize (Hk h). unfold levelOf in Hk. rewrite Ho in Hk. simpl in Hk.
  destruct (m h) as [a h'|e h'| |]; [| |done..];
    (destruct (owners h' !! this) as [o'|]; [|done]);
    exists o'; (split; [done |]); simpl in Hk; inversion Hk as [Hl]; by rewrite Hl.
Qed.

Lemma neverLowers_invalidate this level : neverLowers this (invalidate this level).
Proof.
  intros h o Ho. rewrite (invalidate_Return h this level o Ho).
  eexists. simpl. rewrite lookup_insert_eq. split; [done |]. simpl.
  rewrite levelRank_levelMax. lia.
Qed.

Lemma neverLowers_call this c : neverLowers this (call this c).
Proof.
  destruct c as [level|index property owner|property owner|property newIndex]; simpl.
  - apply neverLowers_invalidate.
  - apply keepsLevel_neverLowers, keepsLevel_insertProperty.
  - apply keepsLevel_neverLowers, keepsLevel_addProperty.
  - apply keepsLevel_neverLowers, keepsLevel_bind; [apply keepsLevel_move |].
    intros b. apply keepsLevel_ret.
Qed.

Lemma neverLowers_forEach {A : Type} this (body : A -> M unit) (l : list A) :
  (∀ x, neverLowers this (body x)) → neverLowers this (forEach l body).
Proof.
  intros Hbody. induction l as [|x l IH]; intros h o Ho; simpl.
  - by exists o.
  - unfold mbind, M_bind. specialize (Hbody x h o Ho).
    destruct (body x h) as [[] h1|e h1| |]; [|done..].
    destruct Hbody as (o1 & Ho1 & Hle). specialize (IH h1 o1 Ho1).
    destruct (forEach l body h1) as [[] h2|e h2| |]; [| |done..];
      destruct IH as (o2 & Ho2 & Hle2); exists o2; (split; [done | lia]).
Qed.

Lemma invalidateAll_spec this levels :
  ∀ h o, owners h !! this = Some o →
         ∃ h' o', invalidateAll this levels h = Return tt h' ∧
                  owners h' !! this = Some o' ∧
                  levelRank (invalidationLevel_ o) ≤ levelRank (invalidationLevel_ o') ∧
                  Forall (λ l, levelRank l ≤ levelRank (invalidationLevel_ o')) levels.
Proof.
  unfold invalidateAll. induction levels as [|l levels IH]; intros h o Ho; simpl.
  - exists h, o. split_and!; [done | done | lia | constructor].
  - rewrite (bind_Return _ _ _ _ _ (invalidate_Return h this l o Ho)).
    destruct (IH (mkHeap (properties h)
                    (<[this := withLevel (levelMax (invalidationLevel_ o) l) o]> (owners h))
                    (notifications h))
                 (withLevel (levelMax (invalidationLevel_ o) l) o))
      as (h' & o' & Hrun & Ho' & Hle & Hall).
    { simpl. apply lookup_insert_eq. }
    simpl in Hle. rewrite levelRank_levelMax in Hle.
    exists h', o'. split_and!; [done | done | lia |].
    constructor; [lia | done].
Qed.

(** C5: [invalidate(level)] stores the maximum of the current level and
    [level]; over a sequence of [invalidate] calls, and of the other calls
    that change an owner, the level never decreases; [setValid()] makes every
    child property valid and leaves the owner's level [Valid]. *)
Theorem invalidate_raises_setValid_resets
    (h : Heap) (this : Addr) (o : PropertyOwner) :
  owners h !! this = Some o →
  (∀ level,
     invalidate this level h =
       Return tt (mkHeap (properties h)
                         (<[this := withLevel (levelMax (invalidationLevel_ o) level) o]>
                            (owners h))
                         (notifications h)) ∧
     levelRank (levelMax (invalidationLevel_ o) level) =
       levelRank (invalidationLevel_ o) `max` levelRank level) ∧
  (∀ levels,
     ∃ h' o', invalidateAll this levels h = Return tt h' ∧
              owners h' !! this = Some o' ∧
              levelRank (invalidationLevel_ o) ≤ levelRank (invalidationLevel_ o') ∧
              Forall (λ l, levelRank l ≤ levelRank (invalidationLevel_ o')) levels) ∧
  (∀ calls h',
     (forEach calls (call this) h = Return tt h' ∨
      ∃ e, forEach calls (call this) h = Throw e h') →
     ∃ o', owners h' !! this = Some o' ∧
           levelRank (invalidationLevel_ o) ≤ levelRank (invalidationLevel_ o')) ∧
  (∀ fuel,
     boundedDepth fuel h this = true →
     ∃ h', setValid fuel this h = Return tt h' ∧
           owners h' !! this = Some (withLevel Valid o) ∧
           ∀ p, p ∈ properties_ o → childValid h' p).
Proof.
  intros Ho. split_and!.
  - intros level. split; [by apply invalidate_Return | apply levelRank_levelMax].
  - intros levels. by apply invalidateAll_spec.
  - intros calls h' Hrun.
    pose proof (neverLowers_forEach this (call this) calls (neverLowers_call this) h o Ho)
      as Hn.
    destruct Hrun as [Hrun | [e Hrun]]; by rewrite Hrun in Hn.
  - intros fuel Hb.
    destruct (setValid_spec fuel this h Hb) as (h' & Hrun & _ & o0 & Ho0 & Ho' & Hvalid).
    assert (o0 = o) by congruence. subst o0. by exists h'.
Qed.

Lemma invalidate_raises_setValid_resets_witness :
  (∃ h', invalidate 0 InvalidResources exampleHeap = Return tt h' ∧
         levelOf h' 0 = Some InvalidResources) ∧
  (∃ h', invalidate 0 Valid exampleHeap = Return tt h' ∧
         levelOf h' 0 = Some InvalidOutput) ∧
  (∃ h', setValid 1 0 exampleHeap = Return tt h' ∧
         levelOf h' 0 = Some Valid ∧ childValid h' 1 ∧ childValid h' 2).
Proof.
  destruct (invalidate_raises_setValid_resets exampleHeap 0
              (mkPropertyOwner [1; 2] [2] [] [2] InvalidOutput [7]))
    as (Hinv & _ & _ & Hvalid); [reflexivity |].
  split_and!.
  - eexists. split; [apply Hinv | reflexivity].
  - eexists. split; [apply Hinv | reflexivity].
  - destruct (Hvalid 1) as (h' & Hrun & Ho & Hchildren); [reflexivity |].
    exists h'. split; [done |]. split_and!.
    + unfold levelOf. by rewrite Ho.
    + apply Hchildren. set_solver.
    + apply Hchildren. set_solver.
Defined.

(** *** Copy construction *)













Example PropertyOwner_copy_copyHeap :
  match PropertyOwner_copy 2 9 0 copyHeap with
  | Return _ h' =>
      owners h' !! 9 = Some (mkPropertyOwner [10; 11] [] [11] [10; 11] InvalidOutput []) ∧
      owners h' !! 11 = Some (mkPropertyOwner [12] [] [] [12] Valid []) ∧
      properties h' !! 12 = Some (mkProperty "y" "org.inviwo.IntProperty" 30 PlainProperty
                                             SerializeAll (Some 11) false) ∧
      owners h' !! 0 = owners copyHeap !! 0
  | _ => False
  end.
Proof. vm_compute. done. Qed.

(** ** Partial network extraction *)

Lemma containsProcessor_selected cls net p :
  containsProcessor (List.filter (isSelected cls) (getProcessors net)) (Some p) = true
  ↔ isSelectedIn cls net p.
Proof.
  unfold containsProcessor, isSelectedIn.
  rewrite bool_decide_eq_true, list_elem_of_In, filter_In, <- list_elem_of_In. done.
Qed.

Lemma foldl_classifyConnection selected cs :
  ∀ internal external,
    foldl (classifyConnection selected) (internal, external) cs =
    (internal ++ (ConnectionEdge <$>
        filter (λ c, containsProcessor selected (Some (inportProcessor (getInport c))) = true ∧
                     containsProcessor selected (Some (outportProcessor (getOutport c))) = true)
               cs),
     external ++ (ConnectionEdge <$>
        filter (λ c, containsProcessor selected (Some (inportProcessor (getInport c))) = true ∧
                     containsProcessor selected (Some (outportProcessor (getOutport c))) ≠ true)
               cs)).
Proof.
  induction cs as [|c cs IH]; intros internal external.
  - simpl. by rewrite !app_nil_r.
  - cbn [foldl]. rewrite !filter_cons.
    destruct (classifyConnection selected (internal, external) c) as [i' e'] eqn:Hstep.
    rewrite IH. unfold classifyConnection in Hstep.
    destruct (containsProcessor selected (Some (inportProcessor (getInport c)))) eqn:Hin;
      destruct (containsProcessor selected (Some (outportProcessor (getOutport c)))) eqn:Hout;
      inversion Hstep; subst;
      repeat (destruct (decide _) as [[? ?]|?]; try done; try tauto);
      simpl; by rewrite <- ?app_assoc.
Qed.

(** C3 (amended): a connection is recorded as internal exactly when both of
    its end processors are selected, and as external exactly when the
    processor of its inport is selected and the processor of its outport is
    not. *)
Theorem PartialProcessorNetwork_serialize_connections
    (cls : ProcessorClass) (pcls : PropertyClass) (net : ProcessorNetwork)
    (c : PortConnection) :
  (ConnectionEdge c ∈ InternalConnections (PartialProcessorNetwork_serialize cls pcls net) ↔
   c ∈ getConnections net ∧
   isSelectedIn cls net (inportProcessor (getInport c)) ∧
   isSelectedIn cls net (outportProcessor (getOutport c))) ∧
  (ConnectionEdge c ∈ ExternalConnections (PartialProcessorNetwork_serialize cls pcls net) ↔
   c ∈ getConnections net ∧
   isSelectedIn cls net (inportProcessor (getInport c)) ∧
   ¬ isSelectedIn cls net (outportProcessor (getOutport c))).
Proof.
  unfold PartialProcessorNetwork_serialize.
  rewrite foldl_classifyConnection.
  destruct (foldl (classifyLink pcls _) _ _) as [[internalLinks outLinks] inLinks].
  cbn [InternalConnections ExternalConnections app].
  split.
  - rewrite list_elem_of_fmap. split.
    + intros (c' & [= <-] & Hc). apply list_elem_of_filter in Hc as [[Hi Ho] Hc].
      by rewrite !containsProcessor_selected in Hi, Ho.
    + intros (Hc & Hi & Ho). exists c. split; [done |].
      apply list_elem_of_filter. by rewrite !containsProcessor_selected.
  - rewrite list_elem_of_fmap. split.
    + intros (c' & [= <-] & Hc). apply list_elem_of_filter in Hc as [[Hi Ho] Hc].
      by rewrite !containsProcessor_selected in Hi, Ho.
    + intros (Hc & Hi & Ho). exists c. split; [done |].
      apply list_elem_of_filter. by rewrite !containsProcessor_selected.
Qed.

(** C3, as stated, fails: the connection from the selected processor 0 to
    the unselected processor 1 has precisely one selected end, but it is
    not recorded as external (nor at all). *)
Lemma PartialProcessorNetwork_serialize_outgoing_counterexample :
  ¬ (∀ c, ConnectionEdge c ∈ ExternalConnections
              (PartialProcessorNetwork_serialize selectionClass noLinks outgoingNetwork) ↔
          c ∈ getConnections outgoingNetwork ∧
          exactlyOneEndSelected selectionClass outgoingNetwork c).
Proof.
  intros H.
  specialize (H (mkConnection (mkOutport 0 0) (mkInport 1 0))).
  assert (Hext : ExternalConnections
                   (PartialProcessorNetwork_serialize selectionClass noLinks outgoingNetwork)
                 = []) by reflexivity.
  rewrite Hext in H. destruct H as [_ H].
  apply (not_elem_of_nil (ConnectionEdge (mkConnection (mkOutport 0 0) (mkInport 1 0)))).
  apply H. split; [apply list_elem_of_here |].
  right. unfold isSelectedIn. simpl. split.
  - intros [_ Hsel]. done.
  - split; [apply list_elem_of_here | done].
Qed.

(** ** Splitting a connection *)


Lemma find_if_or_null_None {A : Type} (l : list A) (pred : A -> bool) :
  ¬ (∃ x, x ∈ l ∧ pred x = true) → find_if_or_null l pred = None.
Proof.
  intros Hnone. unfold find_if_or_null.
  destruct (List.find pred l) as [y|] eqn:Hfind; [|done].
  apply find_some in Hfind as [Hy Hpy]. exfalso. apply Hnone. exists y.
  by rewrite list_elem_of_In.
Qed.

Lemma elem_of_addConnection net outport inport net' c :
  addConnection outport inport net = Return tt net' →
  getProcessors net' = getProcessors net ∧ getLinks net' = getLinks net ∧
  (c ∈ getConnections net' ↔ c ∈ getConnections net ∨ c = mkConnection outport inport).
Proof.
  unfold addConnection. intros [= <-].
  destruct (decide (mkConnection outport inport ∈ getConnections net)) as [Hin|Hin]; simpl.
  - split_and!; [done | done |]. split; [by left | by intros [?| ->]].
  - split_and!; [done | done |]. rewrite elem_of_app, list_elem_of_singleton. done.
Qed.



(** Processor 2 is put on the connection from processor 0 to processor 1 of
    [outgoingNetwork]. *)
Example addProcessorOnConnection_outgoingNetwork :
  addProcessorOnConnection selectionClass 2 (mkConnection (mkOutport 0 0) (mkInport 1 0))
                           outgoingNetwork =
  Return true
    {| getProcessors := [0; 1];
       getConnections := [mkConnection (mkOutport 0 0) (mkInport 2 0);
                          mkConnection (mkOutport 2 0) (mkInport 1 0)];
       getLinks := []; getVersion := 20 |}.
Proof. by vm_compute. Qed.

(** ** Replacing a processor *)

Section CopyPropertyValues.

Variable h : Heap.
Variables newProcessor oldProcessor : ProcessorPtr.
Variables no oo : PropertyOwner.
Hypothesis Hnew : owners h !! newProcessor = Some no.
Hypothesis Hold : owners h !! oldProcessor = Some oo.
Hypothesis HnewLive : allLive h (properties_ no).
Hypothesis HoldLive : allLive h (properties_ oo).
Hypothesis HnewUnique : uniqueIdentifiers h (properties_ no).
Hypothesis HoldUnique : uniqueIdentifiers h (properties_ oo).
Hypothesis Hdisjoint : ∀ p, p ∈ properties_ oo → p ∉ properties_ no.

Local Abbreviation copied := (Copied h no).

Lemma withValue_id pr : withValue (value_ pr) pr = pr.
Proof. by destruct pr. Qed.

Lemma Copied_nil : copied [] h.
Proof.
  split_and!; [done | done | done |].
  intros np npr Hnp Hnpr. exists (value_ npr). rewrite withValue_id.
  split_and!; [done | | done].
  intros op opr Hop. by apply elem_of_nil in Hop.
Qed.

Lemma Copied_allLive done hk : copied done hk → allLive hk (properties_ no).
Proof.
  intros (_ & _ & _ & Hc) np Hnp. destruct (HnewLive np Hnp) as [npr Hnpr].
  destruct (Hc np npr Hnp Hnpr) as (v & Hv & _). by eexists.
Qed.

Lemma Copied_weaken done hk op :
  copied done hk →
  (∀ np npr opr, np ∈ properties_ no → properties h !! np = Some npr →
                 properties h !! op = Some opr →
                 identifier_ opr = identifier_ npr →
                 classIdentifier_ opr ≠ classIdentifier_ npr) →
  copied (done ++ [op]) hk.
Proof.
  intros (Ho & Hn & Hframe & Hc) Hnomatch. split_and!; [done | done | done |].
  intros np npr Hnp Hnpr. destruct (Hc np npr Hnp Hnpr) as (v & Hv & Hval & Hkeep).
  exists v. split_and!; [done | |].
  - intros op' opr' [Hin | ->%list_elem_of_singleton]%elem_of_app Hopr Hid Hcls.
    + by eapply Hval.
    + by destruct (Hnomatch np npr opr' Hnp Hnpr Hopr Hid).
  - intros Hall. apply Hkeep. intros op' opr' Hin. apply Hall, elem_of_app. by left.
Qed.

Lemma copyPropertyValues_step done hk op :
  copied done hk → (∀ q, q ∈ done → q ∈ properties_ oo) → op ∈ properties_ oo →
  ∃ hk',
    (opr ← getProperty op;
     found ← getPropertyByIdentifier 0 newProcessor (identifier_ opr) false;
     match found with
     | Some newProp =>
         np ← getProperty newProp;
         if decide (classIdentifier_ np = classIdentifier_ opr)
         then Property_set newProp op
         else mret tt
     | None => mret tt
     end) hk = Return tt hk' ∧
    copied (done ++ [op]) hk'.
Proof.
  intros Hcop Hdone Hop. pose proof Hcop as (Ho & Hn & Hframe & Hc).
  destruct (HoldLive op Hop) as [opr Hopr].
  assert (Hoprk : properties hk !! op = Some opr).
  { rewrite Hframe; [done | by apply Hdisjoint]. }
  rewrite (bind_Return _ _ _ _ _ (getProperty_Return _ _ _ Hoprk)).
  assert (Hnewk : owners hk !! newProcessor = Some no) by (by rewrite Ho).
  destruct (findByIdentifier_spec hk (properties_ no) (identifier_ opr)
              (Copied_allLive done hk Hcop)) as (found & Hfind & Hspec).
  assert (Hget : getPropertyByIdentifier 0 newProcessor (identifier_ opr) false hk
                 = Return found hk).
  { simpl. rewrite (bind_Return _ _ _ _ _ (getPropertyOwner_Return _ _ _ Hnewk)).
    rewrite (bind_Return _ _ _ _ _ Hfind). by destruct found. }
  rewrite (bind_Return _ _ _ _ _ Hget).
  destruct found as [np|].
  - destruct Hspec as (Hnp & nprk & Hnprk & Hid).
    destruct (HnewLive np Hnp) as [npr Hnpr].
    destruct (Hc np npr Hnp Hnpr) as (v & Hv & Hval & Hkeep).
    assert (nprk = withValue v npr) as -> by congruence. simpl in Hid.
    rewrite (bind_Return _ _ _ _ _ (getProperty_Return _ _ _ Hnprk)). simpl.
    destruct (decide (classIdentifier_ npr = classIdentifier_ opr)) as [Hcls|Hcls].
    + unfold Property_set, modifyProperty.
      rewrite (bind_Return _ _ _ _ _ (getProperty_Return _ _ _ Hoprk)).
      rewrite (bind_Return _ _ _ _ _ (getProperty_Return _ _ _ Hnprk)).
      eexists. split; [reflexivity |]. simpl.
      split_and!; [done | done | |]; simpl.
      * intros a Ha. rewrite lookup_insert_ne by (intros ->; done). by apply Hframe.
      * intros np2 npr2 Hnp2 Hnpr2. destruct (decide (np2 = np)) as [->|Hne].
        -- assert (npr2 = npr) as -> by congruence.
           exists (value_ opr). rewrite lookup_insert_eq. split_and!; [done | |].
           ++ intros op' opr' Hin Hopr' Hid' Hcls'.
              assert (Hop' : op' ∈ properties_ oo).
              { apply elem_of_app in Hin as [Hin | ->%list_elem_of_singleton]; [|done].
                by apply Hdone. }
              assert (op' = op) as ->.
              { eapply HoldUnique; [done | done | done | done | congruence]. }
              congruence.
           ++ intros Hall. by destruct (Hall op opr (ltac:(set_solver)) Hopr (eq_sym Hid)).
        -- rewrite lookup_insert_ne by done.
           destruct (Hc np2 npr2 Hnp2 Hnpr2) as (v2 & Hv2 & Hval2 & Hkeep2).
           exists v2. split_and!; [done | |].
           ++ intros op' opr' [Hin | ->%list_elem_of_singleton]%elem_of_app Hopr' Hid' Hcls'.
              ** by eapply Hval2.
              ** destruct Hne. eapply HnewUnique; [done | done | done | done |].
                 assert (opr' = opr) as -> by congruence. congruence.
           ++ intros Hall. apply Hkeep2. intros op' opr' Hin. apply Hall, elem_of_app.
              by left.
    + exists hk. split; [done |]. apply Copied_weaken; [done |].
      intros np2 npr2 opr' Hnp2 Hnpr2 Hopr' Hid'.
      assert (opr' = opr) as -> by congruence.
      assert (np2 = np) as ->.
      { eapply HnewUnique; [done | done | done | done | congruence]. }
      assert (npr2 = npr) as -> by congruence. congruence.
  - exists hk. split; [done |]. apply Copied_weaken; [done |].
    intros np2 npr2 opr' Hnp2 Hnpr2 Hopr' Hid'.
    assert (opr' = opr) as -> by congruence.
    destruct (Hc np2 npr2 Hnp2 Hnpr2) as (v2 & Hv2 & _).
    exfalso. by apply (Hspec np2 (withValue v2 npr2) Hnp2 Hv2).
Qed.

Lemma copyPropertyValues_loop todo :
  ∀ done hk,
    copied done hk → (∀ q, q ∈ done → q ∈ properties_ oo) →
    (∀ q, q ∈ todo → q ∈ properties_ oo) →
    ∃ h',
      forEach todo (λ oldProp,
        op ← getProperty oldProp;
        found ← getPropertyByIdentifier 0 newProcessor (identifier_ op) false;
        match found with
        | Some newProp =>
            np ← getProperty newProp;
            if decide (classIdentifier_ np = classIdentifier_ op)
            then Property_set newProp oldProp
            else mret tt
        | None => mret tt
        end) hk = Return tt h' ∧
      copied (done ++ todo) h'.
Proof.
  induction todo as [|op todo IH]; intros done hk Hcop Hdone Htodo.
  - exists hk. by rewrite app_nil_r.
  - destruct (copyPropertyValues_step done hk op Hcop Hdone) as (hk1 & Hstep & Hcop1).
    { apply Htodo, list_elem_of_here. }
    destruct (IH (done ++ [op]) hk1 Hcop1) as (h' & Hrun & Hcop').
    { intros q [Hq | ->%list_elem_of_singleton]%elem_of_app;
        [by apply Hdone | apply Htodo, list_elem_of_here]. }
    { intros q Hq. by apply Htodo, list_elem_of_further. }
    exists h'. cbn [forEach]. rewrite (bind_Return _ _ _ _ _ Hstep).
    by rewrite <- app_assoc in Hcop'.
Qed.

Lemma copyPropertyValues_spec :
  ∃ h', copyPropertyValues newProcessor oldProcessor h = Return tt h' ∧
        copied (properties_ oo) h'.
Proof.
  unfold copyPropertyValues.
  rewrite (bind_Return _ _ _ _ _ (getPropertyOwner_Return _ _ _ Hold)).
  destruct (copyPropertyValues_loop (properties_ oo) [] h Copied_nil) as (h' & Hrun & Hcop).
  - intros q Hq. by apply elem_of_nil in Hq.
  - done.
  - by exists h'.
Qed.

End CopyPropertyValues.

Lemma splitByFirst_length path d first rest :
  splitByFirst path d = (first, rest) → String.length rest ≤ String.length path.
Proof.
  revert first rest. induction path as [|c path IH]; intros first rest; simpl.
  - intros [= <- <-]. done.
  - destruct (decide (c = d)).
    + intros [= <- <-]. lia.
    + destruct (splitByFirst path d) as [f r] eqn:Hs. intros [= <- <-].
      specialize (IH f r eq_refl). lia.
Qed.

Lemma splitByFirst_shorter path d first rest :
  splitByFirst path d = (first, rest) → path ≠ EmptyString →
  String.length rest < String.length path.
Proof.
  destruct path as [|c path]; [done |]. simpl. intros Hs _.
  destruct (decide (c = d)).
  - inversion Hs; subst. lia.
  - destruct (splitByFirst path d) as [f r] eqn:Hs'. inversion Hs; subst.
    apply splitByFirst_length in Hs'. lia.
Qed.

Lemma getPropertyByIdentifier_Return h this o id :
  owners h !! this = Some o → allLive h (properties_ o) →
  ∃ r, getPropertyByIdentifier 0 this id false h = Return r h.
Proof.
  intros Ho Hlive. simpl.
  rewrite (bind_Return _ _ _ _ _ (getPropertyOwner_Return _ _ _ Ho)).
  destruct (findByIdentifier_spec h (properties_ o) id Hlive) as (r & Hr & _).
  rewrite (bind_Return _ _ _ _ _ Hr). exists r. by destruct r.
Qed.

Lemma getPropertyByPath_Return h :
  heapClosed h →
  ∀ fuel this path,
    is_Some (owners h !! this) → String.length path ≤ fuel →
    ∃ r, getPropertyByPath fuel this path h = Return r h.
Proof.
  intros Hclosed fuel.
  induction fuel as [|fuel IH]; intros this path [o Ho] Hlen;
    destruct (Hclosed this o Ho) as (Hlive & Hclive & Hcown).
  - destruct path; [|simpl in Hlen; lia]. simpl. by eexists.
  - simpl. destruct (decide (path = EmptyString)) as [->|Hne]; [by eexists |].
    destruct (splitByFirst path dot) as [first rest] eqn:Hsplit.
    destruct (decide (rest = EmptyString)) as [->|Hrest].
    + by apply (getPropertyByIdentifier_Return h this o).
    + rewrite (bind_Return _ _ _ _ _ (getPropertyOwner_Return _ _ _ Ho)).
      destruct (findByIdentifier_spec h (compositeProperties_ o) first Hclive)
        as (r & Hr & Hspec).
      rewrite (bind_Return _ _ _ _ _ Hr).
      destruct r as [comp|]; [|by eexists].
      destruct Hspec as [Hcomp _]. apply IH; [by apply Hcown |].
      pose proof (splitByFirst_shorter _ _ _ _ Hsplit Hne). lia.
Qed.

Lemma forEach_keeps {A : Type} (P : World → Prop) (body : A -> St World unit) (l : list A) :
  (∀ x w, x ∈ l → P w →
          ∃ w', body x w = Return tt w' ∧ keepsStore w w' ∧
                getProcessors (network w') = getProcessors (network w) ∧ P w') →
  ∀ w, P w →
       ∃ w', forEach l body w = Return tt w' ∧ keepsStore w w' ∧
             getProcessors (network w') = getProcessors (network w).
Proof.
  induction l as [|x l IH]; intros Hbody w HP.
  - exists w. by split_and!.
  - destruct (Hbody x w (list_elem_of_here _ _) HP) as (w1 & Hx & [Hh1 Hi1] & Hp1 & HP1).
    destruct (IH (λ y w0 Hy, Hbody y w0 (list_elem_of_further _ _ _ Hy)) w1 HP1)
      as (w' & Hrun & [Hh Hi] & Hp).
    exists w'. cbn [forEach]. rewrite (bind_Return _ _ _ _ _ Hx).
    split_and!; [done | split; congruence | congruence].
Qed.

Lemma liftNetwork_addLink src dst w :
  ∃ w', liftNetwork (addLink src dst) w = Return tt w' ∧ keepsStore w w' ∧
        getProcessors (network w') = getProcessors (network w).
Proof.
  unfold liftNetwork, addLink.
  destruct (decide (mkLink src dst ∈ getLinks (network w))); eexists; by split_and!.
Qed.

Lemma liftNetwork_addConnection outport inport w :
  ∃ w', liftNetwork (addConnection outport inport) w = Return tt w' ∧ keepsStore w w' ∧
        getProcessors (network w') = getProcessors (network w).
Proof.
  unfold liftNetwork, addConnection.
  destruct (decide (mkConnection outport inport ∈ getConnections (network w)));
    eexists; by split_and!.
Qed.

Lemma liftNetwork_removeProcessor pcls processor w :
  processor ∈ getProcessors (network w) →
  ∃ w', liftNetwork (removeProcessor pcls processor) w = Return (Some processor) w' ∧
        keepsStore w w'.
Proof.
  intros Hin. unfold liftNetwork, removeProcessor.
  destruct (decide (processor ∈ getProcessors (network w))); [|done].
  eexists. by split_and!.
Qed.

Lemma liftHeap_getPropertyByPath fuel this path w :
  heapClosed (heap w) → is_Some (owners (heap w) !! this) → String.length path ≤ fuel →
  ∃ r, liftHeap (getPropertyByPath fuel this path) w = Return r w.
Proof.
  intros Hclosed Hthis Hlen.
  destruct (getPropertyByPath_Return (heap w) Hclosed fuel this path Hthis Hlen) as [r Hr].
  exists r. unfold liftHeap. rewrite Hr. by destruct w.
Qed.

Lemma moveLinks_spec pcls fuel newProcessor oldProcessor w :
  heapClosed (heap w) → is_Some (owners (heap w) !! newProcessor) →
  (∀ l, l ∈ getLinks (network w) →
        String.length (getPath pcls (getSource l)) ≤ fuel ∧
        String.length (getPath pcls (getDestination l)) ≤ fuel) →
  ∃ w', moveLinks pcls fuel newProcessor oldProcessor w = Return tt w' ∧ keepsStore w w' ∧
        getProcessors (network w') = getProcessors (network w).
Proof.
  intros Hclosed Hnew Hfuel. unfold moveLinks.
  unfold getNetwork at 1. unfold mbind at 1, M_bind at 1.
  apply (forEach_keeps (λ w0, heap w0 = heap w)); [|done].
  intros link w0 Hlink Hheap.
  apply list_elem_of_In, filter_In in Hlink as [Hlink%list_elem_of_In _].
  destruct (Hfuel link Hlink) as [Hsrc Hdst].
  assert (Hclosed0 : heapClosed (heap w0)) by (by rewrite Hheap).
  assert (Hnew0 : is_Some (owners (heap w0) !! newProcessor)) by (by rewrite Hheap).
  destruct (decide (getOwnerProcessor pcls (getDestination link) = Some oldProcessor)).
  - destruct (splitByFirst (getPath pcls (getDestination link)) dot) as [first rest] eqn:Hs.
    apply splitByFirst_length in Hs.
    destruct (liftHeap_getPropertyByPath fuel newProcessor rest w0 Hclosed0 Hnew0)
      as [r Hr]; [lia |].
    rewrite (bind_Return _ _ _ _ _ Hr). destruct r as [newDst|].
    + destruct (liftNetwork_addLink (getSource link) newDst w0) as (w' & Hrun & [Hh Hi] & Hp).
      exists w'. split_and!; [done | done | done | congruence].
    + exists w0. by split_and!.
  - destruct (decide (getOwnerProcessor pcls (getSource link) = Some oldProcessor)).
    + destruct (splitByFirst (getPath pcls (getSource link)) dot) as [first rest] eqn:Hs.
      apply splitByFirst_length in Hs.
      destruct (liftHeap_getPropertyByPath fuel newProcessor rest w0 Hclosed0 Hnew0)
        as [r Hr]; [lia |].
      rewrite (bind_Return _ _ _ _ _ Hr). destruct r as [newSrc|].
      * destruct (liftNetwork_addLink newSrc (getDestination link) w0)
          as (w' & Hrun & [Hh Hi] & Hp).
        exists w'. split_and!; [done | done | done | congruence].
      * exists w0. by split_and!.
    + exists w0. by split_and!.
Qed.

Lemma heapClosed_Copied h no done h' :
  heapClosed h → Copied h no done h' → heapClosed h'.
Proof.
  intros Hclosed (Ho & _ & Hframe & Hc).
  assert (Hlive : ∀ a, is_Some (properties h !! a) → is_Some (properties h' !! a)).
  { intros a [x Hx]. destruct (decide (a ∈ properties_ no)) as [Hin|Hin].
    - destruct (Hc a x Hin Hx) as (v & Hv & _). by eexists.
    - rewrite Hframe by done. by eexists. }
  intros a o Ha. rewrite Ho in Ha. destruct (Hclosed a o Ha) as (H1 & H2 & H3).
  split_and!.
  - intros p Hp. by apply Hlive, H1.
  - intros p Hp. by apply Hlive, H2.
  - intros c Hc'. rewrite Ho. by apply H3.
Qed.

(** C4: [replaceProcessor] returns the old processor; the new processor
    then has the identifier the old one had, and for every property of the
    old processor and the property of the new processor with the same
    identifier, the new property has the old property's value when their class
    identifiers are equal and is unchanged when they differ. *)
Theorem replaceProcessor_identifier_and_values
    (cls : ProcessorClass) (pcls : PropertyClass) (fuel : nat) (w : World)
    (newProcessor oldProcessor : ProcessorPtr) (no oo : PropertyOwner) (id : string) :
  owners (heap w) !! newProcessor = Some no →
  owners (heap w) !! oldProcessor = Some oo →
  heapClosed (heap w) →
  uniqueIdentifiers (heap w) (properties_ no) →
  uniqueIdentifiers (heap w) (properties_ oo) →
  (∀ p, p ∈ properties_ oo → p ∉ properties_ no) →
  oldProcessor ∈ getProcessors (network w) →
  processorIdentifier w !! oldProcessor = Some id →
  (∀ l, l ∈ getLinks (network w) →
        String.length (getPath pcls (getSource l)) ≤ fuel ∧
        String.length (getPath pcls (getDestination l)) ≤ fuel) →
  ∃ w',
    replaceProcessor cls pcls fuel newProcessor oldProcessor w = Return oldProcessor w' ∧
    processorIdentifier w' !! newProcessor = Some id ∧
    ∀ op opr np npr,
      op ∈ properties_ oo → properties (heap w) !! op = Some opr →
      np ∈ properties_ no → properties (heap w) !! np = Some npr →
      identifier_ npr = identifier_ opr →
      (classIdentifier_ npr = classIdentifier_ opr →
       properties (heap w') !! np = Some (withValue (value_ opr) npr)) ∧
      (classIdentifier_ npr ≠ classIdentifier_ opr →
       properties (heap w') !! np = Some npr).
Proof.
  intros Hnew Hold Hclosed Hnu Hou Hdisj Hin Hid Hfuel.
  destruct (Hclosed _ _ Hnew) as (Hnlive & _ & _).
  destruct (Hclosed _ _ Hold) as (Holive & _ & _).
  destruct (copyPropertyValues_spec (heap w) newProcessor oldProcessor no oo
              Hnew Hold Hnlive Holive Hnu Hou Hdisj) as (h1 & Hcopy & Hcopied).
  unfold replaceProcessor.
  unfold getNetwork at 1. unfold mbind at 1, M_bind at 1.
  set (newConnections := _ ++ _).
  set (w1 := mkWorld h1 (network w) (processorIdentifier w) (processorPosition w)).
  assert (Hstep1 : liftHeap (copyPropertyValues newProcessor oldProcessor) w = Return tt w1).
  { unfold liftHeap. by rewrite Hcopy. }
  rewrite (bind_Return _ _ _ _ _ Hstep1).
  destruct (moveLinks_spec pcls fuel newProcessor oldProcessor w1)
    as (w2 & Hstep2 & [Hh2 Hi2] & Hp2).
  { simpl. by eapply heapClosed_Copied. }
  { simpl. destruct Hcopied as (-> & _). by eexists. }
  { done. }
  rewrite (bind_Return _ _ _ _ _ Hstep2).
  assert (Hin2 : oldProcessor ∈ getProcessors (network w2)) by (by rewrite Hp2).
  destruct (liftNetwork_removeProcessor pcls oldProcessor w2 Hin2)
    as (w3 & Hstep3 & [Hh3 Hi3]).
  rewrite (bind_Return _ _ _ _ _ Hstep3).
  destruct (forEach_keeps (λ _, True)
              (λ con, liftNetwork (addConnection (getOutport con) (getInport con)))
              newConnections) with (w := w3) as (w4 & Hstep4 & [Hh4 Hi4] & _).
  { intros con w0 _ _.
    destruct (liftNetwork_addConnection (getOutport con) (getInport con) w0)
      as (w' & ? & ? & ?). by exists w'. }
  { done. }
  rewrite (bind_Return _ _ _ _ _ Hstep4).
  assert (Hid4 : processorIdentifier w4 !! oldProcessor = Some id).
  { by rewrite Hi4, Hi3, Hi2. }
  unfold Processor_getIdentifier at 1. unfold mbind at 1, M_bind at 1. rewrite Hid4.
  eexists. split; [reflexivity |]. simpl. split; [apply lookup_insert_eq |].
  rewrite Hh4, Hh3, Hh2. simpl.
  intros op opr np npr Hop Hopr Hnp Hnpr Hsame.
  destruct Hcopied as (_ & _ & _ & Hc).
  destruct (Hc np npr Hnp Hnpr) as (v & Hv & Hval & Hkeep).
  split.
  - intros Hcls. rewrite Hv. f_equal. f_equal. eapply Hval; [done | done | done | done].
  - intros Hcls. rewrite Hv.
    rewrite Hkeep; [by rewrite withValue_id |].
    intros op' opr' Hop' Hopr' Hid'.
    assert (op' = op) as ->.
    { eapply Hou; [done | done | done | done | congruence]. }
    assert (opr' = opr) as -> by congruence. congruence.
Qed.

Ltac lookup_cases H :=
  simpl in H;
  repeat (apply lookup_insert_Some in H as [[<- <-] | [_ H]]);
  [.. | by rewrite lookup_empty in H].

Ltac elem_cases H :=
  repeat (apply elem_of_cons in H as [-> | H]); [.. | by apply elem_of_nil in H].

Lemma replaceWorld_heapClosed : heapClosed (heap replaceWorld).
Proof.
  intros a o Ha. lookup_cases Ha; simpl; split_and!;
    try (intros p Hp; elem_cases Hp; by eexists).
Qed.

Lemma replaceWorld_unique (this : Addr) (o : PropertyOwner) :
  owners (heap replaceWorld) !! this = Some o →
  uniqueIdentifiers (heap replaceWorld) (properties_ o).
Proof.
  intros Ho p q pr qr Hp Hq Hpr Hqr Hid.
  lookup_cases Ho; simpl in Hp, Hq; elem_cases Hp; elem_cases Hq; try done;
    inversion Hpr; inversion Hqr; subst; done.
Qed.

Lemma replaceProcessor_identifier_and_values_witness :
  ∃ w',
    replaceProcessor replaceClass replaceProperties 6 4 2 replaceWorld = Return 2 w' ∧
    processorIdentifier w' !! 4 = Some "A" ∧
    value_ <$> properties (heap w') !! 20 = Some 42%Z ∧
    value_ <$> properties (heap w') !! 21 = Some 5%Z.
Proof.
  destruct (replaceProcessor_identifier_and_values replaceClass replaceProperties 6
              replaceWorld 4 2
              (mkPropertyOwner [20; 21] [] [] [] Valid [])
              (mkPropertyOwner [10; 11] [] [] [] Valid []) "A")
    as (w' & Hrun & Hid & Hvalues).
  - reflexivity.
  - reflexivity.
  - exact replaceWorld_heapClosed.
  - by apply (replaceWorld_unique 4).
  - by apply (replaceWorld_unique 2).
  - intros p Hp Hq. simpl in Hp, Hq.
    elem_cases Hp; repeat (apply elem_of_cons in Hq as [? | Hq]; [lia |]);
      by apply elem_of_nil in Hq.
  - simpl. set_solver.
  - reflexivity.
  - intros l Hl. simpl in Hl. elem_cases Hl. simpl. lia.
  - exists w'. split_and!; [done | done | |].
    + destruct (Hvalues 10 _ 20 _ ltac:(set_solver) eq_refl ltac:(set_solver) eq_refl eq_refl)
        as [Hsame _].
      exact (f_equal (fmap value_) (Hsame eq_refl)).
    + destruct (Hvalues 11 _ 21 _ ltac:(set_solver) eq_refl ltac:(set_solver) eq_refl eq_refl)
        as [_ Hdiff].
      assert (Hclass : "org.inviwo.IntProperty" ≠ "org.inviwo.FloatProperty") by discriminate.
      exact (f_equal (fmap value_) (Hdiff Hclass)).
Defined.

(** ** Reloading the modules *)

(** C8: when runtime reloading is enabled and the save step throws a
    [SerializationException], [reloadModules] returns in the state in which
    [save] threw, with the exception logged and nothing else done: the
    network is not cleared, no callback is invoked, no module is reset and no
    library is unloaded.  The modules and the network are those before the
    call whenever the failed [save] itself left them alone. *)
Theorem reloadModules_save_fails
    (save : St Application string) (loadWorkspace : string -> St Application unit)
    (createModule : ModuleContainer -> Exception + nat)
    (updateGraph : list ModuleContainer -> list ModuleContainer) (fuel : nat)
    (app app' : Application) (message : string) :
  runtimeModuleReloading_ app = true →
  save (mkApplication (inviwoModules_ app) (getProcessorNetwork app)
                      (runtimeModuleReloading_ app)
                      (logged app ++ [LogInfo "Reloading modules"]) (invoked app))
    = Throw (SerializationException message) app' →
  ∃ app'',
    reloadModules save loadWorkspace createModule updateGraph fuel app = Return tt app'' ∧
    inviwoModules_ app'' = inviwoModules_ app' ∧
    getProcessorNetwork app'' = getProcessorNetwork app' ∧
    invoked app'' = invoked app' ∧
    logged app'' =
      logged app' ++ [LogException (SerializationException message) "Unable to save network"] ∧
    (inviwoModules_ app' = inviwoModules_ app →
     getProcessorNetwork app' = getProcessorNetwork app →
     invoked app' = invoked app →
     inviwoModules_ app'' = inviwoModules_ app ∧
     getProcessorNetwork app'' = getProcessorNetwork app ∧
     invoked app'' = invoked app).
Proof.
  intros Henabled Hsave. unfold reloadModules.
  assert (H1 : isRuntimeModuleReloadingEnabled app = Return true app).
  { unfold isRuntimeModuleReloadingEnabled. by rewrite Henabled. }
  rewrite (bind_Return _ _ _ _ _ H1). cbn [negb].
  set (app1 := mkApplication (inviwoModules_ app) (getProcessorNetwork app)
                 (runtimeModuleReloading_ app)
                 (logged app ++ [LogInfo "Reloading modules"]) (invoked app)) in *.
  assert (H2 : log (LogInfo "Reloading modules") app = Return tt app1) by done.
  rewrite (bind_Return _ _ _ _ _ H2).
  set (app2 := mkApplication (inviwoModules_ app') (getProcessorNetwork app')
                 (runtimeModuleReloading_ app')
                 (logged app' ++
                    [LogException (SerializationException message) "Unable to save network"])
                 (invoked app')).
  assert (H3 : tryCatch (stream ← save; mret (Some stream))
                 (λ e, match e with
                       | SerializationException _ =>
                           Some (log (LogException e "Unable to save network");; mret None)
                       | _ => None
                       end) app1 = Return None app2).
  { unfold tryCatch, mbind, M_bind. by rewrite Hsave. }
  rewrite (bind_Return _ _ _ _ _ H3).
  exists app2. by split_and!.
Qed.

Lemma reloadModules_save_fails_witness :
  ∃ app'',
    reloadModules failingSave (λ _, mret tt) (λ _, inr 7) (λ modules, modules) 3
                  reloadApplication = Return tt app'' ∧
    inviwoModules_ app'' = inviwoModules_ reloadApplication ∧
    getProcessorNetwork app'' = getProcessorNetwork reloadApplication ∧
    invoked app'' = invoked reloadApplication.
Proof.
  destruct (reloadModules_save_fails failingSave (λ _, mret tt) (λ _, inr 7)
              (λ modules, modules) 3 reloadApplication
              (mkApplication (inviwoModules_ reloadApplication)
                 (getProcessorNetwork reloadApplication) true
                 [LogInfo "Reloading modules"] [])
              "stream error")
    as (app'' & Hrun & _ & _ & _ & _ & Hsame).
  - reflexivity.
  - reflexivity.
  - exists app''. split; [done |]. by apply Hsame.
Defined.

(** When the save step succeeds, the teardown runs: the network is cleared
    and the modules are created anew. *)
Example reloadModules_save_succeeds :
  reloadModules workingSave (λ _, mret tt) (λ _, inr 7) (λ modules, modules) 3
                reloadApplication =
  Return tt
    (mkApplication
       [ mkModuleContainer "base" "Base" [] false false (Some 7) true;
         mkModuleContainer "basegl" "BaseGL" ["base"] false false (Some 7) true ]
       (mkNetwork [] [] [] 20) true
       [LogInfo "Reloading modules"; LogCapabilities "base"; LogCapabilities "basegl"]
       [ModulesWillUnregister; ModulesDidRegister]).
Proof. by vm_compute. Qed.

(** * Further properties of the property owner *)

Lemma findByIdentifier_first h ps id :
  allLive h ps → findByIdentifier ps id h = Return (firstWithIdentifier h ps id) h.
Proof.
  induction ps as [|p ps IH]; intros Hlive; simpl; [done |].
  destruct (Hlive p) as [pr Hpr]; [apply list_elem_of_here |].
  rewrite (bind_Return _ _ _ _ _ (getProperty_Return _ _ _ Hpr)), Hpr.
  destruct (decide (identifier_ pr = id)); [done |].
  apply IH. intros q Hq. by apply Hlive, list_elem_of_further.
Qed.

Lemma getPropertyByIdentifier_first h this o id :
  owners h !! this = Some o → allLive h (properties_ o) →
  getPropertyByIdentifier 0 this id false h
  = Return (firstWithIdentifier h (properties_ o) id) h.
Proof.
  intros Ho Hlive. simpl.
  rewrite (bind_Return _ _ _ _ _ (getPropertyOwner_Return _ _ _ Ho)).
  rewrite (bind_Return _ _ _ _ _ (findByIdentifier_first _ _ id Hlive)).
  by destruct (firstWithIdentifier h (properties_ o) id).
Qed.

Lemma firstWithIdentifier_Some h ps id p :
  firstWithIdentifier h ps id = Some p →
  p ∈ ps ∧ ∃ pr, properties h !! p = Some pr ∧ identifier_ pr = id.
Proof.
  induction ps as [|q ps IH]; simpl; [done |].
  destruct (properties h !! q) as [qr|] eqn:Hq; [|done].
  destruct (decide (identifier_ qr = id)) as [Hid|Hid].
  - intros [= <-]. split; [apply list_elem_of_here | by exists qr].
  - intros [Hp Hex]%IH. split; [by apply list_elem_of_further | done].
Qed.

Lemma firstWithIdentifier_None h ps id :
  allLive h ps → firstWithIdentifier h ps id = None →
  ∀ p pr, p ∈ ps → properties h !! p = Some pr → identifier_ pr ≠ id.
Proof.
  induction ps as [|q ps IH]; intros Hlive Hnone p pr Hp Hpr.
  - by apply elem_of_nil in Hp.
  - simpl in Hnone. destruct (Hlive q) as [qr Hq]; [apply list_elem_of_here |].
    rewrite Hq in Hnone. destruct (decide (identifier_ qr = id)); [done |].
    apply elem_of_cons in Hp as [->|Hp]; [congruence |].
    eapply IH; [|done|done|done]. intros x Hx. by apply Hlive, list_elem_of_further.
Qed.

Lemma firstWithIdentifier_app h l1 l2 id :
  allLive h l1 →
  firstWithIdentifier h (l1 ++ l2) id =
  match firstWithIdentifier h l1 id with
  | Some p => Some p
  | None => firstWithIdentifier h l2 id
  end.
Proof.
  induction l1 as [|q l1 IH]; intros Hlive; simpl; [done |].
  destruct (Hlive q) as [qr Hq]; [apply list_elem_of_here |]. rewrite Hq.
  destruct (decide (identifier_ qr = id)); [done |].
  apply IH. intros x Hx. by apply Hlive, list_elem_of_further.
Qed.

Lemma firstWithIdentifier_ext h h' ps id :
  (∀ p, p ∈ ps → properties h' !! p = properties h !! p) →
  firstWithIdentifier h' ps id = firstWithIdentifier h ps id.
Proof.
  induction ps as [|q ps IH]; intros Hsame; simpl; [done |].
  rewrite (Hsame q) by apply list_elem_of_here.
  destruct (properties h !! q) as [qr|]; [|done].
  destruct (decide (identifier_ qr = id)); [done |].
  apply IH. intros x Hx. by apply Hsame, list_elem_of_further.
Qed.

Lemma allLive_take h (i : nat) ps : allLive h ps → allLive h (take i ps).
Proof. intros Hlive p Hp. apply Hlive. rewrite <- (take_drop i ps). set_solver. Qed.

Lemma allLive_drop h (i : nat) ps : allLive h ps → allLive h (drop i ps).
Proof. intros Hlive p Hp. apply Hlive. rewrite <- (take_drop i ps). set_solver. Qed.

(** X1: a property inserted under a fresh identifier is found by its
    identifier and belongs to the owner, and the owner answers every other
    identifier as before. *)
Theorem insertProperty_then_getPropertyByIdentifier
    (h : Heap) (this : Addr) (index : nat) (property : Addr) (owner : bool)
    (o : PropertyOwner) (pr : Property) :
  owners h !! this = Some o →
  allLive h (properties_ o) →
  properties h !! property = Some pr →
  (∀ q qr, q ∈ properties_ o → properties h !! q = Some qr →
           identifier_ qr ≠ identifier_ pr) →
  this ≠ property →
  ∃ h' pr',
    insertProperty this index property owner h = Return tt h' ∧
    getPropertyByIdentifier 0 this (identifier_ pr) false h' = Return (Some property) h' ∧
    properties h' !! property = Some pr' ∧ owner_ pr' = Some this ∧
    ∀ id, id ≠ identifier_ pr →
          ∃ r, getPropertyByIdentifier 0 this id false h = Return r h ∧
               getPropertyByIdentifier 0 this id false h' = Return r h'.
Proof.
  intros Ho Hlive Hpr Hfresh Hne.
  set (i := index `min` length (properties_ o)).
  set (h' := inserted h this i property owner o pr).
  assert (Hnotin : property ∉ properties_ o).
  { intros Hin. by apply (Hfresh property pr). }
  assert (Hsame : ∀ p, p ∈ properties_ o → properties h' !! p = properties h !! p).
  { intros p Hp. unfold h', inserted. simpl. rewrite lookup_insert_ne; [done |].
    intros ->. done. }
  destruct (properties h' !! property) as [pr'|] eqn:Hpr'.
  2: { unfold h', inserted in Hpr'. simpl in Hpr'. by rewrite lookup_insert_eq in Hpr'. }
  assert (Hpr'' := Hpr').
  unfold h', inserted in Hpr''. simpl in Hpr''. rewrite lookup_insert_eq in Hpr''.
  injection Hpr'' as Hpr''.
  assert (Ho' : ∃ o', owners h' !! this = Some o' ∧
                      properties_ o' = vectorInsert i property (properties_ o)).
  { eexists. unfold h', inserted. simpl. rewrite lookup_insert_eq. done. }
  destruct Ho' as (o' & Ho' & Hps).
  assert (Hlive' : allLive h' (properties_ o')).
  { rewrite Hps. intros p Hp. unfold vectorInsert in Hp.
    apply elem_of_app in Hp as [Hp|Hp].
    - rewrite Hsame; [apply Hlive|]; rewrite <- (take_drop i (properties_ o)); set_solver.
    - apply elem_of_cons in Hp as [->|Hp]; [by eexists |].
      rewrite Hsame; [apply Hlive|]; rewrite <- (take_drop i (properties_ o)); set_solver. }
  assert (Hfirst : ∀ id,
    firstWithIdentifier h' (properties_ o') id =
    match firstWithIdentifier h (take i (properties_ o)) id with
    | Some p => Some p
    | None => if decide (identifier_ pr = id) then Some property
              else firstWithIdentifier h (drop i (properties_ o)) id
    end).
  { intros id. rewrite Hps. unfold vectorInsert.
    assert (Htake : allLive h' (take i (properties_ o))).
    { intros p Hp. rewrite Hsame; [by apply (allLive_take h i _ Hlive) |].
      rewrite <- (take_drop i (properties_ o)). set_solver. }
    rewrite (firstWithIdentifier_app _ _ _ _ Htake).
    rewrite (firstWithIdentifier_ext h h' (take i (properties_ o))).
    2: { intros p Hp. apply Hsame. rewrite <- (take_drop i (properties_ o)). set_solver. }
    destruct (firstWithIdentifier h (take i (properties_ o)) id); [done |].
    cbn [firstWithIdentifier]. rewrite Hpr'. rewrite <- Hpr''. cbn [identifier_].
    destruct (decide (identifier_ pr = id)); [done |].
    apply firstWithIdentifier_ext.
    intros p Hp. apply Hsame. rewrite <- (take_drop i (properties_ o)). set_solver. }
  exists h', pr'. split_and!.
  - by apply insertProperty_success.
  - rewrite (getPropertyByIdentifier_first h' this o' _ Ho' Hlive'), Hfirst.
    destruct (firstWithIdentifier h (take i (properties_ o)) (identifier_ pr)) as [p|] eqn:Hp.
    + apply firstWithIdentifier_Some in Hp as (Hp & qr & Hqr & Hid).
      destruct (Hfresh p qr); [|done|done].
      rewrite <- (take_drop i (properties_ o)). set_solver.
    + by rewrite decide_True.
  - done.
  - by rewrite <- Hpr''.
  - intros id Hid. exists (firstWithIdentifier h (properties_ o) id). split.
    + by apply getPropertyByIdentifier_first.
    + rewrite (getPropertyByIdentifier_first h' this o' _ Ho' Hlive'), Hfirst.
      assert (Hsplit : firstWithIdentifier h (properties_ o) id =
                       firstWithIdentifier h (take i (properties_ o) ++
                                              drop i (properties_ o)) id)
        by (by rewrite take_drop).
      rewrite Hsplit.
      rewrite (firstWithIdentifier_app _ _ _ _ (allLive_take h i _ Hlive)).
      destruct (firstWithIdentifier h (take i (properties_ o)) id); [done |].
      by rewrite decide_False.
Qed.

Lemma insertProperty_cases h this index property owner o pr :
  owners h !! this = Some o →
  allLive h (properties_ o) →
  properties h !! property = Some pr →
  (∃ existing ex,
     firstWithIdentifier h (properties_ o) (identifier_ pr) = Some existing ∧
     existing ∈ properties_ o ∧ properties h !! existing = Some ex ∧
     identifier_ ex = identifier_ pr ∧
     insertProperty this index property owner h =
     Throw (IdentifierAlreadyUsed (identifier_ pr) (classIdentifier_ pr) this
                                  (identifier_ ex) (classIdentifier_ ex)) h) ∨
  ((∀ q qr, q ∈ properties_ o → properties h !! q = Some qr →
            identifier_ qr ≠ identifier_ pr) ∧
   this = property ∧
   insertProperty this index property owner h =
   Throw (AddToItself (identifier_ pr) (classIdentifier_ pr)) h) ∨
  ((∀ q qr, q ∈ properties_ o → properties h !! q = Some qr →
            identifier_ qr ≠ identifier_ pr) ∧
   this ≠ property ∧
   insertProperty this index property owner h =
   Return tt (inserted h this (index `min` length (properties_ o)) property owner o pr)).
Proof.
  intros Ho Hlive Hpr.
  destruct (firstWithIdentifier h (properties_ o) (identifier_ pr)) as [existing|] eqn:Hfirst.
  - left. destruct (firstWithIdentifier_Some _ _ _ _ Hfirst) as (Hin & ex & Hex & Hid).
    exists existing, ex. split_and!; [done | done | done | done |].
    unfold insertProperty.
    rewrite (bind_Return _ _ _ _ _ (getPropertyOwner_Return _ _ _ Ho)).
    rewrite (bind_Return _ _ _ _ _ (getProperty_Return _ _ _ Hpr)).
    rewrite (bind_Return _ _ _ _ _ (getPropertyByIdentifier_first _ _ _ _ Ho Hlive)).
    rewrite Hfirst.
    by rewrite (bind_Return _ _ _ _ _ (getProperty_Return _ _ _ Hex)).
  - right. pose proof (firstWithIdentifier_None _ _ _ Hlive Hfirst) as Hfresh.
    destruct (decide (this = property)) as [Heq|Hne].
    + left. split_and!; [done | done |].
      unfold insertProperty.
      rewrite (bind_Return _ _ _ _ _ (getPropertyOwner_Return _ _ _ Ho)).
      rewrite (bind_Return _ _ _ _ _ (getProperty_Return _ _ _ Hpr)).
      rewrite (bind_Return _ _ _ _ _ (getPropertyByIdentifier_first _ _ _ _ Ho Hlive)).
      rewrite Hfirst.
      assert (Hparent : asProperty this h = Return (Some pr) h).
      { unfold asProperty. by rewrite Heq, Hpr. }
      rewrite (bind_Return _ _ _ _ _ Hparent).
      by destruct (decide (this = property)).
    + right. split_and!; [done | done |]. by apply insertProperty_success.
Qed.

Lemma elem_of_vectorInsert_iff {A : Type} (i : nat) (x y : A) (v : list A) :
  y ∈ vectorInsert i x v ↔ y = x ∨ y ∈ v.
Proof.
  unfold vectorInsert. rewrite <- (take_drop i v) at 3.
  rewrite !elem_of_app, elem_of_cons. tauto.
Qed.

Lemma NoDup_vectorInsert {A : Type} (i : nat) (x : A) (v : list A) :
  NoDup v → x ∉ v → NoDup (vectorInsert i x v).
Proof.
  intros Hnd Hx. unfold vectorInsert.
  rewrite <- (take_drop i v) in Hnd, Hx.
  apply NoDup_app in Hnd as (Ht & Hdisj & Hd).
  apply NoDup_app. split_and!; [done | |].
  - intros y Hy [->|Hyd]%elem_of_cons; [set_solver | by apply (Hdisj y)].
  - apply NoDup_cons. split; [set_solver | done].
Qed.

(** X2: an owner whose properties have pairwise distinct identifiers keeps
    them so through every [insertProperty], whether the call returns or
    throws; the call neither faults nor leaves a dangling pointer in the
    list. *)
Theorem insertProperty_keeps_identifiers_unique
    (h : Heap) (this : Addr) (index : nat) (property : Addr) (owner : bool)
    (o : PropertyOwner) :
  owners h !! this = Some o →
  allLive h (properties_ o) →
  is_Some (properties h !! property) →
  uniqueIdentifiers h (properties_ o) →
  NoDup (properties_ o) →
  match insertProperty this index property owner h with
  | Return _ h' | Throw _ h' =>
      ∃ o', owners h' !! this = Some o' ∧ allLive h' (properties_ o') ∧
            uniqueIdentifiers h' (properties_ o') ∧ NoDup (properties_ o')
  | Fault | OutOfFuel => False
  end.
Proof.
  intros Ho Hlive [pr Hpr] Huniq Hnd.
  destruct (insertProperty_cases h this index property owner o pr Ho Hlive Hpr)
    as [(existing & ex & _ & _ & _ & _ & ->) | [(_ & _ & ->) | (Hfresh & Hne & ->)]].
  - by exists o.
  - by exists o.
  - set (i := index `min` length (properties_ o)).
    assert (Hnotin : property ∉ properties_ o).
    { intros Hin. by apply (Hfresh property pr). }
    eexists. unfold inserted. cbn [owners properties]. rewrite lookup_insert_eq.
    split; [done |]. cbn [properties_]. split_and!.
    + intros p [->|Hp]%elem_of_vectorInsert_iff; cbn [properties].
      * rewrite lookup_insert_eq. by eexists.
      * rewrite lookup_insert_ne by (by intros ->). by apply Hlive.
    + intros p q ppr qpr [->|Hp]%elem_of_vectorInsert_iff [->|Hq]%elem_of_vectorInsert_iff;
        cbn [properties].
      * done.
      * rewrite lookup_insert_eq, lookup_insert_ne by (by intros ->).
        intros [= <-] Hq' Hid. simpl in Hid. by destruct (Hfresh q qpr).
      * rewrite lookup_insert_ne by (by intros ->). rewrite lookup_insert_eq.
        intros Hp' [= <-] Hid. simpl in Hid. by destruct (Hfresh p ppr).
      * rewrite !lookup_insert_ne by (by intros ->). by apply Huniq.
    + by apply NoDup_vectorInsert.
Qed.

(** X3: a composite property whose children do not use its own identifier
    cannot be added to itself: [insertProperty] throws and the store is the
    one of the call. *)
Theorem insertProperty_into_itself
    (h : Heap) (this : Addr) (index : nat) (owner : bool)
    (o : PropertyOwner) (pr : Property) :
  owners h !! this = Some o →
  properties h !! this = Some pr →
  allLive h (properties_ o) →
  (∀ q qr, q ∈ properties_ o → properties h !! q = Some qr →
           identifier_ qr ≠ identifier_ pr) →
  insertProperty this index this owner h =
    Throw (AddToItself (identifier_ pr) (classIdentifier_ pr)) h ∧
  addProperty this this owner h =
    Throw (AddToItself (identifier_ pr) (classIdentifier_ pr)) h.
Proof.
  intros Ho Hpr Hlive Hfresh.
  assert (Hall : ∀ i, insertProperty this i this owner h =
                      Throw (AddToItself (identifier_ pr) (classIdentifier_ pr)) h).
  { intros i.
    destruct (insertProperty_cases h this i this owner o pr Ho Hlive Hpr)
      as [(existing & ex & _ & Hin & Hex & Hid & _) | [(_ & _ & ->) | (_ & Hne & _)]];
      [by destruct (Hfresh existing ex) | done | done]. }
  split; [apply Hall |].
  unfold addProperty.
  rewrite (bind_Return _ _ _ _ _ (getPropertyOwner_Return _ _ _ Ho)). apply Hall.
Qed.

Lemma erase_notin (x : Addr) (v : list Addr) : x ∉ v → erase x v = v.
Proof.
  intros Hx. unfold erase. induction v as [|y v IH]; [done |].
  rewrite filter_cons. destruct (decide (y ≠ x)) as [Hy|Hy].
  - f_equal. apply IH. set_solver.
  - exfalso. apply Hx. apply dec_stable in Hy. subst. apply list_elem_of_here.
Qed.

Lemma elem_of_erase (x y : Addr) (v : list Addr) : y ∈ erase x v ↔ y ∈ v ∧ y ≠ x.
Proof. unfold erase. rewrite list_elem_of_filter. tauto. Qed.

Lemma removePropertyImplWith_end ownerClear h this it o :
  owners h !! this = Some o → properties_ o !! it = None →
  removePropertyImplWith ownerClear this it h = Return None h.
Proof.
  intros Ho Hit. unfold removePropertyImplWith.
  rewrite (bind_Return _ _ _ _ _ (getPropertyOwner_Return _ _ _ Ho)). by rewrite Hit.
Qed.

Lemma modifyPropertyOwner_Return h this o f :
  owners h !! this = Some o →
  modifyPropertyOwner this f h =
  Return tt (mkHeap (properties h) (<[this := f o]> (owners h)) (notifications h)).
Proof. intros Ho. unfold modifyPropertyOwner, mbind, M_bind, getPropertyOwner. by rewrite Ho. Qed.

Lemma modifyProperty_Return h p pr f :
  properties h !! p = Some pr →
  modifyProperty p f h =
  Return tt (mkHeap (<[p := f pr]> (properties h)) (owners h) (notifications h)).
Proof. intros Hp. unfold modifyProperty, mbind, M_bind, getProperty. by rewrite Hp. Qed.

Ltac step H := rewrite (bind_Return _ _ _ _ _ H).
Ltac step_with tac :=
  erewrite bind_Return; [| tac].

Lemma Property_delete_plain ownerClear h p pr :
  properties h !! p = Some pr → dynamicType pr ≠ CompositeProperty →
  Property_delete ownerClear p h =
  Return tt (mkHeap (delete p (properties h)) (delete p (owners h)) (notifications h)).
Proof.
  intros Hp Hplain. unfold Property_delete.
  step (getProperty_Return _ _ _ Hp).
  by destruct (decide (dynamicType pr = CompositeProperty)).
Qed.

Lemma removePropertyImplWith_found ownerClear h this it o prop pr :
  owners h !! this = Some o → properties_ o !! it = Some prop →
  properties h !! prop = Some pr →
  (prop ∈ ownedProperties_ o → dynamicType pr ≠ CompositeProperty) →
  removePropertyImplWith ownerClear this it h =
  Return (if decide (prop ∈ ownedProperties_ o) then None else Some prop)
         (removed h this it prop o pr).
Proof.
  intros Ho Hit Hpr Hplain. unfold removePropertyImplWith.
  step (getPropertyOwner_Return _ _ _ Ho). rewrite Hit.
  step_with ltac:(reflexivity).
  step_with ltac:(apply modifyPropertyOwner_Return; exact Ho).
  step_with ltac:(apply modifyPropertyOwner_Return; cbn [owners]; apply lookup_insert_eq).
  unfold setOwner.
  step_with ltac:(apply modifyProperty_Return; exact Hpr).
  step_with ltac:(apply modifyPropertyOwner_Return; cbn [owners]; apply lookup_insert_eq).
  step_with ltac:(reflexivity).
  step_with ltac:(apply getPropertyOwner_Return; cbn [owners]; apply lookup_insert_eq).
  cbn [ownedProperties_ properties_ eventProperties_ compositeProperties_
       invalidationLevel_ observers_ owners properties notifications].
  rewrite !insert_insert_eq, <- !app_assoc.
  unfold removed, withoutProperty.
  destruct (decide (prop ∈ ownedProperties_ o)) as [Hown|Hown].
  2: { by rewrite (erase_notin prop (ownedProperties_ o)). }
  step_with ltac:(apply modifyPropertyOwner_Return; cbn [owners]; apply lookup_insert_eq).
  step_with ltac:(eapply Property_delete_plain;
                  [cbn [properties]; apply lookup_insert_eq | by apply Hplain]).
  cbn [ownedProperties_ properties_ eventProperties_ compositeProperties_
       invalidationLevel_ observers_ owners properties notifications].
  by rewrite !insert_insert_eq, delete_insert_eq.
Qed.

Lemma findIndex_notin (ps : list Addr) (p : Addr) :
  p ∉ ps → ps !! findIndex ps p = None.
Proof.
  intros Hp. unfold findIndex.
  destruct (list_find (λ q, q = p) ps) as [[i q]|] eqn:Hfind.
  - apply list_find_Some in Hfind as (Hq & -> & _). exfalso. apply Hp.
    by eapply list_elem_of_lookup_2.
  - by apply lookup_ge_None_2.
Qed.

Lemma findIndex_elem_of (ps : list Addr) (p : Addr) :
  p ∈ ps → ps !! findIndex ps p = Some p.
Proof.
  intros Hp. unfold findIndex.
  destruct (list_find (λ q, q = p) ps) as [[i q]|] eqn:Hfind.
  - by apply list_find_Some in Hfind as (Hq & -> & _).
  - apply list_find_None in Hfind. rewrite Forall_forall in Hfind.
    by destruct (Hfind p Hp).
Qed.

Lemma findIndex_vectorInsert (i : nat) (p : Addr) (ps : list Addr) :
  p ∉ ps → i ≤ length ps → findIndex (vectorInsert i p ps) p = i.
Proof.
  intros Hp Hi. unfold findIndex, vectorInsert.
  assert (Hfind : list_find (λ q, q = p) (take i ps ++ p :: drop i ps) = Some (i, p)).
  { apply list_find_Some. split_and!; [| done |].
    - rewrite lookup_app_r by (rewrite length_take; lia).
      rewrite length_take. by replace (i - i `min` length ps) with 0 by lia.
    - intros j y Hj Hlt ->. apply Hp.
      rewrite lookup_app_l in Hj by (rewrite length_take; lia).
      apply list_elem_of_lookup_2 in Hj. rewrite <- (take_drop i ps). set_solver. }
  by rewrite Hfind.
Qed.

Lemma delete_vectorInsert {A : Type} (i : nat) (x : A) (v : list A) :
  i ≤ length v → delete i (vectorInsert i x v) = v.
Proof.
  intros Hi. unfold vectorInsert.
  assert (Hlen : length (take i v) = i) by (rewrite length_take; lia).
  rewrite <- Hlen at 1. rewrite (delete_middle (take i v) (drop i v) x).
  apply take_drop.
Qed.

Lemma findIndexByIdentifier_absent h ps id :
  allLive h ps →
  (∀ p pr, p ∈ ps → properties h !! p = Some pr → identifier_ pr ≠ id) →
  findIndexByIdentifier ps id h = Return (length ps) h.
Proof.
  induction ps as [|p ps IH]; intros Hlive Hnone; simpl; [done |].
  destruct (Hlive p) as [pr Hpr]; [apply list_elem_of_here |].
  step (getProperty_Return _ _ _ Hpr).
  destruct (decide (identifier_ pr = id)) as [Hid|Hid].
  - destruct (Hnone p pr); [apply list_elem_of_here | done | done].
  - assert (Hrest : findIndexByIdentifier ps id h = Return (length ps) h).
    { apply IH.
      - intros q Hq. by apply Hlive, list_elem_of_further.
      - intros q qr Hq. apply Hnone. by apply list_elem_of_further. }
    by step Hrest.
Qed.

(** X4: removing what is not there changes nothing: [removeProperty] with a
    pointer that is not in the list, or an identifier that no property of
    the owner has, returns [nullptr]; an index that is not below the size
    throws the range exception.  No notification is sent. *)
Theorem removeProperty_absent
    (fuel : nat) (h : Heap) (this : Addr) (o : PropertyOwner) :
  owners h !! this = Some o →
  allLive h (properties_ o) →
  (∀ property, property ∉ properties_ o →
               removeProperty fuel this property h = Return None h) ∧
  (∀ id, (∀ p pr, p ∈ properties_ o → properties h !! p = Some pr →
                  identifier_ pr ≠ id) →
         removePropertyByIdentifier fuel this id h = Return None h) ∧
  (∀ index, length (properties_ o) ≤ index →
            removePropertyAt fuel this index h =
            Throw (RangeException index (length (properties_ o))) h).
Proof.
  intros Ho Hlive. split_and!.
  - intros property Hnotin. unfold removeProperty, removePropertyImpl.
    step (getPropertyOwner_Return _ _ _ Ho).
    apply (removePropertyImplWith_end _ _ _ _ o Ho). by apply findIndex_notin.
  - intros id Hnone. unfold removePropertyByIdentifier, removePropertyImpl.
    step (getPropertyOwner_Return _ _ _ Ho).
    step (findIndexByIdentifier_absent _ _ _ Hlive Hnone).
    apply (removePropertyImplWith_end _ _ _ _ o Ho). by apply lookup_ge_None_2.
  - intros index Hge. unfold removePropertyAt.
    step (getPropertyOwner_Return _ _ _ Ho).
    by rewrite decide_True.
Qed.

(** X5: inserting a property that the owner does not own and removing it
    again restores the owner: [removeProperty] returns the property, the
    owner is the one before the insertion, the property has no owner any
    more, and the observers have seen the insertion and the removal at the
    same (clamped) position. *)
Theorem insertProperty_then_removeProperty
    (fuel : nat) (h : Heap) (this : Addr) (index : nat) (property : Addr)
    (o : PropertyOwner) (pr : Property) :
  owners h !! this = Some o →
  allLive h (properties_ o) →
  properties h !! property = Some pr →
  (∀ q qr, q ∈ properties_ o → properties h !! q = Some qr →
           identifier_ qr ≠ identifier_ pr) →
  this ≠ property →
  property ∉ eventProperties_ o ++ compositeProperties_ o ++ ownedProperties_ o →
  ∃ h1 h2,
    insertProperty this index property false h = Return tt h1 ∧
    removeProperty fuel this property h1 = Return (Some property) h2 ∧
    owners h2 = owners h ∧
    properties h2 = <[property := withOwner None pr]> (properties h) ∧
    notifications h2 =
      notifications h ++
      [(this, WillAddProperty this property (index `min` length (properties_ o)));
       (this, DidAddProperty property (index `min` length (properties_ o)));
       (this, WillRemoveProperty property (index `min` length (properties_ o)));
       (this, DidRemoveProperty this property (index `min` length (properties_ o)))].
Proof.
  intros Ho Hlive Hpr Hfresh Hne Hside.
  set (i := index `min` length (properties_ o)).
  assert (Hnotin : property ∉ properties_ o).
  { intros Hin. by apply (Hfresh property pr). }
  pose proof (insertProperty_success h this index property false o pr
                Ho Hlive Hpr Hfresh Hne) as Hins.
  fold i in Hins.
  set (h1 := inserted h this i property false o pr) in *.
  set (o1 := mkPropertyOwner
               (vectorInsert i property (properties_ o))
               (eventProperties_ o ++
                  if decide (dynamicType pr = EventProperty) then [property] else [])
               (compositeProperties_ o ++
                  if decide (dynamicType pr = CompositeProperty) then [property] else [])
               (ownedProperties_ o ++ [])
               (invalidationLevel_ o) (observers_ o)).
  assert (Ho1 : owners h1 !! this = Some o1) by apply lookup_insert_eq.
  set (pr1 := mkProperty (identifier_ pr) (classIdentifier_ pr) (value_ pr) (dynamicType pr)
                         (serializationMode_ pr) (Some this) (propertyModified_ pr)).
  assert (Hpr1 : properties h1 !! property = Some pr1) by apply lookup_insert_eq.
  assert (Hown1 : property ∉ ownedProperties_ o1).
  { unfold o1. cbn [ownedProperties_]. rewrite app_nil_r. set_solver. }
  assert (Hidx : findIndex (properties_ o1) property = i).
  { apply findIndex_vectorInsert; [done | lia]. }
  assert (Hit : properties_ o1 !! i = Some property).
  { rewrite <- Hidx. apply findIndex_elem_of. apply elem_of_vectorInsert_iff. by left. }
  pose proof (removePropertyImplWith_found (clear fuel) h1 this i o1 property pr1
                Ho1 Hit Hpr1 (λ H, False_rect _ (Hown1 H))) as Hrem.
  rewrite decide_False in Hrem by done.
  exists h1, (removed h1 this i property o1 pr1). split_and!.
  - done.
  - unfold removeProperty, removePropertyImpl.
    step (getPropertyOwner_Return _ _ _ Ho1). by rewrite Hidx.
  - unfold removed. cbn [owners].
    destruct (decide (property ∈ ownedProperties_ o1)); [done |].
    unfold h1, inserted. cbn [owners]. rewrite insert_insert_eq.
    apply insert_id. rewrite Ho. f_equal.
    unfold withoutProperty, o1.
    cbn [ownedProperties_ properties_ eventProperties_ compositeProperties_
         invalidationLevel_ observers_].
    rewrite delete_vectorInsert by lia. rewrite app_nil_r.
    assert (He : erase property (eventProperties_ o ++
                    if decide (dynamicType pr = EventProperty) then [property] else [])
                 = eventProperties_ o).
    { unfold erase. rewrite filter_app.
      fold (erase property (eventProperties_ o)).
      rewrite erase_notin by set_solver.
      destruct (decide (dynamicType pr = EventProperty)).
      - rewrite filter_cons, decide_False by (by intros ?). by rewrite app_nil_r.
      - by rewrite app_nil_r. }
    assert (Hc : erase property (compositeProperties_ o ++
                    if decide (dynamicType pr = CompositeProperty) then [property] else [])
                 = compositeProperties_ o).
    { unfold erase. rewrite filter_app.
      fold (erase property (compositeProperties_ o)).
      rewrite erase_notin by set_solver.
      destruct (decide (dynamicType pr = CompositeProperty)).
      - rewrite filter_cons, decide_False by (by intros ?). by rewrite app_nil_r.
      - by rewrite app_nil_r. }
    rewrite He, Hc, erase_notin by set_solver. by destruct o.
  - unfold removed. cbn [properties].
    destruct (decide (property ∈ ownedProperties_ o1)); [done |].
    unfold h1, inserted. cbn [properties]. by rewrite insert_insert_eq.
  - unfold removed. cbn [notifications]. unfold h1, inserted. cbn [notifications].
    by rewrite <- app_assoc.
Qed.

Lemma elem_of_delete_NoDup (i : nat) (x y : Addr) (ps : list Addr) :
  NoDup ps → ps !! i = Some x → y ∈ delete i ps ↔ y ∈ ps ∧ y ≠ x.
Proof.
  intros Hnd Hi. rewrite delete_take_drop.
  pose proof (take_drop_middle ps i x Hi) as Hps.
  revert Hps. generalize (take i ps) (drop (S i) ps). intros l1 l2 <-.
  apply NoDup_app in Hnd as (Ht & Hdisj & [Hx Hd]%NoDup_cons).
  rewrite !elem_of_app, elem_of_cons. split.
  - intros [Hy|Hy].
    + split; [by left |]. intros ->. apply (Hdisj x Hy). apply list_elem_of_here.
    + split; [by right; right |]. by intros ->.
  - intros [[Hy|[->|Hy]] Hne]; [by left | done | by right].
Qed.

Lemma removed_owner h this it prop o pr :
  (prop ∈ ownedProperties_ o → prop ≠ this) →
  owners (removed h this it prop o pr) !! this = Some (withoutProperty it prop o).
Proof.
  intros Hne. unfold removed. cbn [owners].
  destruct (decide (prop ∈ ownedProperties_ o)) as [Hown|Hown].
  - rewrite lookup_delete_ne by (by apply Hne). apply lookup_insert_eq.
  - apply lookup_insert_eq.
Qed.

Lemma removed_properties_ne h this it prop o pr a :
  a ≠ prop → properties (removed h this it prop o pr) !! a = properties h !! a.
Proof.
  intros Hne. unfold removed. cbn [properties].
  destruct (decide (prop ∈ ownedProperties_ o)).
  - by rewrite lookup_delete_ne.
  - by rewrite lookup_insert_ne.
Qed.

Lemma removed_properties_eq h this it prop o pr :
  properties (removed h this it prop o pr) !! prop =
  if decide (prop ∈ ownedProperties_ o) then None else Some (withOwner None pr).
Proof.
  unfold removed. cbn [properties].
  destruct (decide (prop ∈ ownedProperties_ o)).
  - apply lookup_delete_eq.
  - apply lookup_insert_eq.
Qed.

(** X6: after a property of the owner is removed, the owner no longer finds
    it by its identifier and answers every other identifier as before; the
    property is returned without owner, or destroyed (and [nullptr]
    returned) when the owner owned it. *)
Theorem removeProperty_then_getPropertyByIdentifier
    (fuel : nat) (h : Heap) (this : Addr) (property : Addr)
    (o : PropertyOwner) (pr : Property) :
  owners h !! this = Some o →
  allLive h (properties_ o) →
  NoDup (properties_ o) →
  uniqueIdentifiers h (properties_ o) →
  property ∈ properties_ o →
  properties h !! property = Some pr →
  (property ∈ ownedProperties_ o →
   dynamicType pr ≠ CompositeProperty ∧ owners h !! property = None) →
  ∃ h',
    removeProperty fuel this property h =
      Return (if decide (property ∈ ownedProperties_ o) then None else Some property) h' ∧
    properties h' !! property =
      (if decide (property ∈ ownedProperties_ o) then None
       else Some (withOwner None pr)) ∧
    getPropertyByIdentifier 0 this (identifier_ pr) false h' = Return None h' ∧
    ∀ id, id ≠ identifier_ pr →
          ∃ r, getPropertyByIdentifier 0 this id false h = Return r h ∧
               getPropertyByIdentifier 0 this id false h' = Return r h'.
Proof.
  intros Ho Hlive Hnd Huniq Hin Hpr Hown.
  set (i := findIndex (properties_ o) property).
  assert (Hit : properties_ o !! i = Some property) by (by apply findIndex_elem_of).
  set (h' := removed h this i property o pr).
  assert (Ho' : owners h' !! this = Some (withoutProperty i property o)).
  { apply removed_owner. intros [_ Hnone]%Hown ->. congruence. }
  assert (Hsame : ∀ q, q ∈ delete i (properties_ o) →
                       properties h' !! q = properties h !! q).
  { intros q [_ Hq]%(elem_of_delete_NoDup i property q _ Hnd Hit).
    by apply removed_properties_ne. }
  assert (Hlive' : allLive h' (delete i (properties_ o))).
  { intros q Hq. rewrite (Hsame q Hq).
    apply Hlive. by apply (elem_of_delete_NoDup i property q _ Hnd Hit). }
  assert (Hfirst : ∀ id, getPropertyByIdentifier 0 this id false h' =
                         Return (firstWithIdentifier h (delete i (properties_ o)) id) h').
  { intros id. rewrite (getPropertyByIdentifier_first h' this _ id Ho' Hlive').
    f_equal. by apply firstWithIdentifier_ext. }
  exists h'. split_and!.
  - unfold removeProperty, removePropertyImpl.
    step (getPropertyOwner_Return _ _ _ Ho).
    apply removePropertyImplWith_found; [done | done | done |]. by intros [? _]%Hown.
  - apply removed_properties_eq.
  - rewrite Hfirst.
    destruct (firstWithIdentifier h (delete i (properties_ o)) (identifier_ pr))
      as [q|] eqn:Hq; [|done].
    apply firstWithIdentifier_Some in Hq as (Hq & qr & Hqr & Hid).
    apply (elem_of_delete_NoDup i property q _ Hnd Hit) in Hq as [Hq Hne].
    destruct Hne. by apply (Huniq q property qr pr).
  - intros id Hid. exists (firstWithIdentifier h (properties_ o) id). split.
    + by apply getPropertyByIdentifier_first.
    + rewrite Hfirst. f_equal.
      rewrite delete_take_drop.
      rewrite <- (take_drop_middle (properties_ o) i property Hit) at 3.
      rewrite !(firstWithIdentifier_app _ _ _ _ (allLive_take h i _ Hlive)).
      destruct (firstWithIdentifier h (take i (properties_ o)) id); [done |].
      cbn [firstWithIdentifier]. rewrite Hpr. by rewrite decide_False.
Qed.

Lemma filter_all (P : Addr → Prop) `{!∀ y, Decision (P y)} (v : list Addr) :
  (∀ y, y ∈ v → P y) → filter P v = v.
Proof.
  induction v as [|y v IH]; intros Hall; [done |].
  rewrite filter_cons_True by (apply Hall; apply list_elem_of_here).
  f_equal. apply IH. intros z Hz. by apply Hall, list_elem_of_further.
Qed.

Lemma filter_none (P : Addr → Prop) `{!∀ y, Decision (P y)} (v : list Addr) :
  (∀ y, y ∈ v → ¬ P y) → filter P v = [].
Proof.
  induction v as [|y v IH]; intros Hall; [done |].
  rewrite filter_cons_False by (apply Hall; apply list_elem_of_here).
  apply IH. intros z Hz. by apply Hall, list_elem_of_further.
Qed.

Lemma clear_nonempty fuel this h o :
  owners h !! this = Some o → properties_ o ≠ [] →
  clear (S fuel) this h =
  (removePropertyImplWith (clear fuel) this (length (properties_ o) - 1);;
   clear fuel this) h.
Proof.
  intros Ho Hne. cbn [clear].
  step (getPropertyOwner_Return _ _ _ Ho). by destruct (properties_ o).
Qed.

Lemma snoc_of_length {A : Type} (l : list A) n :
  length l = S n → ∃ l' x, l = l' ++ [x] ∧ length l' = n.
Proof.
  destruct l as [|y l] using rev_ind; [done |].
  rewrite length_app. simpl. intros Hlen. exists l, y. split; [done | lia].
Qed.

Lemma filter_erase (P : Addr → Prop) `{!∀ y, Decision (P y)} (x : Addr) (v : list Addr) :
  filter P (erase x v) = filter (λ y, P y ∧ y ≠ x) v.
Proof.
  unfold erase. induction v as [|y v IH]; [done |].
  rewrite !filter_cons.
  destruct (decide (y ≠ x)) as [Hy|Hy].
  - rewrite filter_cons.
    destruct (decide (P y)) as [HP|HP].
    + rewrite decide_True by done. by rewrite IH.
    + rewrite decide_False by tauto. done.
  - rewrite decide_False by tauto. done.
Qed.

Lemma clear_loop this n :
  ∀ fuel h o,
    length (properties_ o) = n → n < fuel →
    owners h !! this = Some o →
    allLive h (properties_ o) →
    NoDup (properties_ o) →
    (∀ p pr, p ∈ properties_ o → p ∈ ownedProperties_ o →
             properties h !! p = Some pr →
             dynamicType pr ≠ CompositeProperty ∧ owners h !! p = None) →
    ∃ h',
      clear fuel this h = Return tt h' ∧
      owners h' !! this = Some (cleared o) ∧
      (∀ a, a ≠ this → owners h' !! a = owners h !! a) ∧
      (∀ a, properties h' !! a =
            if decide (a ∈ properties_ o)
            then if decide (a ∈ ownedProperties_ o) then None
                 else withOwner None <$> properties h !! a
            else properties h !! a) ∧
      notifications h' = notifications h ++ clearNotifications this (properties_ o).
Proof.
  induction n as [|n IH]; intros fuel h o Hlen Hfuel Ho Hlive Hnd Hown.
  - destruct fuel as [|fuel]; [lia |].
    apply length_zero_iff_nil in Hlen.
    exists h. split_and!.
    + cbn [clear]. step (getPropertyOwner_Return _ _ _ Ho). by rewrite Hlen.
    + rewrite Ho. f_equal. unfold cleared. rewrite Hlen.
      rewrite !(filter_all (λ y : Addr, y ∉ [])) by (intros ??; set_solver).
      destruct o; simpl in *; by subst.
    + done.
    + intros a. rewrite Hlen. by rewrite decide_False by set_solver.
    + rewrite Hlen. unfold clearNotifications. simpl. by rewrite app_nil_r.
  - destruct fuel as [|fuel]; [lia |].
    destruct (snoc_of_length _ _ Hlen) as (ps & x & Hps & Hlen').
    assert (Hx : x ∈ properties_ o) by (rewrite Hps; set_solver).
    destruct (Hlive x Hx) as [pr Hpr].
    assert (Hit : properties_ o !! n = Some x).
    { rewrite Hps, <- Hlen'. by apply list_lookup_middle. }
    assert (Hxps : x ∉ ps).
    { rewrite Hps in Hnd. apply NoDup_app in Hnd as (_ & Hdisj & _).
      intros Hin. apply (Hdisj x Hin). set_solver. }
    set (h1 := removed h this n x o pr).
    set (o1 := withoutProperty n x o).
    assert (Hdel : properties_ o1 = ps).
    { unfold o1, withoutProperty. cbn [properties_].
      rewrite Hps, <- Hlen'. rewrite delete_middle. apply app_nil_r. }
    assert (Hrem : removePropertyImplWith (clear fuel) this n h =
                   Return (if decide (x ∈ ownedProperties_ o) then None else Some x) h1).
    { apply removePropertyImplWith_found; [done | done | done |].
      intros Hxo. by destruct (Hown x pr Hx Hxo Hpr). }
    assert (Ho1 : owners h1 !! this = Some o1).
    { apply removed_owner. intros Hxo Heq.
      destruct (Hown x pr Hx Hxo Hpr) as [_ Hn]. rewrite Heq in Hn. congruence. }
    destruct (IH fuel h1 o1) as (h' & Hrun & Howner & Hothers & Hprops & Hnotes).
    { by rewrite Hdel. }
    { lia. }
    { done. }
    { rewrite Hdel. intros p Hp. unfold h1.
      rewrite removed_properties_ne by (by intros ->).
      apply Hlive. rewrite Hps. set_solver. }
    { rewrite Hdel. rewrite Hps in Hnd. by apply NoDup_app in Hnd as (? & _ & _). }
    { rewrite Hdel. intros p ppr Hp Hpo Hppr.
      assert (Hne : p ≠ x) by (by intros ->).
      unfold h1 in Hppr. rewrite removed_properties_ne in Hppr by done.
      apply elem_of_erase in Hpo as [Hpo _].
      destruct (Hown p ppr) as [Hplain Hnone]; [rewrite Hps; set_solver | done | done |].
      split; [done |].
      unfold h1, removed. cbn [owners].
      assert (Hpt : p ≠ this) by (intros ->; congruence).
      destruct (decide (x ∈ ownedProperties_ o)).
      - by rewrite lookup_delete_ne, lookup_insert_ne.
      - by rewrite lookup_insert_ne. }
    exists h'. split_and!.
    + rewrite (clear_nonempty fuel this h o Ho) by (rewrite Hps; by destruct ps).
      replace (length (properties_ o) - 1) with n by lia.
      by step Hrem.
    + rewrite Howner. f_equal. unfold cleared, o1, withoutProperty.
      cbn [ownedProperties_ properties_ eventProperties_ compositeProperties_
           invalidationLevel_ observers_].
      rewrite Hps, <- Hlen', delete_middle, app_nil_r.
      rewrite !filter_erase.
      f_equal; apply list_filter_iff; intros y; set_solver.
    + intros a Ha. rewrite (Hothers a Ha). unfold h1, removed. cbn [owners].
      destruct (decide (x ∈ ownedProperties_ o)) as [Hxo|Hxo].
      * destruct (decide (a = x)) as [->|Hax].
        -- rewrite lookup_delete_eq. by destruct (Hown x pr Hx Hxo Hpr) as [_ ->].
        -- rewrite lookup_delete_ne by done. by rewrite lookup_insert_ne.
      * by rewrite lookup_insert_ne.
    + intros a. rewrite (Hprops a), Hdel.
      destruct (decide (a = x)) as [->|Hax].
      * rewrite (decide_False (P := x ∈ ps)) by done.
        rewrite (decide_True (P := x ∈ properties_ o)) by done.
        unfold h1. rewrite removed_properties_eq.
        destruct (decide (x ∈ ownedProperties_ o)); [done | by rewrite Hpr].
      * unfold h1. rewrite removed_properties_ne by done.
        destruct (decide (a ∈ ps)) as [Hin|Hin].
        -- rewrite (decide_True (P := a ∈ properties_ o)) by (rewrite Hps; set_solver).
           unfold o1, withoutProperty. cbn [ownedProperties_].
           destruct (decide (a ∈ ownedProperties_ o)) as [Hao|Hao].
           ++ by rewrite decide_True by (by apply elem_of_erase).
           ++ by rewrite decide_False by (by intros [? _]%elem_of_erase).
        -- by rewrite (decide_False (P := a ∈ properties_ o)) by (rewrite Hps; set_solver).
    + rewrite Hnotes, Hdel. unfold h1, removed. cbn [notifications].
      rewrite <- app_assoc. f_equal.
      unfold clearNotifications. rewrite Hps, imap_app, reverse_app.
      cbn [imap reverse rev_append concat app]. rewrite Hlen'.
      by rewrite Nat.add_0_r.
Qed.

(** X7: [clear()] removes the properties from the last to the first and
    leaves the owner without properties: the event, composite and owned
    lists keep only what was not a property of the owner (nothing, when they
    list properties of the owner only), the properties that the owner did
    not own lose their owner, the owned ones are destroyed, and the
    observers are told of every removal.  The owned properties are taken to
    be no composite properties. *)
Theorem clear_empties_owner
    (fuel : nat) (h : Heap) (this : Addr) (o : PropertyOwner) :
  owners h !! this = Some o →
  allLive h (properties_ o) →
  NoDup (properties_ o) →
  (∀ p pr, p ∈ properties_ o → p ∈ ownedProperties_ o →
           properties h !! p = Some pr →
           dynamicType pr ≠ CompositeProperty ∧ owners h !! p = None) →
  length (properties_ o) < fuel →
  ∃ h',
    clear fuel this h = Return tt h' ∧
    owners h' !! this = Some (cleared o) ∧
    ((∀ y, y ∈ eventProperties_ o ++ compositeProperties_ o ++ ownedProperties_ o →
           y ∈ properties_ o) →
     owners h' !! this =
       Some (mkPropertyOwner [] [] [] [] (invalidationLevel_ o) (observers_ o))) ∧
    (∀ p, p ∈ properties_ o →
          properties h' !! p =
          if decide (p ∈ ownedProperties_ o) then None
          else withOwner None <$> properties h !! p) ∧
    (∀ a, a ∉ properties_ o → properties h' !! a = properties h !! a) ∧
    notifications h' = notifications h ++ clearNotifications this (properties_ o).
Proof.
  intros Ho Hlive Hnd Hown Hfuel.
  destruct (clear_loop this (length (properties_ o)) fuel h o eq_refl Hfuel Ho Hlive Hnd Hown)
    as (h' & Hrun & Howner & _ & Hprops & Hnotes).
  exists h'. split_and!; [done | done | | | | done].
  - intros Hsub. rewrite Howner. unfold cleared. f_equal.
    rewrite !(filter_none (λ y, y ∉ properties_ o)); [done | | |];
      intros y Hy Hnot; apply Hnot, Hsub; set_solver.
  - intros p Hp. rewrite (Hprops p). by rewrite decide_True.
  - intros a Ha. rewrite (Hprops a). by rewrite decide_False.
Qed.

(** X8: the overload of [insertProperty] that takes a [std::unique_ptr]
    leaves, when it goes through, the store that
    [insertProperty(index, property, true)] leaves, and returns the property;
    when the identifier is in use already, it throws like the latter, which
    leaves the store as it is, and the property, here no composite one, is
    destroyed with the pointer. *)
Theorem insertPropertyOwned_as_insertProperty
    (fuel : nat) (h : Heap) (this : Addr) (index : nat) (property : Addr)
    (o : PropertyOwner) (pr : Property) :
  owners h !! this = Some o →
  allLive h (properties_ o) →
  properties h !! property = Some pr →
  this ≠ property →
  ((∀ q qr, q ∈ properties_ o → properties h !! q = Some qr →
            identifier_ qr ≠ identifier_ pr) →
   ∃ h', insertProperty this index property true h = Return tt h' ∧
         insertPropertyOwned fuel this index property h = Return property h') ∧
  ((∃ q qr, q ∈ properties_ o ∧ properties h !! q = Some qr ∧
            identifier_ qr = identifier_ pr) →
   dynamicType pr ≠ CompositeProperty →
   ∃ e, insertProperty this index property true h = Throw e h ∧
        insertPropertyOwned fuel this index property h =
        Throw e (mkHeap (delete property (properties h)) (delete property (owners h))
                        (notifications h))).
Proof.
  intros Ho Hlive Hpr Hne. split.
  - intros Hfresh.
    pose proof (insertProperty_success h this index property true o pr
                  Ho Hlive Hpr Hfresh Hne) as Htrue.
    pose proof (insertProperty_success h this index property false o pr
                  Ho Hlive Hpr Hfresh Hne) as Hfalse.
    eexists. split; [exact Htrue |].
    unfold insertPropertyOwned, withUniquePtr.
    step Hfalse. unfold setSerializationMode.
    step_with ltac:(apply modifyProperty_Return; cbn [inserted properties];
                    apply lookup_insert_eq).
    step_with ltac:(apply modifyPropertyOwner_Return; cbn [inserted owners];
                    apply lookup_insert_eq).
    unfold inserted, mret, M_ret.
    cbn [ownedProperties_ properties_ eventProperties_ compositeProperties_
         invalidationLevel_ observers_ owners properties notifications
         identifier_ classIdentifier_ value_ dynamicType serializationMode_ owner_
         propertyModified_].
    by rewrite !insert_insert_eq, app_nil_r.
  - intros (q & qr & Hq & Hqr & Hid) Hplain.
    destruct (insertProperty_cases h this index property true o pr Ho Hlive Hpr)
      as [(existing & ex & Hfirst & _ & Hex & _ & Htrue) | [(Hfresh & _) | (Hfresh & _)]];
      [| by destruct (Hfresh q qr) | by destruct (Hfresh q qr)].
    destruct (insertProperty_cases h this index property false o pr Ho Hlive Hpr)
      as [(existing' & ex' & Hfirst' & _ & Hex' & _ & Hfalse) | [(Hfresh & _) | (Hfresh & _)]];
      [| by destruct (Hfresh q qr) | by destruct (Hfresh q qr)].
    eexists. split; [exact Htrue |].
    unfold insertPropertyOwned, withUniquePtr.
    unfold mbind at 1, M_bind at 1. rewrite Hfalse.
    rewrite (Property_delete_plain _ _ _ _ Hpr Hplain).
    assert (existing' = existing) by congruence. subst existing'.
    assert (ex' = ex) by congruence. by subst ex'.
Qed.

Lemma allLive_app h l1 l2 : allLive h l1 → allLive h l2 → allLive h (l1 ++ l2).
Proof. intros H1 H2 p [Hp|Hp]%elem_of_app; [by apply H1 | by apply H2]. Qed.

Lemma boundedComposites_inv fuel h this :
  boundedComposites (S fuel) h this = true →
  ∃ o, owners h !! this = Some o ∧ allLive h (properties_ o) ∧
       Forall (λ c, boundedComposites fuel h c = true) (compositeProperties_ o).
Proof.
  cbn [boundedComposites]. destruct (owners h !! this) as [o|]; [|done].
  intros [Hlive Hcs]%andb_prop. exists o. split_and!; [done | |].
  - intros p Hp. rewrite forallb_forall in Hlive.
    apply list_elem_of_In in Hp. by apply Hlive, bool_decide_eq_true_1 in Hp.
  - apply Forall_forall. intros c Hc. rewrite forallb_forall in Hcs.
    apply Hcs. by apply list_elem_of_In.
Qed.

Lemma recursive_search h id fuel :
  ∀ this,
    boundedComposites fuel h this = true →
    ∃ L, (∀ destination,
            getPropertiesRecursiveInto fuel this destination h = Return (destination ++ L) h) ∧
         allLive h L ∧
         (∃ o, owners h !! this = Some o ∧ ∃ rest, L = properties_ o ++ rest) ∧
         getPropertyByIdentifier fuel this id true h = Return (firstWithIdentifier h L id) h.
Proof.
  induction fuel as [|fuel IH]; intros this Hb; [done |].
  destruct (boundedComposites_inv _ _ _ Hb) as (o & Ho & Hlive & Hcs).
  assert (Hloop : ∀ cs,
    Forall (λ c, boundedComposites fuel h c = true) cs →
    ∃ Ls, (∀ destination,
             (fix each (cs : list Addr) (destination : list Addr) : M (list Addr) :=
                match cs with
                | [] => mret destination
                | comp :: cs' =>
                    destination ← getPropertiesRecursiveInto fuel comp destination;
                    each cs' destination
                end) cs destination h = Return (destination ++ Ls) h) ∧
          allLive h Ls ∧
          (fix search (cs : list Addr) : M (option Addr) :=
             match cs with
             | [] => mret None
             | compositeProperty :: cs' =>
                 p ← getPropertyByIdentifier fuel compositeProperty id true;
                 match p with
                 | Some property => mret (Some property)
                 | None => search cs'
                 end
             end) cs h = Return (firstWithIdentifier h Ls id) h).
  { induction cs as [|c cs IHcs]; intros Hall.
    - exists []. split_and!; [| by intros p Hp; apply elem_of_nil in Hp | done].
      intros destination. by rewrite app_nil_r.
    - apply Forall_cons in Hall as [Hc Hall].
      destruct (IH c Hc) as (Lc & Hinto & Hlc & _ & Hfind).
      destruct (IHcs Hall) as (Ls & Heach & Hls & Hsearch).
      exists (Lc ++ Ls). split_and!.
      + intros destination. step (Hinto destination).
        rewrite Heach. by rewrite app_assoc.
      + by apply allLive_app.
      + step Hfind. rewrite (firstWithIdentifier_app _ _ _ _ Hlc).
        by destruct (firstWithIdentifier h Lc id). }
  destruct (Hloop _ Hcs) as (Ls & Heach & Hls & Hsearch).
  exists (properties_ o ++ Ls). split_and!.
  - intros destination. cbn [getPropertiesRecursiveInto].
    step (getPropertyOwner_Return _ _ _ Ho).
    rewrite Heach. by rewrite app_assoc.
  - by apply allLive_app.
  - exists o. split; [done |]. by exists Ls.
  - cbn [getPropertyByIdentifier].
    step (getPropertyOwner_Return _ _ _ Ho).
    step (findByIdentifier_first _ _ id Hlive).
    rewrite (firstWithIdentifier_app _ _ _ _ Hlive).
    by destruct (firstWithIdentifier h (properties_ o) id).
Qed.

(** X9: the recursive search by identifier returns the first property with
    the identifier in the order of [getPropertiesRecursive()]: the
    properties of the owner come first, followed by those below each
    composite property in turn; it returns [nullptr] exactly when no
    property of that list has the identifier. *)
Theorem getPropertyByIdentifier_recursive
    (fuel : nat) (h : Heap) (this : Addr) (id : string) :
  boundedComposites fuel h this = true →
  ∃ all o rest,
    getPropertiesRecursive fuel this h = Return all h ∧
    owners h !! this = Some o ∧ all = properties_ o ++ rest ∧
    getPropertyByIdentifier fuel this id true h = Return (firstWithIdentifier h all id) h ∧
    (∀ p, firstWithIdentifier h all id = Some p →
          p ∈ all ∧ ∃ pr, properties h !! p = Some pr ∧ identifier_ pr = id) ∧
    (firstWithIdentifier h all id = None →
     ∀ p pr, p ∈ all → properties h !! p = Some pr → identifier_ pr ≠ id).
Proof.
  intros Hb.
  destruct (recursive_search h id fuel this Hb) as (L & Hinto & Hlive & (o & Ho & rest & HL) & Hfind).
  exists L, o, rest. split_and!; [apply (Hinto []) | done | done | done | |].
  - intros p. apply firstWithIdentifier_Some.
  - by apply firstWithIdentifier_None.
Qed.

Lemma splitByFirst_dotFree (c : string) :
  dotFree c = true → splitByFirst c dot = (c, EmptyString).
Proof.
  induction c as [|a c IH]; [done |]. cbn [dotFree splitByFirst].
  destruct (decide (a = dot)); [done |]. intros Hc. by rewrite (IH Hc).
Qed.

Lemma splitByFirst_join (c rest : string) :
  dotFree c = true → splitByFirst (c +:+ String dot rest) dot = (c, rest).
Proof.
  induction c as [|a c IH].
  - intros _. change (EmptyString +:+ String dot rest) with (String dot rest).
    cbn [splitByFirst]. by destruct (decide (dot = dot)).
  - change (String a c +:+ String dot rest) with (String a (c +:+ String dot rest)).
    cbn [dotFree splitByFirst].
    destruct (decide (a = dot)); [done |]. intros Hc. by rewrite (IH Hc).
Qed.

Lemma joinPath_nonempty segments :
  segments ≠ [] → Forall (λ s, s ≠ EmptyString) segments → joinPath segments ≠ EmptyString.
Proof.
  destruct segments as [|c rest]; [done |]. intros _ [Hc _]%Forall_cons.
  destruct rest; cbn [joinPath]; [done |]. by destruct c.
Qed.

(** X10: a path made of segments without ['.'], none of them empty, names
    the property that is reached segment by segment: composite properties by
    their identifiers, then the property by its own.  The empty path names
    no property. *)
Theorem getPropertyByPath_segments (h : Heap) :
  heapClosed h →
  ∀ (segments : list string) (fuel : nat) (this : Addr),
    is_Some (owners h !! this) →
    Forall (λ s, s ≠ EmptyString ∧ dotFree s = true) segments →
    length segments ≤ S fuel →
    getPropertyByPath fuel this (joinPath segments) h =
    Return (resolvePath h this segments) h.
Proof.
  intros Hclosed segments.
  induction segments as [|c rest IH]; intros fuel this [o Ho] Hseg Hfuel.
  - by destruct fuel.
  - apply Forall_cons in Hseg as [[Hc Hdot] Hrest].
    destruct (Hclosed this o Ho) as (Hlive & Hclive & Hcown).
    cbn [resolvePath]. rewrite Ho.
    destruct rest as [|c' rest].
    + cbn [joinPath].
      assert (Hget : getPropertyByPath fuel this c h =
                     getPropertyByIdentifier 0 this c false h).
      { destruct fuel; cbn [getPropertyByPath]; rewrite decide_False by done;
          rewrite (splitByFirst_dotFree c Hdot); by rewrite decide_True. }
      rewrite Hget. by apply getPropertyByIdentifier_first.
    + assert (Hne : joinPath (c' :: rest) ≠ EmptyString).
      { apply joinPath_nonempty; [done |]. eapply Forall_impl; [exact Hrest |].
        by intros ? [? _]. }
      destruct fuel as [|fuel]; [simpl in Hfuel; lia |].
      change (joinPath (c :: c' :: rest)) with (c +:+ String dot (joinPath (c' :: rest))).
      cbn [getPropertyByPath].
      rewrite decide_False by (by destruct c).
      rewrite (splitByFirst_join c _ Hdot).
      rewrite decide_False by done.
      step (getPropertyOwner_Return _ _ _ Ho).
      step (findByIdentifier_first _ _ c Hclive).
      destruct (firstWithIdentifier h (compositeProperties_ o) c) as [comp|] eqn:Hcomp;
        [|done].
      apply IH; [| done | simpl in *; lia].
      apply Hcown. by apply firstWithIdentifier_Some in Hcomp as [? _].
Qed.

Lemma vectorInsert_lookup {A : Type} (i : nat) (x : A) (v : list A) :
  i ≤ length v → vectorInsert i x v !! i = Some x.
Proof.
  intros Hi. unfold vectorInsert.
  rewrite lookup_app_r by (rewrite length_take; lia).
  rewrite length_take. by replace (i - i `min` length v) with 0 by lia.
Qed.

Lemma vectorInsert_Permutation {A : Type} (i : nat) (x : A) (v : list A) :
  vectorInsert i x v ≡ₚ x :: v.
Proof.
  unfold vectorInsert. rewrite <- (take_drop i v) at 3.
  by rewrite Permutation_middle.
Qed.

(** X11: [move] puts a property of the owner at the new position and keeps
    the other properties in their order: the list is a permutation of the
    old one, the side lists and the properties themselves are untouched, and
    the observers see a removal at the old position followed by an
    insertion at the new one.  A property that is not in the list is not
    moved: the call returns [false] and changes nothing. *)
Theorem move_reorders
    (h : Heap) (this : Addr) (property : Addr) (newIndex : nat) (o : PropertyOwner) :
  owners h !! this = Some o →
  (property ∈ properties_ o → newIndex < length (properties_ o) →
   ∃ h' o',
     move this property newIndex h = Return true h' ∧
     owners h' !! this = Some o' ∧
     properties_ o' !! newIndex = Some property ∧
     properties_ o' ≡ₚ properties_ o ∧
     delete newIndex (properties_ o') =
       delete (findIndex (properties_ o) property) (properties_ o) ∧
     eventProperties_ o' = eventProperties_ o ∧
     compositeProperties_ o' = compositeProperties_ o ∧
     ownedProperties_ o' = ownedProperties_ o ∧
     invalidationLevel_ o' = invalidationLevel_ o ∧
     properties h' = properties h ∧
     notifications h' =
       notifications h ++
       [(this, WillRemoveProperty property (findIndex (properties_ o) property));
        (this, DidRemoveProperty this property (findIndex (properties_ o) property));
        (this, WillAddProperty this property newIndex);
        (this, DidAddProperty property newIndex)]) ∧
  (property ∉ properties_ o → move this property newIndex h = Return false h).
Proof.
  intros Ho. split.
  - intros Hin Hnew.
    pose proof (findIndex_elem_of _ _ Hin) as Hit.
    unfold findIndex in *.
    destruct (list_find (λ p, p = property) (properties_ o)) as [[i q]|] eqn:Hfind.
    2: { apply lookup_lt_Some in Hit. lia. }
    assert (Hlen : length (delete i (properties_ o)) = length (properties_ o) - 1).
    { rewrite length_delete; [done | by eexists]. }
    eexists. eexists. split.
    { unfold move. step (getPropertyOwner_Return _ _ _ Ho). rewrite Hfind.
      step_with ltac:(reflexivity).
      step_with ltac:(apply modifyPropertyOwner_Return; exact Ho).
      step_with ltac:(reflexivity).
      step_with ltac:(reflexivity).
      step_with ltac:(apply getPropertyOwner_Return; cbn [owners]; apply lookup_insert_eq).
      cbn [properties_]. rewrite decide_True by lia.
      step_with ltac:(reflexivity).
      step_with ltac:(apply modifyPropertyOwner_Return; cbn [owners]; apply lookup_insert_eq).
      step_with ltac:(reflexivity).
      reflexivity. }
    cbn [ownedProperties_ properties_ eventProperties_ compositeProperties_
         invalidationLevel_ observers_ owners properties notifications].
    split; [apply lookup_insert_eq |].
    cbn [ownedProperties_ properties_ eventProperties_ compositeProperties_
         invalidationLevel_ observers_ owners properties notifications].
    split_and!; try done.
    + apply vectorInsert_lookup. lia.
    + rewrite vectorInsert_Permutation. symmetry. by apply delete_Permutation.
    + apply delete_vectorInsert. lia.
    + by rewrite <- !app_assoc.
  - intros Hnotin. unfold move. step (getPropertyOwner_Return _ _ _ Ho).
    destruct (list_find (λ p, p = property) (properties_ o)) as [[i q]|] eqn:Hfind; [|done].
    apply list_find_Some in Hfind as (Hq & -> & _). exfalso. apply Hnotin.
    by eapply list_elem_of_lookup_2.
Qed.

(** ** The properties above on the example stores *)

Lemma exampleHeap_fresh (id : string) :
  id ≠ "a" → id ≠ "b" →
  ∀ q qr, q ∈ [1; 2] → properties exampleHeap !! q = Some qr → identifier_ qr ≠ id.
Proof.
  intros Ha Hb q qr Hq Hqr.
  elem_cases Hq; vm_compute in Hqr; injection Hqr as <-; simpl; congruence.
Qed.

Lemma exampleHeap_unique : uniqueIdentifiers exampleHeap [1; 2].
Proof.
  intros p q pr qr Hp Hq Hpr Hqr Hid.
  elem_cases Hp; elem_cases Hq; try done;
    vm_compute in Hpr, Hqr; injection Hpr as <-; injection Hqr as <-; done.
Qed.

Lemma copyHeap_heapClosed : heapClosed copyHeap.
Proof.
  intros a o Ha. lookup_cases Ha; simpl; split_and!;
    try (intros p Hp; elem_cases Hp; by eexists).
Qed.

Lemma insertProperty_then_getPropertyByIdentifier_witness :
  ∃ h', insertProperty 0 5 4 false exampleHeap = Return tt h' ∧
        getPropertyByIdentifier 0 0 "c" false h' = Return (Some 4) h' ∧
        getPropertyByIdentifier 0 0 "b" false h' = Return (Some 2) h'.
Proof.
  destruct (insertProperty_then_getPropertyByIdentifier exampleHeap 0 5 4 false
              (mkPropertyOwner [1; 2] [2] [] [2] InvalidOutput [7])
              (exampleProperty "c" CompositeProperty 40))
    as (h' & pr' & Hrun & Hfound & _ & _ & Hothers).
  - reflexivity.
  - exact exampleHeap_allLive.
  - reflexivity.
  - by apply exampleHeap_fresh.
  - done.
  - exists h'. split_and!; [done | done |].
    destruct (Hothers "b") as (r & Hbefore & Hafter); [done |].
    assert (r = Some 2) by (vm_compute in Hbefore; congruence). by subst r.
Defined.

Lemma insertProperty_keeps_identifiers_unique_witness :
  match insertProperty 0 0 3 true exampleHeap with
  | Return _ h' | Throw _ h' =>
      ∃ o', owners h' !! 0 = Some o' ∧ allLive h' (properties_ o') ∧
            uniqueIdentifiers h' (properties_ o') ∧ NoDup (properties_ o')
  | Fault | OutOfFuel => False
  end.
Proof.
  apply (insertProperty_keeps_identifiers_unique exampleHeap 0 0 3 true
           (mkPropertyOwner [1; 2] [2] [] [2] InvalidOutput [7])).
  - reflexivity.
  - exact exampleHeap_allLive.
  - by eexists.
  - exact exampleHeap_unique.
  - apply (bool_decide_unpack (NoDup [1; 2])). reflexivity.
Defined.

Lemma insertProperty_into_itself_witness :
  insertProperty 4 0 4 false exampleHeap =
    Throw (AddToItself "c" "org.inviwo.IntProperty") exampleHeap ∧
  addProperty 4 4 false exampleHeap =
    Throw (AddToItself "c" "org.inviwo.IntProperty") exampleHeap.
Proof.
  apply (insertProperty_into_itself exampleHeap 4 0 false (mkPropertyOwner [] [] [] [] Valid [])
           (exampleProperty "c" CompositeProperty 40)).
  - reflexivity.
  - reflexivity.
  - intros p Hp. by apply elem_of_nil in Hp.
  - intros q qr Hq. by apply elem_of_nil in Hq.
Defined.

Lemma removeProperty_absent_witness :
  removeProperty 0 0 3 exampleHeap = Return None exampleHeap ∧
  removePropertyByIdentifier 0 0 "c" exampleHeap = Return None exampleHeap ∧
  removePropertyAt 0 0 2 exampleHeap = Throw (RangeException 2 2) exampleHeap.
Proof.
  destruct (removeProperty_absent 0 exampleHeap 0
              (mkPropertyOwner [1; 2] [2] [] [2] InvalidOutput [7]))
    as (Hpointer & Hidentifier & Hindex).
  - reflexivity.
  - exact exampleHeap_allLive.
  - split_and!.
    + apply Hpointer. simpl. set_solver.
    + apply Hidentifier. by apply exampleHeap_fresh.
    + apply (Hindex 2). simpl. lia.
Defined.

Lemma insertProperty_then_removeProperty_witness :
  ∃ h1 h2,
    insertProperty 0 1 4 false exampleHeap = Return tt h1 ∧
    removeProperty 0 0 4 h1 = Return (Some 4) h2 ∧
    owners h2 = owners exampleHeap.
Proof.
  destruct (insertProperty_then_removeProperty 0 exampleHeap 0 1 4
              (mkPropertyOwner [1; 2] [2] [] [2] InvalidOutput [7])
              (exampleProperty "c" CompositeProperty 40))
    as (h1 & h2 & Hins & Hrem & Howners & _).
  - reflexivity.
  - exact exampleHeap_allLive.
  - reflexivity.
  - by apply exampleHeap_fresh.
  - done.
  - simpl. set_solver.
  - by exists h1, h2.
Defined.

Lemma removeProperty_then_getPropertyByIdentifier_witness :
  ∃ h', removeProperty 0 0 2 exampleHeap = Return None h' ∧
        properties h' !! 2 = None ∧
        getPropertyByIdentifier 0 0 "b" false h' = Return None h'.
Proof.
  destruct (removeProperty_then_getPropertyByIdentifier 0 exampleHeap 0 2
              (mkPropertyOwner [1; 2] [2] [] [2] InvalidOutput [7])
              (mkProperty "b" "org.inviwo.IntProperty" 20 EventProperty
                          SerializeAll (Some 0) false))
    as (h' & Hrun & Hgone & Hlookup & _).
  - reflexivity.
  - exact exampleHeap_allLive.
  - apply (bool_decide_unpack (NoDup [1; 2])). reflexivity.
  - exact exampleHeap_unique.
  - simpl. set_solver.
  - reflexivity.
  - intros _. by split.
  - exists h'. by split_and!.
Defined.

Lemma clear_empties_owner_witness :
  ∃ h', clear 3 0 exampleHeap = Return tt h' ∧
        owners h' !! 0 = Some (mkPropertyOwner [] [] [] [] InvalidOutput [7]) ∧
        properties h' !! 2 = None ∧
        notifications h' =
          [(0, WillRemoveProperty 2 1); (0, DidRemoveProperty 0 2 1);
           (0, WillRemoveProperty 1 0); (0, DidRemoveProperty 0 1 0)].
Proof.
  destruct (clear_empties_owner 3 exampleHeap 0
              (mkPropertyOwner [1; 2] [2] [] [2] InvalidOutput [7]))
    as (h' & Hrun & _ & Hempty & Hprops & _ & Hnotes).
  - reflexivity.
  - exact exampleHeap_allLive.
  - apply (bool_decide_unpack (NoDup [1; 2])). reflexivity.
  - intros p pr Hp Ho Hpr. simpl in Ho. elem_cases Ho.
    inversion Hpr; subst. by split.
  - simpl. lia.
  - exists h'. split_and!; [done | | | done].
    + apply Hempty. simpl. intros y Hy. elem_cases Hy; set_solver.
    + apply (Hprops 2). simpl. set_solver.
Defined.

Lemma insertPropertyOwned_as_insertProperty_witness :
  (∃ h', insertProperty 0 0 4 true exampleHeap = Return tt h' ∧
         insertPropertyOwned 0 0 0 4 exampleHeap = Return 4 h') ∧
  (∃ e h', insertProperty 0 0 3 true exampleHeap = Throw e exampleHeap ∧
           insertPropertyOwned 0 0 0 3 exampleHeap = Throw e h' ∧
           properties h' !! 3 = None).
Proof.
  split.
  - apply (insertPropertyOwned_as_insertProperty 0 exampleHeap 0 0 4
             (mkPropertyOwner [1; 2] [2] [] [2] InvalidOutput [7])
             (exampleProperty "c" CompositeProperty 40));
      [reflexivity | exact exampleHeap_allLive | reflexivity | done |].
    by apply exampleHeap_fresh.
  - destruct (insertPropertyOwned_as_insertProperty 0 exampleHeap 0 0 3
                (mkPropertyOwner [1; 2] [2] [] [2] InvalidOutput [7])
                (exampleProperty "a" PlainProperty 30))
      as [_ Hdup]; [reflexivity | exact exampleHeap_allLive | reflexivity | done |].
    destruct Hdup as (e & Hraw & Howned).
    + exists 1. eexists. split_and!; [set_solver | reflexivity | reflexivity].
    + done.
    + exists e. eexists. split_and!; [exact Hraw | exact Howned | reflexivity].
Defined.

Lemma getPropertyByIdentifier_recursive_witness :
  getPropertiesRecursive 2 0 copyHeap = Return [1; 2; 3] copyHeap ∧
  getPropertyByIdentifier 2 0 "y" true copyHeap = Return (Some 3) copyHeap.
Proof.
  destruct (getPropertyByIdentifier_recursive 2 copyHeap 0 "y")
    as (all & o & rest & Hall & _ & _ & Hfind & _); [reflexivity |].
  assert (all = [1; 2; 3]) by (vm_compute in Hall; congruence). subst all.
  split; [done |]. rewrite Hfind. reflexivity.
Defined.

Lemma getPropertyByPath_segments_witness :
  getPropertyByPath 1 0 "group.y" copyHeap = Return (Some 3) copyHeap.
Proof.
  apply (getPropertyByPath_segments copyHeap copyHeap_heapClosed ["group"; "y"] 1 0).
  - by eexists.
  - repeat constructor; done.
  - simpl. lia.
Defined.

Lemma move_reorders_witness :
  (∃ h' o', move 0 1 1 exampleHeap = Return true h' ∧
            owners h' !! 0 = Some o' ∧ properties_ o' !! 1 = Some 1) ∧
  move 0 3 0 exampleHeap = Return false exampleHeap.
Proof.
  destruct (move_reorders exampleHeap 0 1 1
              (mkPropertyOwner [1; 2] [2] [] [2] InvalidOutput [7])) as [Hmove _];
    [reflexivity |].
  destruct (move_reorders exampleHeap 0 3 0
              (mkPropertyOwner [1; 2] [2] [] [2] InvalidOutput [7])) as [_ Hstay];
    [reflexivity |].
  split.
  - destruct Hmove as (h' & o' & Hrun & Ho' & Hat & _); [simpl; set_solver | simpl; lia |].
    by exists h', o'.
  - apply Hstay. simpl. set_solver.
Defined.

(** * Further properties of the network utilities *)

(** ** Direct neighbours *)

Lemma elem_of_foldl_insert {A B : Type} (g : A -> list B) (k : B -> ProcessorPtr)
    (ports : list A) (acc : gset ProcessorPtr) (r : ProcessorPtr) :
  r ∈ foldl (λ acc port, foldl (λ acc x, {[k x]} ∪ acc) acc (g port)) acc ports
  ↔ r ∈ acc ∨ ∃ port x, port ∈ ports ∧ x ∈ g port ∧ k x = r.
Proof.
  assert (Hin : ∀ xs (acc : gset ProcessorPtr),
    r ∈ foldl (λ acc x, {[k x]} ∪ acc) acc xs ↔ r ∈ acc ∨ ∃ x, x ∈ xs ∧ k x = r).
  { induction xs as [|x xs IH]; intros acc'; simpl.
    - split; [by left | intros [?|(x & Hx & _)]; [done | by apply elem_of_nil in Hx]].
    - rewrite IH, elem_of_union, elem_of_singleton. split.
      + intros [[->|Hacc] | (y & Hy & Hk)].
        * right. exists x. split; [apply list_elem_of_here | done].
        * by left.
        * right. exists y. split; [by apply list_elem_of_further | done].
      + intros [Hacc | (y & Hy & Hk)]; [by left; right |].
        apply elem_of_cons in Hy as [->|Hy]; [by left; left |].
        right. by exists y. }
  revert acc. induction ports as [|port ports IH]; intros acc; simpl.
  - split; [by left | intros [?|(port & x & Hp & _)]; [done | by apply elem_of_nil in Hp]].
  - rewrite IH, Hin. split.
    + intros [[Hacc | (x & Hx & Hk)] | (port' & x & Hp & Hx & Hk)].
      * by left.
      * right. exists port, x. split_and!; [apply list_elem_of_here | done | done].
      * right. exists port', x. split_and!; [by apply list_elem_of_further | done | done].
    + intros [Hacc | (port' & x & Hp & Hx & Hk)]; [by left; left |].
      apply elem_of_cons in Hp as [->|Hp].
      * left; right. by exists x.
      * right. by exists port', x.
Qed.

Lemma elem_of_getDirectPredecessors cls net p q :
  q ∈ getDirectPredecessors cls net p ↔
  ∃ c, c ∈ getConnections net ∧ getInport c ∈ getInports cls p ∧
       outportProcessor (getOutport c) = q.
Proof.
  unfold getDirectPredecessors.
  rewrite (elem_of_foldl_insert (getConnectedOutports net) outportProcessor).
  unfold getConnectedOutports. split.
  - intros [Hempty | (port & x & Hport & Hx & Hk)]; [by apply not_elem_of_empty in Hempty |].
    apply list_elem_of_fmap in Hx as (c & -> & Hc).
    apply list_elem_of_filter in Hc as [<- Hc]. by exists c.
  - intros (c & Hc & Hport & Hk). right. exists (getInport c), (getOutport c).
    split_and!; [done | | done].
    apply list_elem_of_fmap. exists c. split; [done |]. by apply list_elem_of_filter.
Qed.

Lemma elem_of_getDirectSuccessors cls net p q :
  q ∈ getDirectSuccessors cls net p ↔
  ∃ c, c ∈ getConnections net ∧ getOutport c ∈ getOutports cls p ∧
       inportProcessor (getInport c) = q.
Proof.
  unfold getDirectSuccessors.
  rewrite (elem_of_foldl_insert (getConnectedInports net) inportProcessor).
  unfold getConnectedInports. split.
  - intros [Hempty | (port & x & Hport & Hx & Hk)]; [by apply not_elem_of_empty in Hempty |].
    apply list_elem_of_fmap in Hx as (c & -> & Hc).
    apply list_elem_of_filter in Hc as [<- Hc]. by exists c.
  - intros (c & Hc & Hport & Hk). right. exists (getOutport c), (getInport c).
    split_and!; [done | | done].
    apply list_elem_of_fmap. exists c. split; [done |]. by apply list_elem_of_filter.
Qed.

(** X12: the direct predecessors of a processor are the processors of the
    outports connected to its inports, the direct successors those of the
    inports connected to its outports; when the ports of the connections
    belong to their processors, a processor is a direct predecessor of
    another exactly when the other is one of its direct successors, and a
    processor without connections has neither. *)
Theorem getDirectPredecessors_getDirectSuccessors
    (cls : ProcessorClass) (net : ProcessorNetwork) :
  portsBelong cls net →
  (∀ p q, q ∈ getDirectPredecessors cls net p ↔
          ∃ c, c ∈ getConnections net ∧ inportProcessor (getInport c) = p ∧
               outportProcessor (getOutport c) = q) ∧
  (∀ p q, q ∈ getDirectSuccessors cls net p ↔
          ∃ c, c ∈ getConnections net ∧ outportProcessor (getOutport c) = p ∧
               inportProcessor (getInport c) = q) ∧
  (∀ p q, q ∈ getDirectPredecessors cls net p ↔ p ∈ getDirectSuccessors cls net q) ∧
  (∀ p, (∀ c, c ∈ getConnections net →
              inportProcessor (getInport c) ≠ p ∧ outportProcessor (getOutport c) ≠ p) →
        getDirectPredecessors cls net p = ∅ ∧ getDirectSuccessors cls net p = ∅).
Proof.
  intros Hports.
  assert (Hpred : ∀ p q, q ∈ getDirectPredecessors cls net p ↔
            ∃ c, c ∈ getConnections net ∧ inportProcessor (getInport c) = p ∧
                 outportProcessor (getOutport c) = q).
  { intros p q. rewrite elem_of_getDirectPredecessors. split.
    - intros (c & Hc & Hin & Hout). exists c. split_and!; [done | | done].
      by apply (Hports c Hc).
    - intros (c & Hc & Hin & Hout). exists c. split_and!; [done | | done].
      by apply (Hports c Hc). }
  assert (Hsucc : ∀ p q, q ∈ getDirectSuccessors cls net p ↔
            ∃ c, c ∈ getConnections net ∧ outportProcessor (getOutport c) = p ∧
                 inportProcessor (getInport c) = q).
  { intros p q. rewrite elem_of_getDirectSuccessors. split.
    - intros (c & Hc & Hout & Hin). exists c. split_and!; [done | | done].
      by apply (Hports c Hc).
    - intros (c & Hc & Hout & Hin). exists c. split_and!; [done | | done].
      by apply (Hports c Hc). }
  split_and!; [done | done | |].
  - intros p q. rewrite Hpred, Hsucc. split; intros (c & Hc & H1 & H2); by exists c.
  - intros p Hnone. split; apply set_eq; intros q; split;
      try (by intros Hq; apply not_elem_of_empty in Hq).
    + intros (c & Hc & Hin & _)%Hpred. by destruct (Hnone c Hc).
    + intros (c & Hc & Hout & _)%Hsucc. by destruct (Hnone c Hc).
Qed.

Lemma chainNetwork_portsBelong : portsBelong feedbackClass chainNetwork.
Proof.
  intros c Hc. simpl in Hc. elem_cases Hc; simpl; split; intros p;
    rewrite list_elem_of_singleton; split; (intros [= <-] || intros <-); done.
Qed.

Lemma getDirectPredecessors_getDirectSuccessors_witness :
  (0 ∈ getDirectPredecessors feedbackClass chainNetwork 1 ↔
   1 ∈ getDirectSuccessors feedbackClass chainNetwork 0) ∧
  getDirectPredecessors feedbackClass chainNetwork 3 = ∅.
Proof.
  destruct (getDirectPredecessors_getDirectSuccessors feedbackClass chainNetwork
              chainNetwork_portsBelong) as (_ & _ & Hdual & Hnone).
  split; [apply Hdual |]. apply (Hnone 3).
  intros c Hc. simpl in Hc. elem_cases Hc; by split.
Defined.

(** ** Partial networks: the links *)

Lemma containsProcessor_owner cls pcls net a :
  containsProcessor (List.filter (isSelected cls) (getProcessors net))
                    (getOwnerProcessor pcls a) = true
  ↔ ownerSelected cls pcls net a.
Proof.
  unfold ownerSelected. destruct (getOwnerProcessor pcls a) as [p|].
  - rewrite containsProcessor_selected. split; [by exists p | by intros (? & [= <-] & ?)].
  - simpl. split; [done | by intros (? & ? & _)].
Qed.

Lemma foldl_classifyLink pcls selected ls :
  ∀ internal outs ins,
    foldl (classifyLink pcls selected) (internal, outs, ins) ls =
    (internal ++ (LinkEdge <$>
        filter (λ l, containsProcessor selected (getOwnerProcessor pcls (getSource l)) = true ∧
                     containsProcessor selected (getOwnerProcessor pcls (getDestination l))
                     = true) ls),
     outs ++ (LinkEdge <$>
        filter (λ l, containsProcessor selected (getOwnerProcessor pcls (getSource l)) = true ∧
                     containsProcessor selected (getOwnerProcessor pcls (getDestination l))
                     ≠ true) ls),
     ins ++ (LinkEdge <$>
        filter (λ l, containsProcessor selected (getOwnerProcessor pcls (getSource l)) ≠ true ∧
                     containsProcessor selected (getOwnerProcessor pcls (getDestination l))
                     = true) ls)).
Proof.
  induction ls as [|l ls IH]; intros internal outs ins.
  - simpl. by rewrite !app_nil_r.
  - cbn [foldl]. rewrite !filter_cons.
    destruct (classifyLink pcls selected (internal, outs, ins) l) as [[i' o'] n'] eqn:Hstep.
    rewrite IH. unfold classifyLink in Hstep.
    destruct (containsProcessor selected (getOwnerProcessor pcls (getSource l))) eqn:Hsrc;
      destruct (containsProcessor selected (getOwnerProcessor pcls (getDestination l)))
        eqn:Hdst;
      simpl in Hstep; inversion Hstep; subst;
      repeat (destruct (decide _) as [[? ?]|?]; try done; try tauto);
      simpl; by rewrite <- ?app_assoc.
Qed.

(** X13: partial-network extraction records the selected processors in the
    order of the network, and every link of the network in at most one list:
    as internal exactly when the processors that own its source and its
    destination are both selected, as outgoing exactly when only the source's
    is, as incoming exactly when only the destination's is; a link between
    unselected processors is not recorded. *)
Theorem PartialProcessorNetwork_serialize_links
    (cls : ProcessorClass) (pcls : PropertyClass) (net : ProcessorNetwork)
    (l : PropertyLink) :
  Processors (PartialProcessorNetwork_serialize cls pcls net) =
    List.filter (isSelected cls) (getProcessors net) ∧
  ProcessorNetworkVersion (PartialProcessorNetwork_serialize cls pcls net) = getVersion net ∧
  (LinkEdge l ∈ InternalPropertyLinks (PartialProcessorNetwork_serialize cls pcls net) ↔
   l ∈ getLinks net ∧ ownerSelected cls pcls net (getSource l) ∧
   ownerSelected cls pcls net (getDestination l)) ∧
  (LinkEdge l ∈ OutPropertyLinks (PartialProcessorNetwork_serialize cls pcls net) ↔
   l ∈ getLinks net ∧ ownerSelected cls pcls net (getSource l) ∧
   ¬ ownerSelected cls pcls net (getDestination l)) ∧
  (LinkEdge l ∈ InPropertyLinks (PartialProcessorNetwork_serialize cls pcls net) ↔
   l ∈ getLinks net ∧ ¬ ownerSelected cls pcls net (getSource l) ∧
   ownerSelected cls pcls net (getDestination l)).
Proof.
  unfold PartialProcessorNetwork_serialize.
  rewrite foldl_classifyLink.
  destruct (foldl (classifyConnection _) _ _) as [internalConnections externalConnections].
  cbn [Processors ProcessorNetworkVersion InternalPropertyLinks OutPropertyLinks
       InPropertyLinks app].
  split_and!; [done | done | | |]; rewrite list_elem_of_fmap; split.
  - intros (l' & [= <-] & Hl). apply list_elem_of_filter in Hl as [[Hs Hd] Hl].
    by rewrite !containsProcessor_owner in Hs, Hd.
  - intros (Hl & Hs & Hd). exists l. split; [done |].
    apply list_elem_of_filter. by rewrite !containsProcessor_owner.
  - intros (l' & [= <-] & Hl). apply list_elem_of_filter in Hl as [[Hs Hd] Hl].
    by rewrite !containsProcessor_owner in Hs, Hd.
  - intros (Hl & Hs & Hd). exists l. split; [done |].
    apply list_elem_of_filter. by rewrite !containsProcessor_owner.
  - intros (l' & [= <-] & Hl). apply list_elem_of_filter in Hl as [[Hs Hd] Hl].
    by rewrite !containsProcessor_owner in Hs, Hd.
  - intros (Hl & Hs & Hd). exists l. split; [done |].
    apply list_elem_of_filter. by rewrite !containsProcessor_owner.
Qed.

(** ** Splitting a connection: the other entry points *)



Lemma addProcessor_Return processor net :
  ∃ net', addProcessor processor net = Return tt net' ∧
          getConnections net' = getConnections net ∧ getLinks net' = getLinks net ∧
          getVersion net' = getVersion net ∧
          ∀ p, p ∈ getProcessors net' ↔ p ∈ getProcessors net ∨ p = processor.
Proof.
  unfold addProcessor. eexists. split; [done |].
  destruct (decide (processor ∈ getProcessors net)) as [Hin|Hin]; cbn [getProcessors
    getConnections getLinks getVersion]; split_and!; try done.
  - intros p. split; [by left | by intros [?| ->]].
  - intros p. rewrite elem_of_app, list_elem_of_singleton. done.
Qed.







(** ** Replacing a processor: the network *)

Lemma forEach_invariant {S A : Type} (I : S → Prop) (body : A -> St S unit) (l : list A) :
  (∀ x s, x ∈ l → I s → ∃ s', body x s = Return tt s' ∧ I s') →
  ∀ s, I s → ∃ s', forEach l body s = Return tt s' ∧ I s'.
Proof.
  induction l as [|x l IH]; intros Hbody s HI.
  - by exists s.
  - destruct (Hbody x s (list_elem_of_here _ _) HI) as (s1 & Hx & HI1).
    destruct (IH (λ y s0 Hy, Hbody y s0 (list_elem_of_further _ _ _ Hy)) s1 HI1)
      as (s' & Hrun & HI').
    exists s'. cbn [forEach]. by rewrite (bind_Return _ _ _ _ _ Hx).
Qed.

Lemma keepsAllButLinks_refl w : keepsAllButLinks w w.
Proof. by split_and!. Qed.

Lemma keepsAllButLinks_trans w1 w2 w3 :
  keepsAllButLinks w1 w2 → keepsAllButLinks w2 w3 → keepsAllButLinks w1 w3.
Proof. intros (?&?&?&?&?) (?&?&?&?&?). split_and!; congruence. Qed.

Lemma liftNetwork_addLink_keeps src dst w :
  ∃ w', liftNetwork (addLink src dst) w = Return tt w' ∧ keepsAllButLinks w w'.
Proof.
  unfold liftNetwork, addLink.
  destruct (decide (mkLink src dst ∈ getLinks (network w))); eexists; by split_and!.
Qed.

Lemma moveLinks_keeps pcls fuel newProcessor oldProcessor w :
  heapClosed (heap w) → is_Some (owners (heap w) !! newProcessor) →
  (∀ l, l ∈ getLinks (network w) →
        String.length (getPath pcls (getSource l)) ≤ fuel ∧
        String.length (getPath pcls (getDestination l)) ≤ fuel) →
  ∃ w', moveLinks pcls fuel newProcessor oldProcessor w = Return tt w' ∧
        keepsAllButLinks w w'.
Proof.
  intros Hclosed Hnew Hfuel. unfold moveLinks.
  unfold getNetwork at 1. unfold mbind at 1, M_bind at 1.
  apply (forEach_invariant (keepsAllButLinks w)); [|apply keepsAllButLinks_refl].
  intros link w0 Hlink Hkeep.
  apply list_elem_of_In, filter_In in Hlink as [Hlink%list_elem_of_In _].
  destruct (Hfuel link Hlink) as [Hsrc Hdst].
  pose proof Hkeep as (Hheap & _).
  assert (Hclosed0 : heapClosed (heap w0)) by (by rewrite Hheap).
  assert (Hnew0 : is_Some (owners (heap w0) !! newProcessor)) by (by rewrite Hheap).
  destruct (decide (getOwnerProcessor pcls (getDestination link) = Some oldProcessor)).
  - destruct (splitByFirst (getPath pcls (getDestination link)) dot) as [first rest] eqn:Hs.
    apply splitByFirst_length in Hs.
    destruct (liftHeap_getPropertyByPath fuel newProcessor rest w0 Hclosed0 Hnew0)
      as [r Hr]; [lia |].
    rewrite (bind_Return _ _ _ _ _ Hr). destruct r as [newDst|].
    + destruct (liftNetwork_addLink_keeps (getSource link) newDst w0) as (w' & Hrun & Hk).
      exists w'. split; [done |]. by eapply keepsAllButLinks_trans.
    + by exists w0.
  - destruct (decide (getOwnerProcessor pcls (getSource link) = Some oldProcessor)).
    + destruct (splitByFirst (getPath pcls (getSource link)) dot) as [first rest] eqn:Hs.
      apply splitByFirst_length in Hs.
      destruct (liftHeap_getPropertyByPath fuel newProcessor rest w0 Hclosed0 Hnew0)
        as [r Hr]; [lia |].
      rewrite (bind_Return _ _ _ _ _ Hr). destruct r as [newSrc|].
      * destruct (liftNetwork_addLink_keeps newSrc (getDestination link) w0)
          as (w' & Hrun & Hk).
        exists w'. split; [done |]. by eapply keepsAllButLinks_trans.
      * by exists w0.
    + by exists w0.
Qed.

Lemma forEach_addConnection (cons : list PortConnection) :
  ∀ w, ∃ w',
    forEach cons (λ con, liftNetwork (addConnection (getOutport con) (getInport con))) w
    = Return tt w' ∧
    heap w' = heap w ∧ processorIdentifier w' = processorIdentifier w ∧
    processorPosition w' = processorPosition w ∧
    getProcessors (network w') = getProcessors (network w) ∧
    getLinks (network w') = getLinks (network w) ∧
    ∀ c, c ∈ getConnections (network w') ↔ c ∈ getConnections (network w) ∨ c ∈ cons.
Proof.
  induction cons as [|con cons IH]; intros w.
  - exists w. split_and!; try done. intros c. set_solver.
  - destruct (addConnection (getOutport con) (getInport con) (network w))
      as [[] net1| | |] eqn:Hadd; try done.
    set (w1 := mkWorld (heap w) net1 (processorIdentifier w) (processorPosition w)).
    assert (Hstep : liftNetwork (addConnection (getOutport con) (getInport con)) w
                    = Return tt w1).
    { unfold liftNetwork. by rewrite Hadd. }
    destruct (IH w1) as (w' & Hrun & Hh & Hi & Hpos & Hp & Hl & Hc).
    exists w'. cbn [forEach]. rewrite (bind_Return _ _ _ _ _ Hstep).
    split; [done |].
    assert (Hcon : mkConnection (getOutport con) (getInport con) = con) by (by destruct con).
    split_and!; try done.
    + rewrite Hp. unfold w1. cbn [network].
      by destruct (elem_of_addConnection _ _ _ _ con Hadd) as (-> & _ & _).
    + rewrite Hl. unfold w1. cbn [network].
      by destruct (elem_of_addConnection _ _ _ _ con Hadd) as (_ & -> & _).
    + intros c. rewrite Hc. unfold w1. cbn [network].
      destruct (elem_of_addConnection _ _ _ _ c Hadd) as (_ & _ & ->).
      rewrite Hcon, elem_of_cons. tauto.
Qed.

Lemma elem_of_matchInports cls net news olds c :
  c ∈ matchInports cls net news olds →
  getInport c ∈ news ∧
  ∃ oldInport, oldInport ∈ olds ∧ getOutport c ∈ getConnectedOutports net oldInport.
Proof.
  unfold matchInports.
  assert (Hfold : ∀ news' olds' acc,
    (∀ x, x ∈ olds' → x ∈ olds) →
    (∀ c', c' ∈ acc → getInport c' ∈ news ∧
           ∃ oldInport, oldInport ∈ olds ∧
                        getOutport c' ∈ getConnectedOutports net oldInport) →
    (∀ x, x ∈ news' → x ∈ news) →
    ∀ c', c' ∈ (foldl (λ '(oldInports, newConnections) newInport,
                        match list_find
                                (λ oldInport,
                                   Forall (λ outport, canConnectTo cls newInport outport = true)
                                          (getConnectedOutports net oldInport))
                                oldInports with
                        | Some (it, oldInport) =>
                            (delete it oldInports,
                             newConnections ++
                               ((λ outport, mkConnection outport newInport) <$>
                                  getConnectedOutports net oldInport))
                        | None => (oldInports, newConnections)
                        end)
                     (olds', acc) news').2 →
          getInport c' ∈ news ∧
          ∃ oldInport, oldInport ∈ olds ∧
                       getOutport c' ∈ getConnectedOutports net oldInport).
  { induction news' as [|newInport news' IH]; intros olds' acc Holds Hacc Hnews c' Hc'.
    - by apply Hacc.
    - cbn [foldl] in Hc'.
      destruct (list_find _ olds') as [[it oldInport]|] eqn:Hfind.
      + eapply IH; [| | | exact Hc'].
        * intros x Hx. apply Holds. rewrite delete_take_drop in Hx.
          rewrite <- (take_drop it olds').
          apply elem_of_app in Hx as [Hx|Hx]; [set_solver |].
          apply elem_of_app. right.
          rewrite <- (take_drop 1 (drop it olds')). rewrite drop_drop.
          apply elem_of_app. right. by replace (it + 1) with (S it) by lia.
        * intros c0 [Hc0|Hc0]%elem_of_app; [by apply Hacc |].
          apply list_elem_of_fmap in Hc0 as (outport & -> & Hout). cbn [getInport getOutport].
          split; [apply Hnews, list_elem_of_here |].
          exists oldInport. split; [|done].
          apply list_find_Some in Hfind as (Hit & _). apply Holds.
          by eapply list_elem_of_lookup_2.
        * intros x Hx. by apply Hnews, list_elem_of_further.
      + eapply IH; [done | done | | exact Hc'].
        intros x Hx. by apply Hnews, list_elem_of_further. }
  apply Hfold; [done | | done]. intros c' Hc'. by apply elem_of_nil in Hc'.
Qed.

Lemma elem_of_matchOutports cls net news olds c :
  c ∈ matchOutports cls net news olds →
  getOutport c ∈ news ∧
  ∃ oldOutport, oldOutport ∈ olds ∧ getInport c ∈ getConnectedInports net oldOutport.
Proof.
  unfold matchOutports.
  assert (Hfold : ∀ news' olds' acc,
    (∀ x, x ∈ olds' → x ∈ olds) →
    (∀ c', c' ∈ acc → getOutport c' ∈ news ∧
           ∃ oldOutport, oldOutport ∈ olds ∧
                         getInport c' ∈ getConnectedInports net oldOutport) →
    (∀ x, x ∈ news' → x ∈ news) →
    ∀ c', c' ∈ (foldl (λ '(oldOutports, newConnections) newOutport,
                        match list_find
                                (λ oldOutport,
                                   Forall (λ inport, canConnectTo cls inport newOutport = true)
                                          (getConnectedInports net oldOutport))
                                oldOutports with
                        | Some (it, oldOutport) =>
                            (delete it oldOutports,
                             newConnections ++
                               ((λ inport, mkConnection newOutport inport) <$>
                                  getConnectedInports net oldOutport))
                        | None => (oldOutports, newConnections)
                        end)
                     (olds', acc) news').2 →
          getOutport c' ∈ news ∧
          ∃ oldOutport, oldOutport ∈ olds ∧
                        getInport c' ∈ getConnectedInports net oldOutport).
  { induction news' as [|newOutport news' IH]; intros olds' acc Holds Hacc Hnews c' Hc'.
    - by apply Hacc.
    - cbn [foldl] in Hc'.
      destruct (list_find _ olds') as [[it oldOutport]|] eqn:Hfind.
      + eapply IH; [| | | exact Hc'].
        * intros x Hx. apply Holds. rewrite delete_take_drop in Hx.
          rewrite <- (take_drop it olds').
          apply elem_of_app in Hx as [Hx|Hx]; [set_solver |].
          apply elem_of_app. right.
          rewrite <- (take_drop 1 (drop it olds')). rewrite drop_drop.
          apply elem_of_app. right. by replace (it + 1) with (S it) by lia.
        * intros c0 [Hc0|Hc0]%elem_of_app; [by apply Hacc |].
          apply list_elem_of_fmap in Hc0 as (inport & -> & Hin). cbn [getInport getOutport].
          split; [apply Hnews, list_elem_of_here |].
          exists oldOutport. split; [|done].
          apply list_find_Some in Hfind as (Hit & _). apply Holds.
          by eapply list_elem_of_lookup_2.
        * intros x Hx. by apply Hnews, list_elem_of_further.
      + eapply IH; [done | done | | exact Hc'].
        intros x Hx. by apply Hnews, list_elem_of_further. }
  apply Hfold; [done | | done]. intros c' Hc'. by apply elem_of_nil in Hc'.
Qed.

(** What [replaceProcessor] does to the network and to the processors. *)
Lemma replaceProcessor_run cls pcls fuel w newProcessor oldProcessor no oo id :
  owners (heap w) !! newProcessor = Some no →
  owners (heap w) !! oldProcessor = Some oo →
  heapClosed (heap w) →
  uniqueIdentifiers (heap w) (properties_ no) →
  uniqueIdentifiers (heap w) (properties_ oo) →
  (∀ p, p ∈ properties_ oo → p ∉ properties_ no) →
  oldProcessor ∈ getProcessors (network w) →
  processorIdentifier w !! oldProcessor = Some id →
  (∀ l, l ∈ getLinks (network w) →
        String.length (getPath pcls (getSource l)) ≤ fuel ∧
        String.length (getPath pcls (getDestination l)) ≤ fuel) →
  ∃ w',
    replaceProcessor cls pcls fuel newProcessor oldProcessor w = Return oldProcessor w' ∧
    processorIdentifier w' = <[newProcessor := id]> (processorIdentifier w) ∧
    processorPosition w' = processorPosition w ∧
    getProcessors (network w') =
      filter (λ p, p ≠ oldProcessor) (getProcessors (network w)) ∧
    (∀ l, l ∈ getLinks (network w') → involves pcls l oldProcessor = false) ∧
    ∀ c, c ∈ getConnections (network w') ↔
         (c ∈ getConnections (network w) ∧
          inportProcessor (getInport c) ≠ oldProcessor ∧
          outportProcessor (getOutport c) ≠ oldProcessor) ∨
         c ∈ (matchInports cls (network w) (getInports cls newProcessor)
                           (getInports cls oldProcessor) ++
              matchOutports cls (network w) (getOutports cls newProcessor)
                            (getOutports cls oldProcessor)).
Proof.
  intros Hnew Hold Hclosed Hnu Hou Hdisj Hin Hid Hfuel.
  destruct (Hclosed _ _ Hnew) as (Hnlive & _ & _).
  destruct (Hclosed _ _ Hold) as (Holive & _ & _).
  destruct (copyPropertyValues_spec (heap w) newProcessor oldProcessor no oo
              Hnew Hold Hnlive Holive Hnu Hou Hdisj) as (h1 & Hcopy & Hcopied).
  unfold replaceProcessor.
  unfold getNetwork at 1. unfold mbind at 1, M_bind at 1.
  set (newConnections := _ ++ _).
  set (w1 := mkWorld h1 (network w) (processorIdentifier w) (processorPosition w)).
  assert (Hstep1 : liftHeap (copyPropertyValues newProcessor oldProcessor) w = Return tt w1).
  { unfold liftHeap. by rewrite Hcopy. }
  rewrite (bind_Return _ _ _ _ _ Hstep1).
  destruct (moveLinks_keeps pcls fuel newProcessor oldProcessor w1)
    as (w2 & Hstep2 & (Hh2 & Hi2 & Hpos2 & Hp2 & Hc2)).
  { simpl. by eapply heapClosed_Copied. }
  { simpl. destruct Hcopied as (-> & _). by eexists. }
  { done. }
  rewrite (bind_Return _ _ _ _ _ Hstep2).
  assert (Hin2 : oldProcessor ∈ getProcessors (network w2)) by (by rewrite Hp2).
  set (w3 := mkWorld (heap w2)
               (mkNetwork (filter (λ p, p ≠ oldProcessor) (getProcessors (network w2)))
                          (filter (λ c, inportProcessor (getInport c) ≠ oldProcessor ∧
                                        outportProcessor (getOutport c) ≠ oldProcessor)
                                  (getConnections (network w2)))
                          (filter (λ l, involves pcls l oldProcessor = false)
                                  (getLinks (network w2)))
                          (getVersion (network w2)))
               (processorIdentifier w2) (processorPosition w2)).
  assert (Hstep3 : liftNetwork (removeProcessor pcls oldProcessor) w2
                   = Return (Some oldProcessor) w3).
  { unfold liftNetwork, removeProcessor.
    by destruct (decide (oldProcessor ∈ getProcessors (network w2))). }
  rewrite (bind_Return _ _ _ _ _ Hstep3).
  destruct (forEach_addConnection newConnections w3)
    as (w4 & Hstep4 & Hh4 & Hi4 & Hpos4 & Hp4 & Hl4 & Hc4).
  rewrite (bind_Return _ _ _ _ _ Hstep4).
  assert (Hid4 : processorIdentifier w4 !! oldProcessor = Some id).
  { rewrite Hi4. unfold w3. cbn [processorIdentifier]. by rewrite Hi2. }
  unfold Processor_getIdentifier at 1. unfold mbind at 1, M_bind at 1. rewrite Hid4.
  eexists. split; [reflexivity |].
  cbn [processorIdentifier processorPosition network].
  split_and!.
  - rewrite Hi4. unfold w3. cbn [processorIdentifier]. by rewrite Hi2.
  - rewrite Hpos4. unfold w3. cbn [processorPosition]. by rewrite Hpos2.
  - rewrite Hp4. unfold w3. cbn [network getProcessors]. by rewrite Hp2.
  - intros l. rewrite Hl4. unfold w3. cbn [network getLinks].
    by intros [? _]%list_elem_of_filter.
  - intros c. rewrite Hc4. unfold w3. cbn [network getConnections].
    rewrite list_elem_of_filter, Hc2. unfold w1. cbn [network]. tauto.
Qed.

(** X16: after [replaceProcessor] nothing in the network refers to the old
    processor: it is no longer among the processors, no link has an end that
    belongs to it, and, provided it had no connection to itself and the ports
    of the new processor are the new processor's own, no connection touches
    it.  The other processors stay, in their order, and the connections that
    did not touch the old processor stay as well. *)
Theorem replaceProcessor_no_dangling
    (cls : ProcessorClass) (pcls : PropertyClass) (fuel : nat) (w : World)
    (newProcessor oldProcessor : ProcessorPtr) (no oo : PropertyOwner) (id : string) :
  owners (heap w) !! newProcessor = Some no →
  owners (heap w) !! oldProcessor = Some oo →
  heapClosed (heap w) →
  uniqueIdentifiers (heap w) (properties_ no) →
  uniqueIdentifiers (heap w) (properties_ oo) →
  (∀ p, p ∈ properties_ oo → p ∉ properties_ no) →
  oldProcessor ∈ getProcessors (network w) →
  processorIdentifier w !! oldProcessor = Some id →
  (∀ l, l ∈ getLinks (network w) →
        String.length (getPath pcls (getSource l)) ≤ fuel ∧
        String.length (getPath pcls (getDestination l)) ≤ fuel) →
  newProcessor ≠ oldProcessor →
  (∀ port, port ∈ getInports cls newProcessor → inportProcessor port = newProcessor) →
  (∀ port, port ∈ getOutports cls newProcessor → outportProcessor port = newProcessor) →
  (∀ c, c ∈ getConnections (network w) →
        (getInport c ∈ getInports cls oldProcessor →
         outportProcessor (getOutport c) ≠ oldProcessor) ∧
        (getOutport c ∈ getOutports cls oldProcessor →
         inportProcessor (getInport c) ≠ oldProcessor)) →
  ∃ w',
    replaceProcessor cls pcls fuel newProcessor oldProcessor w = Return oldProcessor w' ∧
    getProcessors (network w') =
      filter (λ p, p ≠ oldProcessor) (getProcessors (network w)) ∧
    (oldProcessor ∉ getProcessors (network w')) ∧
    unlinked pcls (network w') oldProcessor ∧
    untouched (network w') oldProcessor ∧
    ∀ c, c ∈ getConnections (network w) →
         inportProcessor (getInport c) ≠ oldProcessor →
         outportProcessor (getOutport c) ≠ oldProcessor →
         c ∈ getConnections (network w').
Proof.
  intros Hnew Hold Hclosed Hnu Hou Hdisj Hin Hid Hfuel Hne Hinports Houtports Hself.
  destruct (replaceProcessor_run cls pcls fuel w newProcessor oldProcessor no oo id
              Hnew Hold Hclosed Hnu Hou Hdisj Hin Hid Hfuel)
    as (w' & Hrun & _ & _ & Hp & Hl & Hc).
  exists w'. split_and!; [done | done | | | |].
  - rewrite Hp. by intros [? _]%list_elem_of_filter.
  - intros l Hlink. apply Hl in Hlink. unfold involves in Hlink.
    apply orb_false_elim in Hlink as [Hs Hd].
    apply bool_decide_eq_false in Hs. apply bool_decide_eq_false in Hd. done.
  - intros c [(_ & Hi & Ho) | Hnewc]%Hc; [done |].
    apply elem_of_app in Hnewc as [Hm|Hm].
    + apply elem_of_matchInports in Hm as (Hport & oldInport & Hold' & Hout).
      split; [by rewrite (Hinports _ Hport) |].
      unfold getConnectedOutports in Hout.
      apply list_elem_of_fmap in Hout as (c0 & Hc0 & Hin0).
      apply list_elem_of_filter in Hin0 as [Hport0 Hin0].
      rewrite Hc0. apply (Hself c0 Hin0). by rewrite Hport0.
    + apply elem_of_matchOutports in Hm as (Hport & oldOutport & Hold' & Hinp).
      split; [|by rewrite (Houtports _ Hport)].
      unfold getConnectedInports in Hinp.
      apply list_elem_of_fmap in Hinp as (c0 & Hc0 & Hin0).
      apply list_elem_of_filter in Hin0 as [Hport0 Hin0].
      rewrite Hc0. apply (Hself c0 Hin0). by rewrite Hport0.
  - intros c Hcin Hi Ho. apply Hc. by left.
Qed.

(** X17: the overload of [replaceProcessor] that is handed a new processor
    puts it at the position of the old one, adds it to the network and
    replaces the old processor by it: afterwards the new processor is in the
    network, at the old position and under the old identifier, and the old
    processor is not in the network. *)
Theorem replaceProcessorShared_takes_place
    (cls : ProcessorClass) (pcls : PropertyClass) (fuel : nat) (w : World)
    (newProcessor oldProcessor : ProcessorPtr) (no oo : PropertyOwner) (id : string)
    (pos : Z * Z) :
  owners (heap w) !! newProcessor = Some no →
  owners (heap w) !! oldProcessor = Some oo →
  heapClosed (heap w) →
  uniqueIdentifiers (heap w) (properties_ no) →
  uniqueIdentifiers (heap w) (properties_ oo) →
  (∀ p, p ∈ properties_ oo → p ∉ properties_ no) →
  oldProcessor ∈ getProcessors (network w) →
  processorIdentifier w !! oldProcessor = Some id →
  processorPosition w !! oldProcessor = Some pos →
  (∀ l, l ∈ getLinks (network w) →
        String.length (getPath pcls (getSource l)) ≤ fuel ∧
        String.length (getPath pcls (getDestination l)) ≤ fuel) →
  newProcessor ≠ oldProcessor →
  ∃ w',
    replaceProcessorShared cls pcls fuel newProcessor oldProcessor w
    = Return oldProcessor w' ∧
    processorPosition w' !! newProcessor = Some pos ∧
    processorIdentifier w' !! newProcessor = Some id ∧
    newProcessor ∈ getProcessors (network w') ∧
    (oldProcessor ∉ getProcessors (network w')) ∧
    ∀ p, p ≠ newProcessor → p ≠ oldProcessor →
         (p ∈ getProcessors (network w') ↔ p ∈ getProcessors (network w)).
Proof.
  intros Hnew Hold Hclosed Hnu Hou Hdisj Hin Hid Hpos Hfuel Hne.
  unfold replaceProcessorShared.
  assert (Hstep1 : getPosition oldProcessor w = Return pos w).
  { unfold getPosition. by rewrite Hpos. }
  rewrite (bind_Return _ _ _ _ _ Hstep1).
  set (w1 := mkWorld (heap w) (network w) (processorIdentifier w)
                     (<[newProcessor := pos]> (processorPosition w))).
  assert (Hstep2 : setPosition newProcessor pos w = Return tt w1) by done.
  rewrite (bind_Return _ _ _ _ _ Hstep2).
  destruct (addProcessor_Return newProcessor (network w))
    as (net2 & Hadd & Hc2 & Hl2 & _ & Hp2).
  set (w2 := mkWorld (heap w) net2 (processorIdentifier w)
                     (<[newProcessor := pos]> (processorPosition w))).
  assert (Hstep3 : liftNetwork (addProcessor newProcessor) w1 = Return tt w2).
  { unfold liftNetwork. cbn [network w1]. by rewrite Hadd. }
  rewrite (bind_Return _ _ _ _ _ Hstep3).
  destruct (replaceProcessor_run cls pcls fuel w2 newProcessor oldProcessor no oo id)
    as (w' & Hrun & Hi & Hposition & Hp & _); try done.
  { cbn [w2 network]. apply Hp2. by left. }
  { cbn [w2 network]. by rewrite Hl2. }
  exists w'. split_and!; [done | | | | |].
  - rewrite Hposition. cbn [w2 processorPosition]. apply lookup_insert_eq.
  - rewrite Hi. apply lookup_insert_eq.
  - rewrite Hp. apply list_elem_of_filter. split; [done |].
    cbn [w2 network]. apply Hp2. by right.
  - rewrite Hp. by intros [? _]%list_elem_of_filter.
  - intros p Hpn Hpo. rewrite Hp, list_elem_of_filter. cbn [w2 network]. rewrite Hp2.
    tauto.
Qed.

Lemma replaceWorldNew_lengths (l : PropertyLink) :
  l ∈ getLinks (network replaceWorldNew) →
  String.length (getPath replaceProperties (getSource l)) ≤ 6 ∧
  String.length (getPath replaceProperties (getDestination l)) ≤ 6.
Proof. intros Hl. simpl in Hl. elem_cases Hl. simpl. lia. Qed.

Lemma replaceWorld_disjoint (p : Addr) : p ∈ [10; 11] → p ∉ [20; 21].
Proof.
  intros Hp Hq. elem_cases Hp;
    repeat (apply elem_of_cons in Hq as [? | Hq]; [lia |]); by apply elem_of_nil in Hq.
Qed.

Lemma replaceProcessor_no_dangling_witness :
  ∃ w',
    replaceProcessor replaceClass replaceProperties 6 4 2 replaceWorld = Return 2 w' ∧
    getProcessors (network w') = [0; 1; 3; 4] ∧
    unlinked replaceProperties (network w') 2 ∧
    untouched (network w') 2.
Proof.
  destruct (replaceProcessor_no_dangling replaceClass replaceProperties 6
              replaceWorld 4 2
              (mkPropertyOwner [20; 21] [] [] [] Valid [])
              (mkPropertyOwner [10; 11] [] [] [] Valid []) "A")
    as (w' & Hrun & Hp & _ & Hlinks & Hconnections & _).
  - reflexivity.
  - reflexivity.
  - exact replaceWorld_heapClosed.
  - by apply (replaceWorld_unique 4).
  - by apply (replaceWorld_unique 2).
  - exact replaceWorld_disjoint.
  - simpl. set_solver.
  - reflexivity.
  - exact replaceWorldNew_lengths.
  - done.
  - intros port Hport. change (port ∈ [mkInport 4 0]) in Hport.
    by apply list_elem_of_singleton in Hport as ->.
  - intros port Hport. change (port ∈ [mkOutport 4 0]) in Hport.
    by apply list_elem_of_singleton in Hport as ->.
  - intros c Hc. simpl in Hc. elem_cases Hc; split; intros H; simpl; try lia.
    all: exfalso; vm_compute in H; set_solver.
  - by exists w'.
Defined.

Lemma replaceProcessorShared_takes_place_witness :
  ∃ w',
    replaceProcessorShared replaceClass replaceProperties 6 4 2 replaceWorldNew
    = Return 2 w' ∧
    processorPosition w' !! 4 = Some (100, 50)%Z ∧
    processorIdentifier w' !! 4 = Some "A" ∧
    4 ∈ getProcessors (network w').
Proof.
  destruct (replaceProcessorShared_takes_place replaceClass replaceProperties 6
              replaceWorldNew 4 2
              (mkPropertyOwner [20; 21] [] [] [] Valid [])
              (mkPropertyOwner [10; 11] [] [] [] Valid []) "A" (100, 50)%Z)
    as (w' & Hrun & Hpos & Hid & Hin & _).
  - reflexivity.
  - reflexivity.
  - exact replaceWorld_heapClosed.
  - by apply (replaceWorld_unique 4).
  - by apply (replaceWorld_unique 2).
  - exact replaceWorld_disjoint.
  - simpl. set_solver.
  - reflexivity.
  - reflexivity.
  - exact replaceWorldNew_lengths.
  - done.
  - by exists w'.
Defined.

(** ** Positions *)

Lemma quot_between (s n lo hi : Z) :
  (0 < n)%Z → (n * lo ≤ s ≤ n * hi)%Z → (lo ≤ Z.quot s n ≤ hi)%Z.
Proof.
  intros Hn [Hlo Hhi].
  pose proof (Z.quot_rem' s n) as Heq.
  assert (Hr : (0 ≤ s → 0 ≤ Z.rem s n < n)%Z ∧ (s ≤ 0 → - n < Z.rem s n ≤ 0)%Z).
  { split; intros Hs.
    - by apply Z.rem_bound_pos.
    - pose proof (Z.rem_nonpos s n ltac:(lia) Hs).
      pose proof (Z.rem_bound_abs s n ltac:(lia)). lia. }
  revert Heq Hr. generalize (Z.quot s n) (Z.rem s n). intros q r Heq [Hpos Hneg].
  destruct (Z.le_ge_cases 0 s) as [Hs|Hs].
  - specialize (Hpos Hs). split.
    + assert (n * lo < n * (q + 1))%Z by lia.
      apply Z.mul_lt_mono_pos_l in H; lia.
    + assert (n * q ≤ n * hi)%Z by lia.
      apply Z.mul_le_mono_pos_l in H; lia.
  - specialize (Hneg Hs). split.
    + assert (n * lo ≤ n * q)%Z by lia.
      apply Z.mul_le_mono_pos_l in H; lia.
    + assert (n * q < n * (hi + 1))%Z by lia.
      apply Z.mul_lt_mono_pos_l in H; lia.
Qed.

Lemma static_cast_int_small (n : nat) :
  (Z.of_nat n ≤ INT_MAX)%Z → static_cast_int n = Z.of_nat n.
Proof.
  unfold static_cast_int, INT_MAX. intros Hn.
  rewrite Z.mod_small by lia. lia.
Qed.

Section PositionFacts.

Variable getPosition : ProcessorPtr -> ivec2.

Lemma boundingBox_fold (ps : list ProcessorPtr) :
  ∀ mn mx mn' mx',
    foldl (λ '(minPos, maxPos) p,
             let pos := getPosition p in
             (glm_min minPos pos, glm_max maxPos pos)) (mn, mx) ps = (mn', mx') →
    (mn'.1 ≤ mn.1 ∧ mn'.2 ≤ mn.2 ∧ mx.1 ≤ mx'.1 ∧ mx.2 ≤ mx'.2)%Z ∧
    (∀ p, p ∈ ps →
          (mn'.1 ≤ (getPosition p).1 ≤ mx'.1 ∧ mn'.2 ≤ (getPosition p).2 ≤ mx'.2)%Z) ∧
    (mn'.1 = mn.1 ∨ ∃ p, p ∈ ps ∧ (getPosition p).1 = mn'.1) ∧
    (mn'.2 = mn.2 ∨ ∃ p, p ∈ ps ∧ (getPosition p).2 = mn'.2) ∧
    (mx'.1 = mx.1 ∨ ∃ p, p ∈ ps ∧ (getPosition p).1 = mx'.1) ∧
    (mx'.2 = mx.2 ∨ ∃ p, p ∈ ps ∧ (getPosition p).2 = mx'.2).
Proof.
  induction ps as [|p ps IH]; intros mn mx mn' mx' Hfold.
  - simpl in Hfold. injection Hfold as <- <-.
    split_and!; try lia; try (by left). intros p Hp. by apply elem_of_nil in Hp.
  - cbn [foldl] in Hfold. apply IH in Hfold as (Hmono & Hall & H1 & H2 & H3 & H4).
    unfold glm_min, glm_max in *. cbn [fst snd] in *.
    split_and!; try lia.
    + intros q [->|Hq]%elem_of_cons; [lia | by apply Hall].
    + destruct H1 as [H1 | (q & Hq & H1)]; [| right; exists q; split; [set_solver | done]].
      destruct (Z.min_spec mn.1 (getPosition p).1) as [[_ Hm]|[_ Hm]].
      * left. lia.
      * right. exists p. split; [set_solver | lia].
    + destruct H2 as [H2 | (q & Hq & H2)]; [| right; exists q; split; [set_solver | done]].
      destruct (Z.min_spec mn.2 (getPosition p).2) as [[_ Hm]|[_ Hm]].
      * left. lia.
      * right. exists p. split; [set_solver | lia].
    + destruct H3 as [H3 | (q & Hq & H3)]; [| right; exists q; split; [set_solver | done]].
      destruct (Z.max_spec mx.1 (getPosition p).1) as [[_ Hm]|[_ Hm]].
      * right. exists p. split; [set_solver | lia].
      * left. lia.
    + destruct H4 as [H4 | (q & Hq & H4)]; [| right; exists q; split; [set_solver | done]].
      destruct (Z.max_spec mx.2 (getPosition p).2) as [[_ Hm]|[_ Hm]].
      * right. exists p. split; [set_solver | lia].
      * left. lia.
Qed.

Lemma getBoundingBox_nonempty (processors : list ProcessorPtr) :
  processors ≠ [] →
  getBoundingBox getPosition processors =
  foldl (λ '(minPos, maxPos) p,
           let pos := getPosition p in
           (glm_min minPos pos, glm_max maxPos pos))
        ((INT_MAX, INT_MAX), (INT_LOWEST, INT_LOWEST)) processors.
Proof. by destruct processors. Qed.

Lemma getBoundingBoxOfNetwork_fold (ps : list ProcessorPtr) :
  ∀ mn mx e,
    foldl (λ '(minPos, maxPos, empty) p,
             let pos := getPosition p in
             (glm_min minPos pos, glm_max maxPos pos, false)) (mn, mx, e) ps =
    (foldl (λ '(minPos, maxPos) p,
              let pos := getPosition p in
              (glm_min minPos pos, glm_max maxPos pos)) (mn, mx) ps,
     match ps with [] => e | _ => false end).
Proof.
  induction ps as [|p ps IH]; intros mn mx e; [done |].
  cbn [foldl]. rewrite IH. by destruct ps.
Qed.

Lemma getBoundingBox_contains (processors : list ProcessorPtr) :
  (∀ p, p ∈ processors → isInt (getPosition p).1 ∧ isInt (getPosition p).2) →
  processors ≠ [] →
  ∃ mn mx,
    getBoundingBox getPosition processors = (mn, mx) ∧
    (∀ p, p ∈ processors →
          (mn.1 ≤ (getPosition p).1 ≤ mx.1 ∧ mn.2 ≤ (getPosition p).2 ≤ mx.2)%Z) ∧
    (∃ p, p ∈ processors ∧ (getPosition p).1 = mn.1) ∧
    (∃ p, p ∈ processors ∧ (getPosition p).2 = mn.2) ∧
    (∃ p, p ∈ processors ∧ (getPosition p).1 = mx.1) ∧
    (∃ p, p ∈ processors ∧ (getPosition p).2 = mx.2).
Proof.
  intros Hint Hne. rewrite (getBoundingBox_nonempty _ Hne).
  destruct (foldl _ _ processors) as [mn mx] eqn:Hfold.
  apply boundingBox_fold in Hfold as (_ & Hall & H1 & H2 & H3 & H4).
  cbn [fst snd] in *.
  destruct processors as [|p0 ps]; [done |].
  destruct (Hint p0) as [Hx Hy]; [set_solver |].
  destruct (Hall p0) as [Hbx Hby]; [set_solver |].
  unfold isInt in *.
  exists mn, mx. split_and!; [done | done | | | |].
  + destruct H1 as [H1|H1]; [|done]. exists p0. split; [set_solver | lia].
  + destruct H2 as [H2|H2]; [|done]. exists p0. split; [set_solver | lia].
  + destruct H3 as [H3|H3]; [|done]. exists p0. split; [set_solver | lia].
  + destruct H4 as [H4|H4]; [|done]. exists p0. split; [set_solver | lia].
Qed.

(** X18: the bounding box of a non-empty list of processors is tight: every
    listed processor lies inside it, and each of its four sides passes through
    the position of a listed processor.  The box of the empty list is the
    origin, and the box of a network is the box of its processors. *)
Theorem getBoundingBox_tight (processors : list ProcessorPtr) (net : ProcessorNetwork) :
  (∀ p, p ∈ processors → isInt (getPosition p).1 ∧ isInt (getPosition p).2) →
  getBoundingBox getPosition [] = ((0, 0)%Z, (0, 0)%Z) ∧
  getBoundingBoxOfNetwork getPosition net = getBoundingBox getPosition (getProcessors net) ∧
  (processors ≠ [] →
   ∃ mn mx,
     getBoundingBox getPosition processors = (mn, mx) ∧
     (∀ p, p ∈ processors →
           (mn.1 ≤ (getPosition p).1 ≤ mx.1 ∧ mn.2 ≤ (getPosition p).2 ≤ mx.2)%Z) ∧
     (∃ p, p ∈ processors ∧ (getPosition p).1 = mn.1) ∧
     (∃ p, p ∈ processors ∧ (getPosition p).2 = mn.2) ∧
     (∃ p, p ∈ processors ∧ (getPosition p).1 = mx.1) ∧
     (∃ p, p ∈ processors ∧ (getPosition p).2 = mx.2)).
Proof.
  intros Hint. split_and!.
  - done.
  - unfold getBoundingBoxOfNetwork. rewrite getBoundingBoxOfNetwork_fold.
    destruct (getProcessors net) as [|p ps] eqn:Hps; [done |].
    rewrite <- Hps. rewrite getBoundingBox_nonempty by (by rewrite Hps).
    by destruct (foldl _ _ _) as [mn mx].
  - by apply getBoundingBox_contains.
Qed.

Lemma getCenterPosition_nonempty (processors : list ProcessorPtr) :
  processors ≠ [] →
  getCenterPosition getPosition processors =
  foldl (λ center p, center ← center; addVec center (getPosition p))
        (Some (0, 0)%Z) processors
  ≫= λ center, Some (divVec center (static_cast_int (length processors))).
Proof. by destruct processors. Qed.

Lemma centre_fold (ps : list ProcessorPtr) (lo hi : ivec2) :
  (∀ p, p ∈ ps → (lo.1 ≤ (getPosition p).1 ≤ hi.1 ∧ lo.2 ≤ (getPosition p).2 ≤ hi.2)%Z) →
  ∀ c0 s,
    foldl (λ center p, center ← center; addVec center (getPosition p)) (Some c0) ps
    = Some s →
    (c0.1 + Z.of_nat (length ps) * lo.1 ≤ s.1 ≤ c0.1 + Z.of_nat (length ps) * hi.1)%Z ∧
    (c0.2 + Z.of_nat (length ps) * lo.2 ≤ s.2 ≤ c0.2 + Z.of_nat (length ps) * hi.2)%Z.
Proof.
  induction ps as [|p ps IH]; intros Hall c0 s Hfold.
  - simpl in Hfold. injection Hfold as <-. simpl. lia.
  - cbn [foldl] in Hfold. cbn [mbind option_bind] in Hfold.
    destruct (addVec c0 (getPosition p)) as [c1|] eqn:Hadd.
    2: { exfalso. clear -Hfold. induction ps as [|q ps IHps]; [done |].
         by apply IHps. }
    destruct (Hall p) as [Hx Hy]; [set_solver |].
    apply IH in Hfold as [Hsx Hsy]; [| intros q Hq; apply Hall; set_solver].
    unfold addVec, addInt in Hadd.
    destruct (decide (INT_LOWEST ≤ c0.1 + (getPosition p).1 ≤ INT_MAX)%Z); [|done].
    destruct (decide (INT_LOWEST ≤ c0.2 + (getPosition p).2 ≤ INT_MAX)%Z); [|done].
    simpl in Hadd. injection Hadd as <-. cbn [fst snd] in *.
    rewrite length_cons, Nat2Z.inj_succ. lia.
Qed.

(** X19: the center of a non-empty list of processors, whenever the sums of
    the positions stay within [int], lies inside their bounding box; the
    center of the empty list is the origin. *)
Theorem getCenterPosition_in_bounding_box (processors : list ProcessorPtr) (c : ivec2) :
  (∀ p, p ∈ processors → isInt (getPosition p).1 ∧ isInt (getPosition p).2) →
  (Z.of_nat (length processors) ≤ INT_MAX)%Z →
  getCenterPosition getPosition processors = Some c →
  getCenterPosition getPosition [] = Some (0, 0)%Z ∧
  (processors ≠ [] →
   ∃ mn mx,
     getBoundingBox getPosition processors = (mn, mx) ∧
     (mn.1 ≤ c.1 ≤ mx.1 ∧ mn.2 ≤ c.2 ≤ mx.2)%Z).
Proof.
  intros Hint Hlen Hcenter. split; [done |]. intros Hne.
  destruct (getBoundingBox_contains processors Hint Hne) as (mn & mx & Hbb & Hall & _).
  exists mn, mx. split; [done |].
  rewrite (getCenterPosition_nonempty _ Hne) in Hcenter.
  destruct (foldl _ _ processors) as [s|] eqn:Hfold; [|done].
  simpl in Hcenter. injection Hcenter as <-.
  apply (centre_fold processors mn mx Hall) in Hfold as [Hsx Hsy].
  cbn [fst snd] in *. rewrite static_cast_int_small by done.
  assert (Hpos : (0 < Z.of_nat (length processors))%Z).
  { destruct processors; [done | simpl; lia]. }
  unfold divVec. cbn [fst snd].
  split; apply quot_between; lia.
Qed.

End PositionFacts.

Lemma examplePosition_isInt (p : ProcessorPtr) :
  p ∈ [0; 1; 2] → isInt (examplePosition p).1 ∧ isInt (examplePosition p).2.
Proof. intros Hp. elem_cases Hp; unfold isInt, INT_LOWEST, INT_MAX; simpl; lia. Qed.

Lemma getBoundingBox_tight_witness :
  getBoundingBoxOfNetwork examplePosition chainNetwork =
    getBoundingBox examplePosition [3; 2; 1; 0] ∧
  ∃ mn mx,
    getBoundingBox examplePosition [0; 1; 2] = (mn, mx) ∧
    ∀ p, p ∈ [0; 1; 2] →
         (mn.1 ≤ (examplePosition p).1 ≤ mx.1 ∧ mn.2 ≤ (examplePosition p).2 ≤ mx.2)%Z.
Proof.
  destruct (getBoundingBox_tight examplePosition [0; 1; 2] chainNetwork
              examplePosition_isInt) as (_ & Hnet & Hbox).
  split; [exact Hnet |].
  destruct (Hbox ltac:(done)) as (mn & mx & Hbb & Hall & _).
  by exists mn, mx.
Defined.

Lemma getCenterPosition_in_bounding_box_witness :
  ∃ mn mx,
    getBoundingBox examplePosition [0; 1; 2] = (mn, mx) ∧
    (mn.1 ≤ 100 ≤ mx.1 ∧ mn.2 ≤ 30 ≤ mx.2)%Z.
Proof.
  destruct (getCenterPosition_in_bounding_box examplePosition [0; 1; 2] (100, 30)%Z
              examplePosition_isInt) as [_ Hcenter].
  - unfold INT_MAX. simpl. lia.
  - reflexivity.
  - by apply Hcenter.
Defined.

(** ** Predecessors *)

Section Accumulators.

Variable iterate : gset ProcessorPtr -> list ProcessorPtr.
Variable cls : ProcessorClass.
Variable D : TraversalDirection.
Variable V : VisitPattern.
Variable filter : ProcessorPtr -> Inport -> Outport -> bool.
Variable net : ProcessorNetwork.

Lemma foldl_push_back (l0 L : list ProcessorPtr) : foldl push_back l0 L = l0 ++ L.
Proof.
  revert l0. induction L as [|x L IH]; intros l0; simpl.
  - by rewrite app_nil_r.
  - rewrite IH. unfold push_back. by rewrite <- app_assoc.
Qed.

(** The traversal calls the function on the processors in an order that
    does not depend on the function: with any function [f] it returns the
    fold of [f] over the list that [push_back] collects. *)
Lemma traverseNetwork_fold {A : Type} (f : A -> ProcessorPtr -> A) (fuel : nat) :
  ∀ (S : gset ProcessorPtr) (acc : A) (p : ProcessorPtr),
    traverseNetwork iterate cls D V filter f net fuel S acc p =
    (λ r, (r.1, foldl f acc r.2)) <$>
      traverseNetwork iterate cls D V filter push_back net fuel S [] p.
Proof.
  revert A f. induction fuel as [|fuel IH]; intros A f S acc p.
  - simpl. by destruct (decide (p ∈ S)).
  - cbn [traverseNetwork]. destruct (decide (p ∈ S)); [done |].
    assert (Heach : ∀ (B : Type) (g : B -> ProcessorPtr -> B) ps S0 (b : B) l0,
      traverseEach (traverseNetwork iterate cls D V filter g net fuel) ps S0
                   (foldl g b l0) =
      (λ r, (r.1, foldl g b r.2)) <$>
        traverseEach (traverseNetwork iterate cls D V filter push_back net fuel) ps S0 l0).
    { intros B g ps. induction ps as [|q ps IHps]; intros S0 b l0; [done |].
      cbn [traverseEach]. rewrite (IH B g), (IH _ push_back S0 l0 q).
      destruct (traverseNetwork iterate cls D V filter push_back net fuel S0 [] q)
        as [[S1 L1]|]; [|done].
      cbn [fmap option_fmap option_map fst snd].
      rewrite foldl_push_back, <- foldl_app. apply IHps. }
    destruct V.
    + specialize (Heach A f
        (iterate match D with
                 | Up => getDirectPredecessorsFiltered cls filter net p
                 | Down => getDirectSuccessorsFiltered cls filter net p
                 end) ({[p]} ∪ S) acc [p]).
      cbn [foldl] in Heach. unfold push_back at 2. cbn [app]. rewrite Heach.
      by destruct (traverseEach _ _ _ [p]) as [[S2 L2]|].
    + specialize (Heach A f
        (iterate match D with
                 | Up => getDirectPredecessorsFiltered cls filter net p
                 | Down => getDirectSuccessorsFiltered cls filter net p
                 end) ({[p]} ∪ S) acc []).
      cbn [foldl] in Heach. rewrite Heach.
      destruct (traverseEach _ _ _ []) as [[S2 L2]|]; [|done].
      cbn [fmap option_fmap option_map fst snd].
      unfold push_back at 1. by rewrite foldl_app.
Qed.

End Accumulators.

Lemma elem_of_foldl_union (L : list ProcessorPtr) (acc : gset ProcessorPtr) (x : ProcessorPtr) :
  x ∈ foldl (λ predecessors p, {[p]} ∪ predecessors) acc L ↔ x ∈ acc ∨ x ∈ L.
Proof.
  revert acc. induction L as [|y L IH]; intros acc; simpl.
  - set_solver.
  - rewrite IH. set_solver.
Qed.

(** X20: with the traversal of section 4.2 for [traverseNetwork], which
    networkutils.h declares, [getPredecessors] returns, for every network and
    whatever the iteration order of the sets, exactly the processors from
    which the processor can be reached along connections, the processor
    itself included. *)
Theorem getPredecessors_reachable
    (iterate : gset ProcessorPtr -> list ProcessorPtr)
    (cls : ProcessorClass) (net : ProcessorNetwork) (fuel : nat) (p : ProcessorPtr) :
  (∀ s x, x ∈ iterate s ↔ x ∈ s) →
  1 + length (getConnections net) < fuel →
  ∃ predecessors,
    getPredecessors iterate cls fuel net p = Some predecessors ∧
    p ∈ predecessors ∧
    ∀ q, q ∈ predecessors ↔ rtc (feeds cls DefaultTraversalFilter net) q p.
Proof.
  intros Hiter Hfuel.
  set (E := feeds cls DefaultTraversalFilter net).
  set (U := ({[p]} ∪ list_to_set ((outportProcessor ∘ getOutport) <$> getConnections net))
            : gset ProcessorPtr).
  assert (HU : ∀ q r, q ∈ U → E r q → r ∈ U).
  { intros q r _ (c & Hc & _ & _ & <-). apply elem_of_union. right.
    apply elem_of_list_to_set, list_elem_of_fmap. by exists c. }
  assert (Hsize : size (U ∖ ∅) < fuel).
  { eapply Nat.le_lt_trans; [|exact Hfuel].
    etrans; [apply (subseteq_size _ U); set_solver |].
    unfold U. rewrite size_union_alt, size_singleton.
    apply Nat.add_le_mono_l.
    etrans; [apply subseteq_size, subseteq_difference_l; reflexivity |].
    etrans; [apply (size_list_to_set_le iterate Hiter) |]. by rewrite length_fmap. }
  destruct (traverseNetwork_total iterate Hiter cls DefaultTraversalFilter net U HU
              fuel ∅ [] p) as [[S' L] Hrun]; [set_solver | done |].
  pose proof (traverseNetwork_sound iterate Hiter cls DefaultTraversalFilter net
                fuel ∅ [] p S' L Hrun) as (L0 & HL & HS & _ & _ & Hin & Hre & Hor).
  simpl in HL. subst L0.
  assert (Hmem : ∀ x, x ∈ S' ↔ x ∈ L).
  { intros x. rewrite HS, elem_of_union, elem_of_list_to_set. set_solver. }
  assert (HpL : p ∈ L) by (apply Hmem, Hin; set_solver).
  exists (foldl (λ predecessors q, {[q]} ∪ predecessors) ∅ L).
  split_and!.
  - unfold getPredecessors. rewrite traverseNetwork_fold, Hrun. done.
  - apply elem_of_foldl_union. by right.
  - intros q. rewrite elem_of_foldl_union. split.
    + intros [Hq|Hq]; [by apply not_elem_of_empty in Hq |].
      destruct (Hre q Hq) as (c & Hc & Hreach).
      by apply list_elem_of_singleton in Hc as ->.
    + intros Hreach. right.
      induction Hreach as [|q m p Hqm _ IH]; [done |].
      assert (Hm : m ∈ L) by (by apply IH).
      apply Hmem. by destruct (Hor m q Hm Hqm).
Qed.

Lemma getPredecessors_reachable_witness :
  ∃ predecessors,
    getPredecessors elements feedbackClass 4 chainNetwork 2 = Some predecessors ∧
    2 ∈ predecessors ∧
    (0 ∈ predecessors ↔ rtc (feeds feedbackClass DefaultTraversalFilter chainNetwork) 0 2).
Proof.
  destruct (getPredecessors_reachable elements feedbackClass chainNetwork 4 2)
    as (predecessors & Hrun & Hself & Hreach).
  - intros s x. apply elem_of_elements.
  - simpl. lia.
  - exists predecessors. split_and!; [done | done | apply Hreach].
Defined.

(** * Further properties of the module manager *)

(** ** The order of the modules *)

Lemma sortHelper_unfold fuel containers lname :
  sortHelper fuel containers lname =
  match List.find (λ cont, bool_decide (identifier cont = lname)) containers with
  | None => throw (MissingModuleDependency lname)
  | Some it =>
      s ← getSortState;
      if decide (lname ∈ sortVisited s) then mret tt
      else if decide (lname ∈ sortTmpVisited s) then throw NotADag
      else
        match fuel with
        | 0 => outOfFuel
        | S fuel' =>
            markTemporary lname;;
            forEach (dependencies it) (sortHelper fuel' containers);;
            markVisited lname
        end
  end.
Proof. by destruct fuel. Qed.

Lemma find_identifier_Some containers lname it :
  List.find (λ cont, bool_decide (identifier cont = lname)) containers = Some it →
  it ∈ containers ∧ identifier it = lname.
Proof.
  intros [Hin Hid]%find_some. split; [by apply list_elem_of_In |].
  by apply bool_decide_eq_true_1 in Hid.
Qed.

Lemma find_identifier_None containers lname :
  List.find (λ cont, bool_decide (identifier cont = lname)) containers = None →
  lname ∉ moduleIdentifiers containers.
Proof.
  intros Hnone Hin. unfold moduleIdentifiers in Hin.
  apply elem_of_list_to_set, list_elem_of_fmap in Hin as (cont & -> & Hcont).
  apply list_elem_of_In in Hcont. pose proof (find_none _ _ Hnone cont Hcont) as Hf.
  simpl in Hf. by apply bool_decide_eq_false_1 in Hf.
Qed.

Lemma elem_of_moduleIdentifiers containers cont :
  cont ∈ containers → identifier cont ∈ moduleIdentifiers containers.
Proof.
  intros Hin. apply elem_of_list_to_set, list_elem_of_fmap. by exists cont.
Qed.

Lemma indexOf_elem_of (v : list string) (x : string) : x ∈ v ↔ indexOf v x < length v.
Proof.
  unfold indexOf. destruct (list_find (λ y, y = x) v) as [[i y]|] eqn:Hfind.
  - apply list_find_Some in Hfind as (Hi & -> & _). split.
    + intros _. by eapply lookup_lt_Some.
    + intros _. by eapply list_elem_of_lookup_2.
  - apply list_find_None in Hfind. rewrite Forall_forall in Hfind. split; [|lia].
    intros Hx. by destruct (Hfind x Hx).
Qed.

Lemma indexOf_app_l (v w : list string) (x : string) :
  x ∈ v → indexOf (v ++ w) x = indexOf v x.
Proof.
  intros Hx. unfold indexOf.
  destruct (list_find (λ y, y = x) v) as [[i y]|] eqn:Hfind.
  - by rewrite (list_find_app_l _ _ w _ _ Hfind).
  - apply list_find_None in Hfind. rewrite Forall_forall in Hfind.
    by destruct (Hfind x Hx).
Qed.

Lemma indexOf_snoc (v : list string) (x : string) :
  x ∉ v → indexOf (v ++ [x]) x = length v.
Proof.
  intros Hx. unfold indexOf.
  assert (Hfind : list_find (λ y, y = x) (v ++ [x]) = Some (length v, x)).
  { apply list_find_Some. split_and!; [| done |].
    - by apply list_lookup_middle.
    - intros j y Hj Hlt ->. apply Hx.
      rewrite lookup_app_l in Hj by done. by eapply list_elem_of_lookup_2. }
  by rewrite Hfind.
Qed.

Lemma sortGrows_refl s : sortGrows s s.
Proof. split_and!; [done | done | done |]. exists []. by rewrite app_nil_r. Qed.

Lemma sortGrows_trans s1 s2 s3 : sortGrows s1 s2 → sortGrows s2 s3 → sortGrows s1 s3.
Proof.
  intros (Hv1 & Ht1 & Ho1 & L1 & Hs1) (Hv2 & Ht2 & Ho2 & L2 & Hs2).
  split_and!; [set_solver | set_solver | |].
  - intros g. by rewrite Ho2.
  - exists (L1 ++ L2). by rewrite Hs2, Hs1, app_assoc.
Qed.

Lemma forEach_cons_run {S A : Type} (x : A) (l : list A) (body : A -> St S unit) s :
  forEach (x :: l) body s =
  match body x s with
  | Return _ s' => forEach l body s'
  | Throw e s' => Throw e s'
  | Fault => Fault
  | OutOfFuel => OutOfFuel
  end.
Proof. done. Qed.

Lemma forEach_fmap_run {S A B : Type} (f : A -> B) (l : list A) (body : B -> St S unit) s :
  forEach l (λ x, body (f x)) s = forEach (f <$> l) body s.
Proof.
  revert s. induction l as [|x l IH]; intros s; [done |].
  rewrite fmap_cons, !forEach_cons_run. destruct (body (f x) s); done.
Qed.

Lemma size_moduleIdentifiers containers :
  size (moduleIdentifiers containers) ≤ length containers.
Proof.
  unfold moduleIdentifiers. rewrite <- (length_fmap identifier).
  generalize (identifier <$> containers). intros l.
  induction l as [|x l IH]; cbn.
  - by rewrite size_empty.
  - rewrite size_union_alt, size_singleton.
    assert (size (list_to_set l ∖ {[x]} : gset string) ≤ size (list_to_set l : gset string))
      by (apply subseteq_size; set_solver).
    lia.
Qed.

Section ModuleOrder.
Variable containers : list ModuleContainer.

Abbreviation unmarked s := (size (moduleIdentifiers containers ∖ sortTmpVisited s)).

Lemma sortThrows_grows s s' lname e :
  sortGrows s s' → sortThrows containers s' lname e → sortThrows containers s lname e.
Proof.
  intros (_ & _ & Hopen & _) [Hmiss | (-> & g & Hreach & [Hg | Hcyc])]; [by left | |].
  - right. split; [done |]. exists g. split; [done |]. left. by apply Hopen.
  - right. split; [done |]. exists g. split; [done |]. by right.
Qed.

Lemma unmarked_grows s s' : sortGrows s s' → unmarked s' ≤ unmarked s.
Proof. intros (_ & Ht & _). apply subseteq_size. set_solver. Qed.

(** The loop over a list of names, given what one call does. *)
Lemma sortLoop fuel :
  (∀ s lname, sortInv containers s → unmarked s < fuel →
     sortOutcome containers s [lname] (sortHelper fuel containers lname s)) →
  ∀ names s, sortInv containers s → unmarked s < fuel →
     sortOutcome containers s names (forEach names (sortHelper fuel containers) s).
Proof.
  intros Hcall names. induction names as [|d names IH]; intros s Hinv Hfuel.
  - cbn. split_and!; [done | | apply sortGrows_refl]. intros d Hd. by apply elem_of_nil in Hd.
  - rewrite forEach_cons_run. specialize (Hcall s d Hinv Hfuel).
    destruct (sortHelper fuel containers d s) as [[] s1|e s1| |]; cbn in Hcall; try done.
    + destruct Hcall as (Hinv1 & Hd & Hgrow1).
      assert (Hfuel1 : unmarked s1 < fuel).
      { pose proof (unmarked_grows _ _ Hgrow1). lia. }
      specialize (IH s1 Hinv1 Hfuel1).
      destruct (forEach names (sortHelper fuel containers) s1) as [[] s2|e s2| |];
        cbn in IH |- *; try done.
      * destruct IH as (Hinv2 & Hnames & Hgrow2). split_and!; [done | |].
        -- intros x [->|Hx]%elem_of_cons; [|by apply Hnames].
           destruct Hgrow2 as (Hv & _). apply Hv, Hd. by left.
        -- by eapply sortGrows_trans.
      * destruct IH as (x & Hx & Hthrow). exists x. split; [by right |].
        by eapply sortThrows_grows.
    + destruct Hcall as (x & Hx & Hthrow). apply list_elem_of_singleton in Hx as ->.
      exists d. split; [by left | done].
Qed.

Lemma sortInv_markTemporary s lname :
  sortInv containers s → lname ∈ moduleIdentifiers containers →
  sortInv containers (mkSortState (sortVisited s) ({[lname]} ∪ sortTmpVisited s) (sortSorted s)).
Proof.
  intros (Hvt & Hti & Hsv & Hnd & Hdeps) Hin. split_and!; cbn; [set_solver | set_solver | done..].
Qed.

Lemma sortInv_markVisited s lname it :
  sortInv containers s →
  List.find (λ cont, bool_decide (identifier cont = lname)) containers = Some it →
  lname ∈ sortTmpVisited s → lname ∉ sortVisited s →
  (∀ d, d ∈ dependencies it → d ∈ sortVisited s) →
  sortInv containers (mkSortState ({[lname]} ∪ sortVisited s) (sortTmpVisited s)
                                  (sortSorted s ++ [lname])).
Proof.
  intros (Hvt & Hti & Hsv & Hnd & Hdeps) Hfind Htmp Hnew Hall.
  assert (Hnotin : lname ∉ sortSorted s) by by rewrite Hsv.
  split_and!; cbn.
  - set_solver.
  - done.
  - intros x. rewrite elem_of_app, list_elem_of_singleton, Hsv. set_solver.
  - apply NoDup_app. split_and!; [done | | apply NoDup_singleton].
    intros x Hx ->%list_elem_of_singleton. done.
  - intros n d Hn Hdep.
    assert (Hd : d ∈ sortVisited s).
    { apply elem_of_union in Hn as [->%elem_of_singleton | Hn].
      - destruct Hdep as (it' & Hfind' & Hd). rewrite Hfind in Hfind'.
        injection Hfind' as <-. by apply Hall.
      - by apply (Hdeps n d). }
    split; [set_solver |].
    rewrite (indexOf_app_l _ _ d) by by apply Hsv.
    apply elem_of_union in Hn as [->%elem_of_singleton | Hn].
    + rewrite indexOf_snoc by done. apply indexOf_elem_of. by apply Hsv.
    + rewrite (indexOf_app_l _ _ n) by by apply Hsv. by apply (Hdeps n d).
Qed.

(** One call of the helper. *)
Lemma sortHelper_outcome fuel :
  ∀ s lname, sortInv containers s → unmarked s < fuel →
    sortOutcome containers s [lname] (sortHelper fuel containers lname s).
Proof.
  induction fuel as [|fuel IH]; intros s lname Hinv Hfuel; [lia |].
  rewrite sortHelper_unfold.
  destruct (List.find (λ cont, bool_decide (identifier cont = lname)) containers)
    as [it|] eqn:Hfind.
  2:{ cbn. exists lname. split; [by left |]. left. exists lname.
      split_and!; [done | by apply find_identifier_None | done]. }
  destruct (find_identifier_Some _ _ _ Hfind) as (Hit & Hid).
  assert (Hin : lname ∈ moduleIdentifiers containers).
  { rewrite <- Hid. by apply elem_of_moduleIdentifiers. }
  unfold mbind, M_bind, getSortState.
  destruct (decide (lname ∈ sortVisited s)) as [Hvis | Hvis].
  { cbn. split_and!; [done | | apply sortGrows_refl].
    by intros d ->%list_elem_of_singleton. }
  destruct (decide (lname ∈ sortTmpVisited s)) as [Htmp | Htmp].
  { cbn. exists lname. split; [by left |]. right. split; [done |].
    exists lname. split; [done |]. by left. }
  unfold markTemporary.
  set (s1 := mkSortState (sortVisited s) ({[lname]} ∪ sortTmpVisited s) (sortSorted s)).
  assert (Hinv1 : sortInv containers s1) by by apply sortInv_markTemporary.
  assert (Hfuel1 : unmarked s1 < fuel).
  { assert (unmarked s1 < unmarked s); [| lia].
    apply subset_size. subst s1; cbn. set_solver. }
  assert (Hopen1 : ∀ g, sortOpen s1 g ↔ sortOpen s g ∨ g = lname).
  { intros g. unfold sortOpen. subst s1; cbn. rewrite elem_of_union, elem_of_singleton.
    destruct Hinv as (Hvt & _). split; [tauto |].
    intros [? | ->]; [tauto |]. tauto. }
  pose proof (sortLoop fuel IH (dependencies it) s1 Hinv1 Hfuel1) as Hloop.
  destruct (forEach (dependencies it) (sortHelper fuel containers) s1) as [[] s2|e s2| |];
    cbn in Hloop; try done.
  - destruct Hloop as (Hinv2 & Hall & Hgrow).
    pose proof Hgrow as (Hv12 & Ht12 & Hopen12 & L & Hsorted12).
    assert (Hopen2 : sortOpen s2 lname) by (apply Hopen12, Hopen1; by right).
    destruct Hopen2 as (Htmp2 & Hvis2).
    unfold markVisited. cbn. split_and!.
    + by eapply sortInv_markVisited.
    + intros d ->%list_elem_of_singleton. cbn. set_solver.
    + split_and!; cbn.
      * subst s1; cbn in *. set_solver.
      * subst s1; cbn in *. set_solver.
      * intros g. unfold sortOpen at 1. cbn. split.
        -- intros (Hg & Hng).
           assert (Hg2 : sortOpen s2 g) by (split; [done | set_solver]).
           apply Hopen12, Hopen1 in Hg2 as [Hg2 | ->]; [done | set_solver].
        -- intros Hg. assert (Hg2 : sortOpen s2 g) by (apply Hopen12, Hopen1; by left).
           destruct Hg2 as (Hg2 & Hng2). split; [done |].
           destruct Hg as (Hg & _). set_solver.
      * exists (L ++ [lname]). rewrite Hsorted12. subst s1; cbn. by rewrite app_assoc.
  - destruct Hloop as (d & Hd & Hthrow). exists lname. split; [by left |].
    assert (Hstep : firstDependsOn containers lname d) by by exists it.
    destruct Hthrow as [(x & -> & Hx & Hreach) | (-> & g & Hreach & [Hg | Hcyc])].
    + left. exists x. split_and!; [done | done | by eapply rtc_l].
    + apply Hopen1 in Hg as [Hg | ->].
      * right. split; [done |]. exists g. split; [by eapply rtc_l | by left].
      * right. split; [done |]. exists lname. split; [done |]. right.
        by eapply tc_rtc_r; [apply tc_once |].
    + right. split; [done |]. exists g. split; [by eapply rtc_l | by right].
Qed.

(** From the start, for every container in turn. *)
Lemma sortAll_outcome fuel :
  length containers < fuel →
  sortOutcome containers (mkSortState ∅ ∅ []) (identifier <$> containers)
    (forEach containers (λ item, sortHelper fuel containers (identifier item))
       (mkSortState ∅ ∅ [])).
Proof.
  intros Hfuel. rewrite (forEach_fmap_run identifier).
  apply (sortLoop fuel (sortHelper_outcome fuel)).
  - split_and!; cbn; [done | set_solver | set_solver | apply NoDup_nil_2 | set_solver].
  - cbn. eapply Nat.le_lt_trans; [| exact Hfuel].
    etrans; [apply subseteq_size; apply subseteq_difference_l; reflexivity |].
    apply size_moduleIdentifiers.
Qed.

Lemma firstDependsOn_moduleDependsOn n d :
  firstDependsOn containers n d → moduleDependsOn containers n d.
Proof.
  intros (it & Hfind & Hd). destruct (find_identifier_Some _ _ _ Hfind) as (Hit & Hid).
  by exists it.
Qed.

Lemma find_identifier_NoDup cont :
  NoDup (identifier <$> containers) → cont ∈ containers →
  List.find (λ c, bool_decide (identifier c = identifier cont)) containers = Some cont.
Proof.
  induction containers as [|c l IH]; intros Hnd Hin; [by apply elem_of_nil in Hin |].
  rewrite fmap_cons in Hnd. apply NoDup_cons in Hnd as (Hc & Hnd). cbn.
  destruct (decide (identifier c = identifier cont)) as [Heq | Hne].
  - rewrite bool_decide_eq_true_2 by done.
    apply elem_of_cons in Hin as [-> | Hin]; [done |].
    destruct Hc. rewrite Heq. apply list_elem_of_fmap. by exists cont.
  - rewrite bool_decide_eq_false_2 by done.
    apply elem_of_cons in Hin as [-> | Hin]; [done |]. by apply IH.
Qed.

Lemma moduleDependsOn_firstDependsOn n d :
  NoDup (identifier <$> containers) →
  moduleDependsOn containers n d → firstDependsOn containers n d.
Proof.
  intros Hnd (cont & Hin & <- & Hd). exists cont. split; [|done].
  by apply find_identifier_NoDup.
Qed.

(** Where the dependencies are closed, a chain of dependencies stays among
    the identifiers. *)
Lemma dependenciesClosed_rtc n d :
  dependenciesClosed containers → n ∈ moduleIdentifiers containers →
  rtc (firstDependsOn containers) n d → d ∈ moduleIdentifiers containers.
Proof.
  intros Hclosed Hn Hreach. induction Hreach as [|x y z Hxy _ IH]; [done |].
  apply IH. destruct Hxy as (it & Hfind & Hy).
  destruct (find_identifier_Some _ _ _ Hfind) as (Hit & _). by eapply Hclosed.
Qed.

Lemma sortThrows_start n e :
  n ∈ moduleIdentifiers containers →
  sortThrows containers (mkSortState ∅ ∅ []) n e →
  (∃ d cont, e = MissingModuleDependency d ∧ (d ∉ moduleIdentifiers containers) ∧
             cont ∈ containers ∧ d ∈ dependencies cont) ∨
  (e = NotADag ∧ ∃ g, tc (moduleDependsOn containers) g g).
Proof.
  intros Hn [(d & -> & Hd & Hreach) | (-> & g & _ & [(Hg & _) | Hcyc])].
  - left. apply rtc_inv_r in Hreach as [-> | (x & _ & it & Hfind & Hdep)]; [done |].
    destruct (find_identifier_Some _ _ _ Hfind) as (Hit & _). by exists d, it.
  - cbn in Hg. set_solver.
  - right. split; [done |]. exists g.
    apply (tc_congruence id (moduleDependsOn containers)) in Hcyc; [done |].
    intros x y. apply firstDependsOn_moduleDependsOn.
Qed.

End ModuleOrder.

Lemma tc_rank (rank : string -> nat) (dep : relation string) :
  (∀ n d, dep n d → rank d < rank n) → ∀ n, ¬ tc dep n n.
Proof.
  intros Hrank n Hn.
  assert (Hlt : ∀ a b, tc dep a b → rank b < rank a).
  { intros a b H. induction H as [a b H | a m b H _ IH].
    - by apply Hrank.
    - apply Hrank in H. lia. }
  apply Hlt in Hn. lia.
Qed.

Lemma tc_inv_last {A : Type} (R : relation A) x z :
  tc R x z → ∃ k, rtc R x k ∧ R k z.
Proof.
  intros H. induction H as [x z H | x y z H _ (k & Hk & Hlast)].
  - by exists x.
  - exists k. split; [by eapply rtc_l | done].
Qed.

Lemma StronglySorted_lookup_lt {A : Type} (R : relation A) (l : list A) i j a b :
  StronglySorted R l → l !! i = Some a → l !! j = Some b → i < j → R a b.
Proof.
  intros Hsorted. revert i j. induction Hsorted as [|x l _ IH Hall]; intros i j Hi Hj Hlt.
  - by rewrite lookup_nil in Hi.
  - destruct j as [|j]; [lia |]. cbn in Hj. destruct i as [|i].
    + cbn in Hi. injection Hi as <-. rewrite Forall_forall in Hall.
      apply Hall. by eapply list_elem_of_lookup_2.
    + cbn in Hi. apply (IH i j); [done | done | lia].
Qed.

Lemma mergeSort_sortsByKey : sortsByKey mergeSort.
Proof.
  intros key l. unfold mergeSort.
  set (R := λ a b : ModuleContainer, (key b <? key a) = false).
  assert (HR : ∀ a b, R a b ↔ key a ≤ key b).
  { intros a b. unfold R. rewrite Nat.ltb_ge. done. }
  assert (Htrans : Transitive R).
  { intros a b c. rewrite !HR. lia. }
  assert (Htotal : Total R).
  { intros a b. rewrite !HR. lia. }
  split; [apply merge_sort_Permutation |].
  intros i j a b Hi Hj Hlt. apply HR.
  eapply (StronglySorted_lookup_lt R); [| exact Hi | exact Hj | exact Hlt].
  by apply StronglySorted_merge_sort.
Qed.

Lemma exampleContainers_acyclic : dependenciesAcyclic exampleContainers.
Proof.
  intros m Hm. revert m Hm. apply (tc_rank String.length (moduleDependsOn exampleContainers)).
  intros n d (cont & Hcont & <- & Hd). unfold exampleContainers in Hcont.
  repeat (apply elem_of_cons in Hcont as [-> | Hcont]); [..| by apply elem_of_nil in Hcont];
    cbn in Hd |- *.
  - apply elem_of_cons in Hd as [-> | Hd]; [cbn; lia |].
    apply list_elem_of_singleton in Hd as ->. cbn; lia.
  - apply list_elem_of_singleton in Hd as ->. cbn; lia.
  - by apply elem_of_nil in Hd.
Qed.

(** X21 (modulemanager.cpp:54, topologicalSort): where the identifiers of the
    containers are distinct, every dependency names a container and no module
    depends on itself through a chain of dependencies, the sort returns, and
    leaves a permutation of the containers in which every container comes
    after the containers it depends on. *)
Theorem topologicalSortModules_orders sort fuel (containers : list ModuleContainer) :
  sortsByKey sort →
  NoDup (identifier <$> containers) →
  dependenciesClosed containers →
  dependenciesAcyclic containers →
  length containers < fuel →
  ∃ sorted,
    topologicalSortModules sort fuel containers = Return tt sorted ∧
    sorted ≡ₚ containers ∧
    ∀ i j a b, sorted !! i = Some a → sorted !! j = Some b →
               identifier b ∈ dependencies a → j < i.
Proof.
  intros Hsort Hnd Hclosed Hacyclic Hfuel.
  pose proof (sortAll_outcome containers fuel Hfuel) as Hout.
  unfold topologicalSortModules.
  destruct (forEach containers (λ item, sortHelper fuel containers (identifier item))
              (mkSortState ∅ ∅ [])) as [[] s|e s| |]; cbn in Hout; try done.
  - destruct Hout as ((_ & _ & Hsv & _ & Hdeps) & Hall & _).
    set (key := λ c, indexOf (sortSorted s) (identifier c)).
    destruct (Hsort key containers) as (Hperm & Hsorted).
    eexists. split; [reflexivity |]. split; [done |].
    intros i j a b Hi Hj Hdep.
    assert (Ha : a ∈ containers).
    { rewrite <- Hperm. by eapply list_elem_of_lookup_2. }
    assert (Hkey : key b < key a).
    { apply (Hdeps (identifier a) (identifier b)).
      - apply Hall, list_elem_of_fmap. by exists a.
      - apply moduleDependsOn_firstDependsOn; [done |]. by exists a. }
    destruct (decide (j < i)) as [|Hge]; [done |].
    destruct (decide (i = j)) as [-> | Hne].
    + rewrite Hi in Hj. injection Hj as ->. lia.
    + assert (Hlt : i < j) by lia.
      pose proof (Hsorted i j a b Hi Hj Hlt). lia.
  - destruct Hout as (n & Hn & Hthrow).
    assert (Hin : n ∈ moduleIdentifiers containers) by by apply elem_of_list_to_set.
    apply sortThrows_start in Hthrow as [(d & cont & _ & Hd & Hcont & Hdep) | (_ & g & Hcyc)];
      [| | done].
    + destruct Hd. by eapply Hclosed.
    + by destruct (Hacyclic g).
Qed.

Lemma topologicalSortModules_orders_witness :
  ∃ sorted,
    topologicalSortModules mergeSort 4 exampleContainers = Return tt sorted ∧
    sorted ≡ₚ exampleContainers ∧
    ∀ i j a b, sorted !! i = Some a → sorted !! j = Some b →
               identifier b ∈ dependencies a → j < i.
Proof.
  apply (topologicalSortModules_orders mergeSort 4 exampleContainers).
  - apply mergeSort_sortsByKey.
  - vm_compute. repeat constructor; set_solver.
  - intros cont d Hcont Hd. unfold exampleContainers in Hcont.
    apply elem_of_list_to_set.
    repeat (apply elem_of_cons in Hcont as [-> | Hcont]); [..| by apply elem_of_nil in Hcont];
      cbn in Hd |- *;
      repeat (apply elem_of_cons in Hd as [-> | Hd]); try (by apply elem_of_nil in Hd);
      set_solver.
  - apply exampleContainers_acyclic.
  - cbn. lia.
Defined.

(** X22 (modulemanager.cpp:54, topologicalSort): with distinct identifiers,
    the sort returns only where every dependency names a container and no
    module depends on itself through a chain of dependencies.  Otherwise it
    throws and leaves the containers as they were: [Missing module
    dependency d] for a dependency [d] of some container that no container
    is named by, or [Module Dependency graph is not a DAG] where some module
    depends on itself through a chain of dependencies. *)
Theorem topologicalSortModules_throws sort fuel (containers : list ModuleContainer) :
  NoDup (identifier <$> containers) →
  length containers < fuel →
  match topologicalSortModules sort fuel containers with
  | Return _ _ => dependenciesClosed containers ∧ dependenciesAcyclic containers
  | Throw e containers' =>
      containers' = containers ∧
      ((∃ d cont, e = MissingModuleDependency d ∧ (d ∉ moduleIdentifiers containers) ∧
                  cont ∈ containers ∧ d ∈ dependencies cont) ∨
       (e = NotADag ∧ ∃ g, tc (moduleDependsOn containers) g g))
  | Fault | OutOfFuel => False
  end.
Proof.
  intros Hnd Hfuel.
  pose proof (sortAll_outcome containers fuel Hfuel) as Hout.
  unfold topologicalSortModules.
  destruct (forEach containers (λ item, sortHelper fuel containers (identifier item))
              (mkSortState ∅ ∅ [])) as [[] s|e s| |]; cbn in Hout; try done.
  - destruct Hout as ((Hvt & Hti & _ & _ & Hdeps) & Hall & _).
    assert (Hvisited : ∀ n d, moduleDependsOn containers n d →
              d ∈ sortVisited s ∧ indexOf (sortSorted s) d < indexOf (sortSorted s) n).
    { intros n d Hdep. apply Hdeps; [| by apply moduleDependsOn_firstDependsOn].
      destruct Hdep as (cont & Hcont & <- & _). apply Hall, list_elem_of_fmap.
      by exists cont. }
    split.
    + intros cont d Hcont Hd.
      destruct (Hvisited (identifier cont) d) as (Hv & _); [by exists cont |]. set_solver.
    + intros m Hm. revert m Hm.
      apply (tc_rank (indexOf (sortSorted s))). intros n d Hdep. by apply Hvisited.
  - split; [done |]. destruct Hout as (n & Hn & Hthrow).
    apply (sortThrows_start containers n); [| done]. by apply elem_of_list_to_set.
Qed.

Lemma topologicalSortModules_throws_witness :
  match topologicalSortModules mergeSort 3 incompleteContainers with
  | Return _ _ =>
      dependenciesClosed incompleteContainers ∧ dependenciesAcyclic incompleteContainers
  | Throw e containers' =>
      containers' = incompleteContainers ∧
      ((∃ d cont, e = MissingModuleDependency d ∧
                  (d ∉ moduleIdentifiers incompleteContainers) ∧
                  cont ∈ incompleteContainers ∧ d ∈ dependencies cont) ∨
       (e = NotADag ∧ ∃ g, tc (moduleDependsOn incompleteContainers) g g))
  | Fault | OutOfFuel => False
  end.
Proof.
  apply (topologicalSortModules_throws mergeSort 3 incompleteContainers).
  - vm_compute. repeat constructor; set_solver.
  - cbn. lia.
Defined.

Example topologicalSortModules_missing :
  topologicalSortModules mergeSort 3 incompleteContainers =
    Throw (MissingModuleDependency "opengl") incompleteContainers.
Proof. reflexivity. Qed.

Example topologicalSortModules_example :
  topologicalSortModules mergeSort 4 exampleContainers =
    Return tt (reverse exampleContainers).
Proof. reflexivity. Qed.

(** ** The modules that depend on a module *)

Lemma elem_of_unique_from (acc l : list string) x :
  x ∈ foldl (λ acc item, if decide (item ∈ acc) then acc else acc ++ [item]) acc l ↔
  x ∈ acc ∨ x ∈ l.
Proof.
  revert acc. induction l as [|y l IH]; intros acc; cbn.
  - rewrite elem_of_nil. tauto.
  - rewrite IH, elem_of_cons. destruct (decide (y ∈ acc)) as [Hy | Hy].
    + split; [tauto |]. intros [? | [-> | ?]]; tauto.
    + rewrite elem_of_app, list_elem_of_singleton. tauto.
Qed.

Lemma elem_of_unique l x : x ∈ unique l ↔ x ∈ l.
Proof. unfold unique. rewrite elem_of_unique_from, elem_of_nil. tauto. Qed.

Lemma NoDup_unique_from (acc l : list string) :
  NoDup acc →
  NoDup (foldl (λ acc item, if decide (item ∈ acc) then acc else acc ++ [item]) acc l).
Proof.
  revert acc. induction l as [|y l IH]; intros acc Hacc; cbn; [done |].
  apply IH. destruct (decide (y ∈ acc)); [done |].
  apply NoDup_app. split_and!; [done | | apply NoDup_singleton].
  by intros x Hx ->%list_elem_of_singleton.
Qed.

Lemma NoDup_unique l : NoDup (unique l).
Proof. apply NoDup_unique_from, NoDup_nil_2. Qed.

Section Dependents.
Variable modules : list ModuleContainer.

Abbreviation dependent := (tc (moduleDependsOn modules)).

Lemma dependentsFirst_mono (S S' : gset string) l :
  S ⊆ S' → dependentsFirst modules S l → dependentsFirst modules S' l.
Proof.
  revert S S'. induction l as [|x l IH]; intros S S' Hsub; cbn; [done |].
  intros (Hx & Hl). split; [set_solver |]. eapply IH; [| exact Hl]. set_solver.
Qed.

Lemma dependentsFirst_app (S : gset string) l1 l2 :
  dependentsFirst modules S (l1 ++ l2) ↔
  dependentsFirst modules S l1 ∧ dependentsFirst modules (S ∪ list_to_set l1) l2.
Proof.
  revert S. induction l1 as [|x l1 IH]; intros S; cbn.
  - split; [intros H; split; [done |] | intros (_ & H)];
      (eapply dependentsFirst_mono; [| exact H]); set_solver.
  - rewrite IH. split; [intros (Hx & Hl1 & Hl2) | intros ((Hx & Hl1) & Hl2)];
      split_and!; try done;
      (eapply dependentsFirst_mono; [| exact Hl2]); set_solver.
Qed.

Lemma dependentsFirst_unique_from (S : gset string) acc l :
  dependentsFirst modules S acc →
  dependentsFirst modules (S ∪ list_to_set acc) l →
  dependentsFirst modules S
    (foldl (λ acc item, if decide (item ∈ acc) then acc else acc ++ [item]) acc l).
Proof.
  revert acc. induction l as [|x l IH]; intros acc Hacc Hl; cbn; [done |].
  cbn in Hl. destruct Hl as (Hx & Hl). destruct (decide (x ∈ acc)) as [Hin | Hin].
  - apply IH; [done |]. eapply dependentsFirst_mono; [| exact Hl]. set_solver.
  - apply IH.
    + apply dependentsFirst_app. split; [done |]. cbn. split; [done | done].
    + eapply dependentsFirst_mono; [| exact Hl]. set_solver.
Qed.

Lemma dependentsFirst_unique l :
  dependentsFirst modules ∅ l → dependentsFirst modules ∅ (unique l).
Proof.
  intros Hl. apply dependentsFirst_unique_from; [done |].
  eapply dependentsFirst_mono; [| exact Hl]. set_solver.
Qed.

Lemma dependentsFirst_lookup (S : gset string) l i x y :
  dependentsFirst modules S l → l !! i = Some x → dependent y x →
  y ∈ S ∨ ∃ j, j < i ∧ l !! j = Some y.
Proof.
  revert S i. induction l as [|z l IH]; intros S i Hl Hi Hdep; [by rewrite lookup_nil in Hi |].
  cbn in Hl. destruct Hl as (Hz & Hl). destruct i as [|i].
  - cbn in Hi. injection Hi as ->. left. by apply Hz.
  - cbn in Hi. destruct (IH _ _ Hl Hi Hdep) as [Hy | (j & Hj & Hlook)].
    + apply elem_of_union in Hy as [Hy | ->%elem_of_singleton]; [by left |].
      right. exists 0. split; [lia | done].
    + right. exists (Datatypes.S j). split; [lia | done].
Qed.

Lemma dependent_inv_r n m :
  dependent n m ↔
  ∃ item, item ∈ modules ∧ dependsOn item m = true ∧
          (n = identifier item ∨ dependent n (identifier item)).
Proof.
  split.
  - intros Hdep. induction Hdep as [n m (item & Hitem & <- & Hm) | n k m Hnk Hkm IH].
    + exists item. split_and!; [done | by apply bool_decide_eq_true_2 | by left].
    + destruct IH as (item & Hitem & Hon & [-> | Hk]); exists item;
        (split_and!; [done | done |]); right.
      * by apply tc_once.
      * by eapply tc_l.
  - intros (item & Hitem & Hon & Hn). apply bool_decide_eq_true_1 in Hon.
    assert (Hstep : moduleDependsOn modules (identifier item) m) by by exists item.
    destruct Hn as [-> | Hn]; [by apply tc_once |]. eapply tc_r; [exact Hn | exact Hstep].
Qed.


Lemma foldl_collect_None {A : Type} (f : list string -> A -> option (list string)) (l : list A) :
  foldl (λ acc item, dependencies ← acc; f dependencies item) None l = None.
Proof. by induction l. Qed.

Lemma collect_dependents fuel' moduleId :
  (∀ k r, findDependentModules fuel' modules k = Some r → dependentsOf modules k r) →
  ∀ items acc raw,
    (∀ item, item ∈ items → item ∈ modules) →
    foldl (λ acc item,
             dependencies ← acc;
             if dependsOn item moduleId then
               deps ← findDependentModules fuel' modules (identifier item);
               Some (dependencies ++ deps ++ [identifier item])
             else Some dependencies)
          (Some acc) items = Some raw →
    ∃ rest, raw = acc ++ rest ∧
            (∀ n, n ∈ rest ↔
                  ∃ item, item ∈ items ∧ dependsOn item moduleId = true ∧
                          (n = identifier item ∨ dependent n (identifier item))) ∧
            dependentsFirst modules ∅ rest.
Proof.
  intros IH items. induction items as [|item items IHitems]; intros acc raw Hsub Hrun.
  - cbn in Hrun. injection Hrun as <-. exists []. rewrite app_nil_r.
    split_and!; [done | | done]. intros n. rewrite elem_of_nil. split; [done |].
    intros (item & Hitem & _). by apply elem_of_nil in Hitem.
  - cbn in Hrun. destruct (dependsOn item moduleId) eqn:Hon.
    + destruct (findDependentModules fuel' modules (identifier item)) as [deps|] eqn:Hdeps.
      2:{ cbn in Hrun. by rewrite foldl_collect_None in Hrun. }
      cbn in Hrun. apply IHitems in Hrun as (rest & -> & Hmem & Hfirst).
      2:{ intros x Hx. apply Hsub. by right. }
      destruct (IH _ _ Hdeps) as (Hdmem & _ & Hdfirst).
      exists (deps ++ [identifier item] ++ rest). split_and!.
      * by rewrite <- !app_assoc.
      * intros n. rewrite !elem_of_app, list_elem_of_singleton, Hmem, Hdmem. split.
        -- intros [Hn | [-> | (x & Hx & Hxon & Hn)]].
           ++ exists item. split_and!; [by left | done | by right].
           ++ exists item. split_and!; [by left | done | by left].
           ++ exists x. split_and!; [by right | done | done].
        -- intros (x & [-> | Hx]%elem_of_cons & Hxon & Hn).
           ++ destruct Hn as [-> | Hn]; [right; by left | by left].
           ++ right. right. by exists x.
      * apply dependentsFirst_app. split; [done |]. cbn. split.
        -- intros y Hy. apply elem_of_union_r, elem_of_list_to_set. by apply Hdmem.
        -- eapply dependentsFirst_mono; [| exact Hfirst]. set_solver.
    + apply IHitems in Hrun as (rest & -> & Hmem & Hfirst).
      2:{ intros x Hx. apply Hsub. by right. }
      exists rest. split_and!; [done | | done].
      intros n. rewrite Hmem. split.
      * intros (x & Hx & Hrest). exists x. split; [by right | done].
      * intros (x & [-> | Hx]%elem_of_cons & Hxon & Hn); [congruence |]. by exists x.
Qed.

(** A returned result of [findDependentModules] is as [dependentsOf] says. *)
Lemma findDependentModules_sound fuel :
  ∀ moduleId result,
    findDependentModules fuel modules moduleId = Some result →
    dependentsOf modules moduleId result.
Proof.
  induction fuel as [|fuel IH]; intros moduleId result Hrun; [done |].
  cbn in Hrun. apply fmap_Some in Hrun as (raw & Hrun & ->).
  apply (collect_dependents fuel moduleId IH) in Hrun as (rest & -> & Hmem & Hfirst); [| done].
  cbn. split_and!.
  - intros n. rewrite elem_of_unique, Hmem. symmetry. apply dependent_inv_r.
  - apply NoDup_unique.
  - by apply dependentsFirst_unique.
Qed.

Lemma collect_total fuel' moduleId :
  (∀ item, item ∈ modules → dependsOn item moduleId = true →
           is_Some (findDependentModules fuel' modules (identifier item))) →
  ∀ items acc,
    (∀ item, item ∈ items → item ∈ modules) →
    is_Some (foldl (λ acc item,
                      dependencies ← acc;
                      if dependsOn item moduleId then
                        deps ← findDependentModules fuel' modules (identifier item);
                        Some (dependencies ++ deps ++ [identifier item])
                      else Some dependencies)
                   (Some acc) items).
Proof.
  intros Htot items. induction items as [|item items IH]; intros acc Hsub; cbn; [done |].
  assert (Hrest : ∀ x, x ∈ items → x ∈ modules) by (intros x Hx; apply Hsub; by right).
  destruct (dependsOn item moduleId) eqn:Hon; [| by apply IH].
  destruct (Htot item) as (deps & ->); [apply Hsub; by left | done |]. cbn. by apply IH.
Qed.

Lemma collect_None fuel' moduleId :
  ∀ items acc item,
    item ∈ items → dependsOn item moduleId = true →
    findDependentModules fuel' modules (identifier item) = None →
    foldl (λ acc item,
             dependencies ← acc;
             if dependsOn item moduleId then
               deps ← findDependentModules fuel' modules (identifier item);
               Some (dependencies ++ deps ++ [identifier item])
             else Some dependencies)
          acc items = None.
Proof.
  intros items. induction items as [|x items IH]; intros acc item Hitem Hon Hnone;
    [by apply elem_of_nil in Hitem |].
  cbn. apply elem_of_cons in Hitem as [<- | Hitem]; [| by eapply IH].
  rewrite Hon, Hnone. destruct acc; cbn; apply foldl_collect_None.
Qed.

Lemma dependent_identifier n m : dependent n m → n ∈ moduleIdentifiers modules.
Proof.
  intros Hdep.
  assert (Hstep : ∃ k, moduleDependsOn modules n k) by (destruct Hdep; eauto).
  destruct Hstep as (k & cont & Hcont & <- & _). by apply elem_of_moduleIdentifiers.
Qed.

Lemma findDependentModules_total_within :
  dependenciesAcyclic modules →
  ∀ fuel moduleId (X : gset string),
    (∀ n, dependent n moduleId → n ∈ X) → size X < fuel →
    is_Some (findDependentModules fuel modules moduleId).
Proof.
  intros Hacyclic fuel. induction fuel as [|fuel IH]; intros moduleId X HX Hsize; [lia |].
  cbn. apply fmap_is_Some. apply collect_total; [| done].
  intros item Hitem Hon. apply bool_decide_eq_true_1 in Hon.
  assert (Hstep : dependent (identifier item) moduleId) by (apply tc_once; by exists item).
  apply (IH _ (X ∖ {[identifier item]})).
  - intros n Hn. apply elem_of_difference. split.
    + apply HX. by eapply tc_transitive.
    + intros ->%elem_of_singleton. by apply (Hacyclic (identifier item)).
  - assert (size (X ∖ {[identifier item]}) < size X); [| lia].
    apply subset_size. specialize (HX _ Hstep). set_solver.
Qed.

Lemma findDependentModules_returns fuel moduleId :
  dependenciesAcyclic modules → length modules < fuel →
  ∃ result, findDependentModules fuel modules moduleId = Some result ∧
            dependentsOf modules moduleId result.
Proof.
  intros Hacyclic Hfuel.
  destruct (findDependentModules_total_within Hacyclic fuel moduleId
              (moduleIdentifiers modules)) as (result & Hrun).
  - intros n Hn. by eapply dependent_identifier.
  - pose proof (size_moduleIdentifiers modules). lia.
  - exists result. split; [done |]. by eapply findDependentModules_sound.
Qed.

End Dependents.

(** X23 (modulemanager.cpp:433, findDependentModules): where no module
    depends on itself through a chain of dependencies, the call returns the
    identifiers of the modules that depend on [moduleId], directly or through
    a chain of dependencies, each of them once. *)
Theorem findDependentModules_dependents fuel modules moduleId :
  dependenciesAcyclic modules → length modules < fuel →
  ∃ result, findDependentModules fuel modules moduleId = Some result ∧
            NoDup result ∧
            ∀ n, n ∈ result ↔ tc (moduleDependsOn modules) n moduleId.
Proof.
  intros Hacyclic Hfuel.
  destruct (findDependentModules_returns modules fuel moduleId Hacyclic Hfuel)
    as (result & Hrun & Hmem & Hnd & _).
  by exists result.
Qed.

Lemma findDependentModules_dependents_witness :
  ∃ result, findDependentModules 4 exampleContainers "base" = Some result ∧
            NoDup result ∧
            ∀ n, n ∈ result ↔ tc (moduleDependsOn exampleContainers) n "base".
Proof.
  apply (findDependentModules_dependents 4 exampleContainers "base").
  - apply exampleContainers_acyclic.
  - cbn. lia.
Defined.

(** X24 (modulemanager.cpp:433, findDependentModules): in the result a module
    comes after every module that depends on it, so that the modules can be
    taken down in the order of the result. *)
Theorem findDependentModules_dependents_first fuel modules moduleId result i j x y :
  findDependentModules fuel modules moduleId = Some result →
  result !! i = Some x → result !! j = Some y →
  tc (moduleDependsOn modules) y x →
  j < i.
Proof.
  intros Hrun Hi Hj Hdep.
  destruct (findDependentModules_sound modules fuel moduleId result Hrun) as (_ & Hnd & Hfirst).
  destruct (dependentsFirst_lookup modules ∅ result i x y Hfirst Hi Hdep)
    as [Hy | (j' & Hlt & Hj')]; [set_solver |].
  by rewrite (NoDup_lookup _ _ _ _ Hnd Hj Hj').
Qed.

Lemma findDependentModules_dependents_first_witness :
  findDependentModules 4 exampleContainers "base" = Some ["vectorfield"; "basegl"] ∧ 0 < 1.
Proof.
  split; [reflexivity |].
  apply (findDependentModules_dependents_first 4 exampleContainers "base"
           ["vectorfield"; "basegl"] 1 0 "basegl" "vectorfield");
    [reflexivity | reflexivity | reflexivity |].
  apply tc_once. eexists. split; [by left |]. split; [reflexivity |]. cbn. by left.
Defined.

(** X25 (modulemanager.cpp:433, findDependentModules): where [moduleId], or a
    module that depends on it, depends on itself through a chain of
    dependencies, the recursion does not end: no bound is enough. *)
Theorem findDependentModules_cycle fuel modules moduleId n :
  rtc (moduleDependsOn modules) n moduleId →
  tc (moduleDependsOn modules) n n →
  findDependentModules fuel modules moduleId = None.
Proof.
  intros Hreach Hcyc. revert moduleId Hreach.
  induction fuel as [|fuel IH]; intros moduleId Hreach; [done |].
  assert (Hstep : ∃ k, rtc (moduleDependsOn modules) n k ∧ moduleDependsOn modules k moduleId).
  { apply rtc_inv_r in Hreach as [Heq | Hstep]; [| done].
    rewrite <- Heq. by apply tc_inv_last. }
  destruct Hstep as (k & Hk & item & Hitem & <- & Hon).
  cbn. rewrite (collect_None modules fuel moduleId modules (Some []) item); [done | done | |].
  - by apply bool_decide_eq_true_2.
  - by apply IH.
Qed.

Lemma findDependentModules_cycle_witness :
  findDependentModules 100 cyclicContainers "base" = None.
Proof.
  apply (findDependentModules_cycle 100 cyclicContainers "base" "plotting").
  - apply rtc_once. eexists. split; [right; by left |]. split; [reflexivity |]. cbn. by left.
  - eapply tc_l; [| apply tc_once].
    + eexists. split; [right; by left |]. split; [reflexivity |]. cbn. right. by left.
    + eexists. split; [right; right; by left |]. split; [reflexivity |]. cbn. by left.
Defined.

(** ** Deregistering a module and its dependents *)

Lemma collect_deregister fuel modules :
  dependenciesAcyclic modules → length modules < fuel →
  ∀ names acc,
    ∃ rest,
      foldl (λ acc m,
               deregister ← acc;
               dependents ← findDependentModules fuel modules m;
               Some (deregister ++ [m] ++ dependents))
            (Some acc) names = Some (acc ++ rest) ∧
      ∀ n, n ∈ rest ↔ namedOrDependent modules names n.
Proof.
  intros Hacyclic Hfuel names. induction names as [|m names IH]; intros acc.
  - exists []. rewrite app_nil_r. split; [done |]. intros n. rewrite elem_of_nil.
    split; [done |]. intros (m & Hm & _). by apply elem_of_nil in Hm.
  - destruct (findDependentModules_returns modules fuel m Hacyclic Hfuel)
      as (dependents & Hrun & Hmem & _).
    cbn [foldl mbind option_bind]. rewrite Hrun. cbn [mbind option_bind].
    destruct (IH (acc ++ [m] ++ dependents)) as (rest & -> & Hrest).
    exists (m :: dependents ++ rest). split; [by rewrite <- app_assoc |].
    intros n. rewrite elem_of_cons, elem_of_app, Hmem, Hrest. split.
    + intros [-> | [Hn | (k & Hk & Hn)]].
      * exists m. split; [by left | by left].
      * exists m. split; [by left | by right].
      * exists k. split; [by right | done].
    + intros (k & [-> | Hk]%elem_of_cons & Hn).
      * destruct Hn as [-> | Hn]; [by left | right; by left].
      * right. right. by exists k.
Qed.

(** X26 (modulemanager.cpp:449, deregisterDependentModules): where no module
    depends on itself through a chain of dependencies, the call resets the
    containers named in [toDeregister] and those that depend on one of them,
    directly or through a chain of dependencies, and leaves the other
    containers, the network and the log as they are.  It returns the
    identifiers of the containers it has reset, the last container first. *)
Theorem deregisterDependentModules_resets fuel toDeregister app :
  dependenciesAcyclic (inviwoModules_ app) →
  length (inviwoModules_ app) < fuel →
  ∃ deregistered app',
    deregisterDependentModules fuel toDeregister app = Return deregistered app' ∧
    length (inviwoModules_ app') = length (inviwoModules_ app) ∧
    (∀ i cont, inviwoModules_ app !! i = Some cont →
       (namedOrDependent (inviwoModules_ app) toDeregister (identifier cont) →
        inviwoModules_ app' !! i = Some (resetModule cont)) ∧
       (¬ namedOrDependent (inviwoModules_ app) toDeregister (identifier cont) →
        inviwoModules_ app' !! i = Some cont)) ∧
    deregistered `sublist_of` reverse (identifier <$> inviwoModules_ app) ∧
    (∀ n, n ∈ deregistered ↔
          n ∈ moduleIdentifiers (inviwoModules_ app) ∧
          namedOrDependent (inviwoModules_ app) toDeregister n) ∧
    getProcessorNetwork app' = getProcessorNetwork app ∧
    logged app' = logged app ∧
    invoked app' = invoked app.
Proof.
  intros Hacyclic Hfuel.
  destruct (collect_deregister fuel (inviwoModules_ app) Hacyclic Hfuel toDeregister [])
    as (deregister & Hrun & Hmem).
  unfold deregisterDependentModules. rewrite Hrun, app_nil_l.
  eexists _, _. split; [reflexivity |]. cbn. split_and!; try done.
  - by rewrite length_fmap.
  - intros i cont Hi. rewrite list_lookup_fmap, Hi. cbn.
    destruct (decide (identifier cont ∈ deregister)) as [Hin | Hin].
    + split; [done |]. intros Hnot. destruct Hnot. by apply Hmem.
    + split; [| done]. intros Hyes. destruct Hin. by apply Hmem.
  - rewrite <- fmap_reverse. apply fmap_sublist, sublist_filter.
  - intros n. rewrite list_elem_of_fmap. split.
    + intros (cont & -> & Hcont). apply list_elem_of_filter in Hcont as (Hin & Hcont).
      rewrite elem_of_reverse in Hcont.
      split; [by apply elem_of_moduleIdentifiers | by apply Hmem].
    + intros (Hid & Hn). unfold moduleIdentifiers in Hid.
      apply elem_of_list_to_set, list_elem_of_fmap in Hid as (cont & -> & Hcont).
      exists cont. split; [done |]. apply list_elem_of_filter.
      split; [by apply Hmem | by rewrite elem_of_reverse].
Qed.

Lemma deregisterDependentModules_resets_witness :
  ∃ deregistered app',
    deregisterDependentModules 3 ["base"] reloadApplication = Return deregistered app' ∧
    length (inviwoModules_ app') = length (inviwoModules_ reloadApplication) ∧
    (∀ i cont, inviwoModules_ reloadApplication !! i = Some cont →
       (namedOrDependent (inviwoModules_ reloadApplication) ["base"] (identifier cont) →
        inviwoModules_ app' !! i = Some (resetModule cont)) ∧
       (¬ namedOrDependent (inviwoModules_ reloadApplication) ["base"] (identifier cont) →
        inviwoModules_ app' !! i = Some cont)) ∧
    deregistered `sublist_of` reverse (identifier <$> inviwoModules_ reloadApplication) ∧
    (∀ n, n ∈ deregistered ↔
          n ∈ moduleIdentifiers (inviwoModules_ reloadApplication) ∧
          namedOrDependent (inviwoModules_ reloadApplication) ["base"] n) ∧
    getProcessorNetwork app' = getProcessorNetwork reloadApplication ∧
    logged app' = logged reloadApplication ∧
    invoked app' = invoked reloadApplication.
Proof.
  apply (deregisterDependentModules_resets 3 ["base"] reloadApplication).
  - intros m Hm. revert m Hm.
    apply (tc_rank String.length (moduleDependsOn (inviwoModules_ reloadApplication))).
    intros n d (cont & Hcont & <- & Hd). cbn in Hcont.
    repeat (apply elem_of_cons in Hcont as [-> | Hcont]); [..| by apply elem_of_nil in Hcont];
      cbn in Hd |- *.
    + by apply elem_of_nil in Hd.
    + apply list_elem_of_singleton in Hd as ->. cbn; lia.
  - cbn. lia.
Defined.

Example deregisterDependentModules_example :
  ∃ app', deregisterDependentModules 3 ["base"] reloadApplication =
            Return ["basegl"; "base"] app'.
Proof. eexists. vm_compute. reflexivity. Qed.
